(** * Conditional Gaussian diffusion engine (difs/diffusion.py, difs/models.py)

    A shallow embedding of the diffusion engine: the schedule builders, the
    coefficient cache built by the constructors, the parameterisation
    converter, the guidance compositor of the network, the two reverse
    samplers, the resume and diffuse utilities of the trainer class and the
    training loss; and of the network's helper modules that are plain
    arithmetic: the timestep embeddings, the normalisation layer and its
    wrappers.

    Conventions of the embedding.
    - Tensor entries are real numbers: the embedding is the exact-arithmetic
      reading of the float tensors (no rounding, no NaN, no infinity).
      Division and square root are the total functions of the real-number
      library; every theorem that needs a divisor to be non-zero says so.
    - A sample of shape (batch, channels, length) is a three-level list, a
      condition or initial-state tensor a two-level list, a buffer a list.
      An operation between two tensors pairs their entries up to the shorter
      one; every caller in the engine passes operands of one shape.
    - Python exceptions are values of [exn]; a fallible pure function returns
      a [result], a method that draws random numbers or calls the network is
      a computation over a [World] (random source, draw counter, event log).
    - The event log is the observation instrument: a draw from the random
      generator and an entry into the network's [forward] each append one
      event. *)

From Stdlib Require Import String.
From Stdlib Require Import Reals Lra Lia ZArith List Bool Psatz.
Import ListNotations.
Open Scope R_scope.

(** ** Exceptions and results *)

Inductive exn : Type :=
| AssertionError
| ValueError
| ZeroDivisionError
| RuntimeError
| IndexError
| UnboundLocalError.

Inductive result (A : Type) : Type :=
| Ok (a : A)
| Raise (e : exn).

Arguments Ok {A} a.
Arguments Raise {A} e.

Definition rbind {A B} (r : result A) (k : A -> result B) : result B :=
  match r with
  | Ok a => k a
  | Raise e => Raise e
  end.

Definition failed {A} (r : result A) : Prop :=
  match r with
  | Ok _ => False
  | Raise _ => True
  end.

(** ** Buffers: one-dimensional tensors *)

Fixpoint map2 {A B C} (f : A -> B -> C) (l1 : list A) (l2 : list B) : list C :=
  match l1, l2 with
  | a :: l1', b :: l2' => f a b :: map2 f l1' l2'
  | _, _ => []
  end.

(** [torch.cumprod(l, dim=0)]: the running product, left to right. *)
Fixpoint cumprod_from (acc : R) (l : list R) : list R :=
  match l with
  | [] => []
  | a :: l' => (acc * a) :: cumprod_from (acc * a) l'
  end.

Definition cumprod (l : list R) : list R := cumprod_from 1 l.

(** [torch.clip(x, lo, hi)] and [torch.clamp] on one entry. *)
Definition clip (lo hi x : R) : R := Rmin (Rmax x lo) hi.

(** [torch.linspace(start, stop, steps)]: a negative step count is refused,
    one step gives [start], otherwise the entries are evenly spaced. *)
Definition linspace (start stop : R) (steps : Z) : result (list R) :=
  if (steps <? 0)%Z then Raise RuntimeError
  else if (steps =? 1)%Z then Ok [start]
  else Ok (map (fun i => start + INR i * ((stop - start) / IZR (steps - 1)))
               (seq 0 (Z.to_nat steps))).

(** ** Schedule builders *)

Definition linear_beta_schedule (timesteps : Z) : result (list R) :=
  if (timesteps =? 0)%Z then Raise ZeroDivisionError
  else
    let scale := 1000 / IZR timesteps in
    let beta_start := scale * 0.0001 in
    let beta_end := scale * 0.02 in
    linspace beta_start beta_end timesteps.

Definition cosine_beta_schedule (timesteps : Z) : result (list R) :=
  let s := 0.008 in
  let steps := (timesteps + 1)%Z in
  rbind (linspace 0 (IZR timesteps) steps) (fun x =>
  let alphas_cumprod :=
    map (fun xi => (cos (((xi / IZR timesteps) + s) / (1 + s) * PI * 0.5)) ^ 2) x in
  match alphas_cumprod with
  | [] => Raise IndexError
  | a0 :: _ =>
      let alphas_cumprod := map (fun a => a / a0) alphas_cumprod in
      let betas :=
        map (fun q => 1 - q) (map2 Rdiv (tl alphas_cumprod) (removelast alphas_cumprod)) in
      Ok (map (clip 0 0.999) betas)
  end).

(** ** The denoising network, as the engine sees it *)

Definition Tensor2 : Type := list (list R).
Definition Tensor3 : Type := list (list (list R)).

(** [Unet]: the layers of [forward] below the choice of the condition are
    one function of the sample, the timestep batch and the condition. *)
Record Unet : Type := {
  unet_channels : nat;
  unet_cond_dim : nat;
  unet_cond_drop_prob : R;
  unet_null_classes_emb : list R;
  unet_body : Tensor3 -> list Z -> Tensor2 -> Tensor3
}.

(** [FullyConditionedUnet]: the same, with the raw initial-state tensor as a
    further input of the layers. *)
Record FullyConditionedUnet : Type := {
  channels : nat;
  cond_dim : nat;
  cond_drop_prob : R;
  null_classes_emb : list R;
  fc_body : Tensor3 -> list Z -> Tensor2 -> Tensor2 -> Tensor3
}.

(** ** The engine and its constructor *)

Record Config : Type := {
  cfg_seq_length : nat;
  cfg_classifier_free_guidance : bool;
  cfg_timesteps : Z;
  cfg_sampling_timesteps : option Z;
  cfg_objective : string;
  cfg_beta_schedule : string;
  cfg_ddim_sampling_eta : R;
  cfg_auto_normalize : bool;
  cfg_clip_min : R;
  cfg_clip_max : R;
  cfg_drop_prob : R;
  cfg_guidance_scale : R
}.

Record Engine : Type := {
  model : FullyConditionedUnet;
  seq_length : nat;
  objective : string;
  classifier_free_guidance : bool;
  drop_prob : R;
  guidance_scale : R;
  beta_schedule : string;
  num_timesteps : Z;
  sampling_timesteps : Z;
  is_ddim_sampling : bool;
  ddim_sampling_eta : R;
  betas : list R;
  alphas_cumprod : list R;
  alphas_cumprod_prev : list R;
  sqrt_alphas_cumprod : list R;
  sqrt_one_minus_alphas_cumprod : list R;
  log_one_minus_alphas_cumprod : list R;
  sqrt_recip_alphas_cumprod : list R;
  sqrt_recipm1_alphas_cumprod : list R;
  posterior_variance : list R;
  posterior_log_variance_clipped : list R;
  posterior_mean_coef1 : list R;
  posterior_mean_coef2 : list R;
  loss_weight : list R;
  auto_normalize : bool;
  clip_min : R;
  clip_max : R
}.

Definition known_objective (o : string) : bool :=
  (String.eqb o "pred_noise" || String.eqb o "pred_x0" || String.eqb o "pred_v")%bool.

Definition build_betas (kind : string) (timesteps : Z) : result (list R) :=
  if String.eqb kind "linear" then linear_beta_schedule timesteps
  else if String.eqb kind "cosine" then cosine_beta_schedule timesteps
  else Raise ValueError.

(** Modelled from the spec: [default] of difs.utils is not among the
    sources.  The constructor's own comment has it default the number of
    sampling timesteps to the number of timesteps, and the spec has the
    forward process draw its noise "if not supplied": the given value when
    there is one, the fallback otherwise. *)
Definition default {A} (val : option A) (d : A) : A :=
  match val with
  | Some v => v
  | None => d
  end.

(** The body shared by [GaussianDiffusionConditional.__init__] and
    [GaussianDiffusionConditionalTrainer.__init__]; the two constructors
    build the same buffers. *)
Definition GaussianDiffusionConditional_init (m : FullyConditionedUnet) (cfg : Config) : result Engine :=
  if negb (known_objective (cfg_objective cfg)) then Raise AssertionError
  else
  rbind (build_betas (cfg_beta_schedule cfg) (cfg_timesteps cfg)) (fun betas =>
  let alphas := map (fun b => 1 - b) betas in
  let alphas_cumprod := cumprod alphas in
  let alphas_cumprod_prev := 1 :: removelast alphas_cumprod in
  let timesteps := Z.of_nat (length betas) in
  let sampling_timesteps := default (cfg_sampling_timesteps cfg) timesteps in
  if (timesteps <? sampling_timesteps)%Z then Raise AssertionError
  else
  let posterior_variance :=
    map2 Rdiv (map2 Rmult betas (map (fun a => 1 - a) alphas_cumprod_prev))
              (map (fun a => 1 - a) alphas_cumprod) in
  let snr := map2 Rdiv alphas_cumprod (map (fun a => 1 - a) alphas_cumprod) in
  let loss_weight :=
    if String.eqb (cfg_objective cfg) "pred_noise" then map (fun _ => 1) snr
    else if String.eqb (cfg_objective cfg) "pred_x0" then snr
    else (* 'pred_v', the one objective left after the assertion *)
      map (fun s => s / (s + 1)) snr in
  Ok {|
    model := m;
    seq_length := cfg_seq_length cfg;
    objective := cfg_objective cfg;
    classifier_free_guidance := cfg_classifier_free_guidance cfg;
    drop_prob := cfg_drop_prob cfg;
    guidance_scale := cfg_guidance_scale cfg;
    beta_schedule := cfg_beta_schedule cfg;
    num_timesteps := timesteps;
    sampling_timesteps := sampling_timesteps;
    is_ddim_sampling := (sampling_timesteps <? timesteps)%Z;
    ddim_sampling_eta := cfg_ddim_sampling_eta cfg;
    betas := betas;
    alphas_cumprod := alphas_cumprod;
    alphas_cumprod_prev := alphas_cumprod_prev;
    sqrt_alphas_cumprod := map sqrt alphas_cumprod;
    sqrt_one_minus_alphas_cumprod := map (fun a => sqrt (1 - a)) alphas_cumprod;
    log_one_minus_alphas_cumprod := map (fun a => ln (1 - a)) alphas_cumprod;
    sqrt_recip_alphas_cumprod := map (fun a => sqrt (1 / a)) alphas_cumprod;
    sqrt_recipm1_alphas_cumprod := map (fun a => sqrt (1 / a - 1)) alphas_cumprod;
    posterior_variance := posterior_variance;
    posterior_log_variance_clipped :=
      map (fun v => ln (Rmax v 1e-20)) posterior_variance;
    posterior_mean_coef1 :=
      map2 Rdiv (map2 Rmult betas (map sqrt alphas_cumprod_prev))
                (map (fun a => 1 - a) alphas_cumprod);
    posterior_mean_coef2 :=
      map2 Rdiv (map2 Rmult (map (fun a => 1 - a) alphas_cumprod_prev) (map sqrt alphas))
                (map (fun a => 1 - a) alphas_cumprod);
    loss_weight := loss_weight;
    auto_normalize := cfg_auto_normalize cfg;
    clip_min := cfg_clip_min cfg;
    clip_max := cfg_clip_max cfg
  |}).

(** ** Worlds and computations

    The random generator is a family of draws: [rng w k i j l] is the entry
    at position (i, j, l) of the k-th tensor drawn in world [w]; a draw of
    a two-dimensional tensor reads the positions (i, j, 0). *)

Inductive Event : Type :=
| EvRandn
| EvRand
| EvForward (time : list Z) (cond : Tensor2) (inits : option Tensor2)
            (cond_drop_prob : option R).

Record World : Type := {
  rng : nat -> nat -> nat -> nat -> R;
  draws : nat;
  trace : list Event
}.

Definition M (A : Type) : Type := World -> result (A * World).

Definition ret {A} (a : A) : M A := fun w => Ok (a, w).

Definition bind {A B} (c : M A) (k : A -> M B) : M B :=
  fun w => match c w with
           | Ok (a, w') => k a w'
           | Raise e => Raise e
           end.

Definition lift {A} (r : result A) : M A :=
  fun w => match r with
           | Ok a => Ok (a, w)
           | Raise e => Raise e
           end.

Definition log (ev : Event) : M unit :=
  fun w => Ok (tt, {| rng := rng w; draws := draws w; trace := trace w ++ [ev] |}).

Declare Scope comp_scope.
Delimit Scope comp_scope with comp.
Notation "x <- c ;; k" := (bind c (fun x => k))
  (at level 61, c at next level, right associativity) : comp_scope.
Notation "' p <- c ;; k" := (bind c (fun p => k))
  (at level 61, p pattern, c at next level, right associativity) : comp_scope.
Notation "c ;;; k" := (bind c (fun _ => k))
  (at level 61, right associativity) : comp_scope.
Open Scope comp_scope.

Fixpoint foldM {A S} (f : S -> A -> M S) (l : list A) (s : S) : M S :=
  match l with
  | [] => ret s
  | a :: l' => s' <- f s a ;; foldM f l' s'
  end.

Fixpoint mapR {A B} (f : A -> result B) (l : list A) : result (list B) :=
  match l with
  | [] => Ok []
  | a :: l' => rbind (f a) (fun b => rbind (mapR f l') (fun bs => Ok (b :: bs)))
  end.

(** ** Tensors *)

Fixpoint imap_from {A B} (f : nat -> A -> B) (i : nat) (l : list A) : list B :=
  match l with
  | [] => []
  | a :: l' => f i a :: imap_from f (S i) l'
  end.

Definition imap {A B} (f : nat -> A -> B) (l : list A) : list B := imap_from f 0%nat l.

Definition fill3 (g : nat -> nat -> nat -> R) (x : Tensor3) : Tensor3 :=
  imap (fun i xi => imap (fun j xij => imap (fun l _ => g i j l) xij) xi) x.

Definition fill2 (g : nat -> nat -> R) (x : Tensor2) : Tensor2 :=
  imap (fun i xi => imap (fun j _ => g i j) xi) x.

Definition zeros3 (shape : nat * nat * nat) : Tensor3 :=
  let '(b, c, n) := shape in repeat (repeat (repeat 0 n) c) b.

Definition zeros_like (x : Tensor2) : Tensor2 := map (map (fun _ => 0)) x.

Definition next_draw (ev : Event) (w : World) : World :=
  {| rng := rng w; draws := S (draws w); trace := trace w ++ [ev] |}.

(** [torch.randn_like(x)] *)
Definition randn_like (x : Tensor3) : M Tensor3 :=
  fun w => Ok (fill3 (rng w (draws w)) x, next_draw EvRandn w).

(** [torch.randn(shape)] *)
Definition randn (shape : nat * nat * nat) : M Tensor3 := randn_like (zeros3 shape).

(** [torch.rand(x.shape)] for a two-dimensional [x] *)
Definition rand_like (x : Tensor2) : M Tensor2 :=
  fun w => Ok (fill2 (fun i j => rng w (draws w) i j 0%nat) x, next_draw EvRand w).

(** [torch.zeros(shape).uniform_(0, 1)] for a one-dimensional shape *)
Definition rand1 (batch : nat) : M (list R) :=
  fun w => Ok (map (fun i => rng w (draws w) i 0%nat 0%nat) (seq 0 batch), next_draw EvRand w).

Definition t3map (f : R -> R) (x : Tensor3) : Tensor3 := map (map (map f)) x.

Definition t3map2 (f : R -> R -> R) (x y : Tensor3) : Tensor3 :=
  map2 (map2 (map2 f)) x y.

Definition tadd : Tensor3 -> Tensor3 -> Tensor3 := t3map2 Rplus.
Definition tsub : Tensor3 -> Tensor3 -> Tensor3 := t3map2 Rminus.

(** scalar * tensor *)
Definition tscale (c : R) (x : Tensor3) : Tensor3 := t3map (Rmult c) x.

(** a coefficient of shape (batch, 1, 1) against a sample, by broadcast *)
Definition bmul (c : list R) (x : Tensor3) : Tensor3 :=
  map2 (fun ci xi => map (map (Rmult ci)) xi) c x.

Definition bdiv (x : Tensor3) (c : list R) : Tensor3 :=
  map2 (fun xi ci => map (map (fun v => v / ci)) xi) x c.

Definition badd (x : Tensor3) (c : list R) : Tensor3 :=
  map2 (fun xi ci => map (map (fun v => v + ci)) xi) x c.

Definition clamp (lo hi : R) (x : Tensor3) : Tensor3 := t3map (clip lo hi) x.

Definition Rgtb (a b : R) : bool := if Rlt_dec b a then true else false.

Definition rsum (l : list R) : R := fold_right Rplus 0 l.

Definition mean (l : list R) : R := rsum l / INR (length l).

(** [torch.std] over all non-batch dimensions of one batch element
    (the unbiased estimator) *)
Definition std (xi : list (list R)) : R :=
  let v := concat xi in
  let m := mean v in
  sqrt (rsum (map (fun a => (a - m) ^ 2) v) / (INR (length v) - 1)).

(** Indexing a one-dimensional tensor with a Python integer: a negative
    index counts from the end, anything outside raises. *)
Definition index (a : list R) (i : Z) : result R :=
  let n := Z.of_nat (length a) in
  let j := if (i <? 0)%Z then (i + n)%Z else i in
  if ((j <? 0) || (n <=? j))%Z then Raise IndexError
  else Ok (nth (Z.to_nat j) a 0).

(** [a.gather(-1, t)] on one index: no wrap-around. *)
Definition gather (a : list R) (i : Z) : result R :=
  if (i <? 0)%Z then Raise RuntimeError
  else match nth_error a (Z.to_nat i) with
       | Some v => Ok v
       | None => Raise RuntimeError
       end.

(** [extract(a, t, x_shape)]: one coefficient per batch element; the reshape
    to (batch, 1, 1) is the broadcast of [bmul], [bdiv] and [badd]. *)
Definition extract (a : list R) (t : list Z) : result (list R) := mapR (gather a) t.

Definition normalize_to_neg_one_to_one (img : Tensor3) : Tensor3 :=
  t3map (fun v => v * 2 - 1) img.

Definition unnormalize_to_zero_to_one (t : Tensor3) : Tensor3 :=
  t3map (fun v => (v + 1) * 0.5) t.

(** ** The network: condition replacement and the guidance compositor *)

(** Modelled from the spec: [prob_mask_like] of difs.utils is not among the
    sources.  The spec has the null-condition call ([cond_drop_prob = 1])
    replace the condition of every batch element, deterministically, and the
    full-condition call replace none; in between one uniform number is drawn
    per batch element and the element is kept when it is below [prob]. *)
Definition prob_mask_like (batch : nat) (prob : R) : M (list bool) :=
  if Req_EM_T prob 1 then ret (repeat true batch)
  else if Req_EM_T prob 0 then ret (repeat false batch)
  else u <- rand1 batch ;; ret (map (fun v => Rgtb prob v) u).

(** [torch.where(rearrange(keep_mask, 'b -> b 1'), cond, null_classes_emb)] *)
Definition where_rows (keep : list bool) (cond : Tensor2) (null : Tensor2) : Tensor2 :=
  map2 (fun (k : bool) cn => if k then fst cn else snd cn) keep (combine cond null).

Definition choose_cond (batch : nat) (p : R) (null_emb : list R) (cond : Tensor2) : M Tensor2 :=
  if Rgtb p 0 then
    keep_mask <- prob_mask_like batch (1 - p) ;;
    ret (where_rows keep_mask cond (repeat null_emb batch))
  else ret cond.

Definition Unet_forward (net : Unet) (x : Tensor3) (time : list Z) (cond : Tensor2)
    (drop : option R) : M Tensor3 :=
  log (EvForward time cond None drop) ;;;
  c <- choose_cond (length x) (default drop (unet_cond_drop_prob net))
         (unet_null_classes_emb net) cond ;;
  ret (unet_body net x time c).

Definition FullyConditionedUnet_forward (net : FullyConditionedUnet) (x : Tensor3)
    (time : list Z) (cond inits : Tensor2) (drop : option R) : M Tensor3 :=
  log (EvForward time cond (Some inits) drop) ;;;
  c <- choose_cond (length x) (default drop (cond_drop_prob net))
         (null_classes_emb net) cond ;;
  ret (fc_body net x time c inits).

(** [forward_with_cond_scale(self, *args, cond_scale, rescaled_phi, **kwargs)]:
    the same text in both network classes, over whatever [forward] takes. *)
Definition forward_with_cond_scale {Args : Type}
    (forward : Args -> option R -> M Tensor3) (args : Args)
    (cond_scale rescaled_phi : R) : M Tensor3 :=
  logits <- forward args (Some 0) ;;
  if Req_EM_T cond_scale 1 then ret logits
  else
    null_logits <- forward args (Some 1) ;;
    let scaled_logits := tadd null_logits (t3map (fun v => v * cond_scale) (tsub logits null_logits)) in
    if Req_EM_T rescaled_phi 0 then ret scaled_logits
    else
      let ratio := map2 Rdiv (map std logits) (map std scaled_logits) in
      let rescaled_logits := bmul ratio scaled_logits in
      ret (tadd (t3map (fun v => v * rescaled_phi) rescaled_logits)
                (t3map (fun v => v * (1 - rescaled_phi)) scaled_logits)).

Definition Unet_forward_with_cond_scale (net : Unet) (x : Tensor3) (time : list Z)
    (cond : Tensor2) (cond_scale rescaled_phi : R) : M Tensor3 :=
  forward_with_cond_scale
    (fun (args : Tensor3 * list Z * Tensor2) p =>
       let '(x, time, cond) := args in Unet_forward net x time cond p)
    (x, time, cond) cond_scale rescaled_phi.

Definition FullyConditionedUnet_forward_with_cond_scale (net : FullyConditionedUnet)
    (x : Tensor3) (time : list Z) (cond inits : Tensor2)
    (cond_scale rescaled_phi : R) : M Tensor3 :=
  forward_with_cond_scale
    (fun (args : Tensor3 * list Z * Tensor2 * Tensor2) p =>
       let '(x, time, cond, inits) := args in
       FullyConditionedUnet_forward net x time cond inits p)
    (x, time, cond, inits) cond_scale rescaled_phi.

(** ** Parameterisation converter *)

Definition predict_start_from_noise (e : Engine) (x_t : Tensor3) (t : list Z)
    (noise : Tensor3) : result Tensor3 :=
  rbind (extract (sqrt_recip_alphas_cumprod e) t) (fun a =>
  rbind (extract (sqrt_recipm1_alphas_cumprod e) t) (fun b =>
  Ok (tsub (bmul a x_t) (bmul b noise)))).

Definition predict_noise_from_start (e : Engine) (x_t : Tensor3) (t : list Z)
    (x0 : Tensor3) : result Tensor3 :=
  rbind (extract (sqrt_recip_alphas_cumprod e) t) (fun a =>
  rbind (extract (sqrt_recipm1_alphas_cumprod e) t) (fun b =>
  Ok (bdiv (tsub (bmul a x_t) x0) b))).

Definition predict_v (e : Engine) (x_start : Tensor3) (t : list Z)
    (noise : Tensor3) : result Tensor3 :=
  rbind (extract (sqrt_alphas_cumprod e) t) (fun a =>
  rbind (extract (sqrt_one_minus_alphas_cumprod e) t) (fun b =>
  Ok (tsub (bmul a noise) (bmul b x_start)))).

Definition predict_start_from_v (e : Engine) (x_t : Tensor3) (t : list Z)
    (v : Tensor3) : result Tensor3 :=
  rbind (extract (sqrt_alphas_cumprod e) t) (fun a =>
  rbind (extract (sqrt_one_minus_alphas_cumprod e) t) (fun b =>
  Ok (tsub (bmul a x_t) (bmul b v)))).

Definition q_posterior (e : Engine) (x_start x_t : Tensor3) (t : list Z)
    : result (Tensor3 * list R * list R) :=
  rbind (extract (posterior_mean_coef1 e) t) (fun c1 =>
  rbind (extract (posterior_mean_coef2 e) t) (fun c2 =>
  let posterior_mean := tadd (bmul c1 x_start) (bmul c2 x_t) in
  rbind (extract (posterior_variance e) t) (fun posterior_variance =>
  rbind (extract (posterior_log_variance_clipped e) t) (fun posterior_log_variance_clipped =>
  Ok (posterior_mean, posterior_variance, posterior_log_variance_clipped))))).

Definition maybe_clip (e : Engine) (clip_x_start : bool) (x : Tensor3) : Tensor3 :=
  if clip_x_start then clamp (clip_min e) (clip_max e) x else x.

(** The objective dispatch of [model_predictions], after the network calls:
    the pair [(pred_noise, x_start)] from the guided network output. *)
Definition predictions_from_output (e : Engine) (x : Tensor3) (t : list Z)
    (model_output : Tensor3) (clip_x_start rederive_pred_noise : bool)
    : result (Tensor3 * Tensor3) :=
  if String.eqb (objective e) "pred_noise" then
    let pred_noise := model_output in
    rbind (predict_start_from_noise e x t pred_noise) (fun x_start =>
    let x_start := maybe_clip e clip_x_start x_start in
    if (clip_x_start && rederive_pred_noise)%bool then
      rbind (predict_noise_from_start e x t x_start) (fun pred_noise =>
      Ok (pred_noise, x_start))
    else Ok (pred_noise, x_start))
  else if String.eqb (objective e) "pred_x0" then
    let x_start := maybe_clip e clip_x_start model_output in
    rbind (predict_noise_from_start e x t x_start) (fun pred_noise =>
    Ok (pred_noise, x_start))
  else if String.eqb (objective e) "pred_v" then
    rbind (predict_start_from_v e x t model_output) (fun x_start =>
    let x_start := maybe_clip e clip_x_start x_start in
    rbind (predict_noise_from_start e x t x_start) (fun pred_noise =>
    Ok (pred_noise, x_start)))
  else Raise UnboundLocalError.

(** [model_predictions]: the network calls, the guidance blend, then the
    objective dispatch. *)
Definition model_predictions (e : Engine) (x : Tensor3) (t : list Z)
    (cond inits : Tensor2) (cond_scale rescaled_phi : R)
    (clip_x_start rederive_pred_noise : bool) : M (Tensor3 * Tensor3) :=
  model_output <- FullyConditionedUnet_forward_with_cond_scale (model e) x t cond inits
                    cond_scale rescaled_phi ;;
  model_output <-
    (if classifier_free_guidance e then
       model_output_unguided <-
         FullyConditionedUnet_forward_with_cond_scale (model e) x t
           (zeros_like cond) (zeros_like inits) cond_scale rescaled_phi ;;
       ret (tadd model_output_unguided
                 (tscale (guidance_scale e) (tsub model_output model_output_unguided)))
     else ret model_output) ;;
  lift (predictions_from_output e x t model_output clip_x_start rederive_pred_noise).

Definition p_mean_variance (e : Engine) (x : Tensor3) (t : list Z)
    (cond inits : Tensor2) (cond_scale rescaled_phi : R) (clip_denoised : bool)
    : M (Tensor3 * list R * list R * Tensor3) :=
  preds <- model_predictions e x t cond inits cond_scale rescaled_phi false false ;;
  let x_start := snd preds in
  let x_start := if clip_denoised then clamp (clip_min e) (clip_max e) x_start else x_start in
  '(model_mean, posterior_variance, posterior_log_variance) <-
     lift (q_posterior e x_start x t) ;;
  ret (model_mean, posterior_variance, posterior_log_variance, x_start).

(** ** Reverse sampling *)

(** One ancestral step; [t] is a Python integer. *)
Definition p_sample (e : Engine) (x : Tensor3) (t : Z) (cond inits : Tensor2)
    (cond_scale rescaled_phi : R) (clip_denoised : bool) : M (Tensor3 * Tensor3) :=
  let batched_times := repeat t (length x) in
  '(model_mean, _, model_log_variance, x_start) <-
     p_mean_variance e x batched_times cond inits cond_scale rescaled_phi clip_denoised ;;
  let std_dev := map (fun lv => exp (0.5 * lv)) model_log_variance in
  if (0 <? t)%Z then
    noise <- randn_like x ;;
    ret (tadd model_mean (bmul std_dev noise), x_start)
  else
    (* noise = 0. : the product is a (batch, 1, 1) tensor *)
    ret (badd model_mean (map (fun s => s * 0) std_dev), x_start).

(** [reversed(range(0, n))] *)
Definition reversed_range (n : Z) : list Z :=
  map Z.of_nat (rev (seq 0 (Z.to_nat n))).

Definition unnormalize (e : Engine) (img : Tensor3) : Tensor3 :=
  if auto_normalize e then unnormalize_to_zero_to_one img else img.

Definition normalize (e : Engine) (img : Tensor3) : Tensor3 :=
  if auto_normalize e then normalize_to_neg_one_to_one img else img.

(** The body of the ancestral loop: [img, x_start = self.p_sample(...)]. *)
Definition p_sample_step (e : Engine) (cond inits : Tensor2) (cond_scale rescaled_phi : R)
    (img : Tensor3) (t : Z) : M Tensor3 :=
  r <- p_sample e img t cond inits cond_scale rescaled_phi true ;;
  ret (fst r).

Definition p_sample_loop (e : Engine) (shape : nat * nat * nat) (cond inits : Tensor2)
    (cond_scale rescaled_phi : R) : M Tensor3 :=
  img <- randn shape ;;
  img <- foldM (p_sample_step e cond inits cond_scale rescaled_phi)
           (reversed_range (num_timesteps e)) img ;;
  ret (unnormalize e img).

(** [.int()] on one entry: truncation towards zero. *)
Definition trunc (r : R) : Z :=
  if Rle_dec 0 r then Int_part r else (- Int_part (- r))%Z.

(** The first three lines of [ddim_sample]: the evenly spaced times, cut to
    integers, reversed, and paired with their successors. *)
Definition ddim_time_pairs (total_timesteps sampling_timesteps : Z) : result (list (Z * Z)) :=
  rbind (linspace (-1) (IZR (total_timesteps - 1)) (sampling_timesteps + 1)) (fun times =>
  let times := rev (map trunc times) in
  Ok (combine (removelast times) (tl times))).

(** The body of the DDIM loop. *)
Definition ddim_step (e : Engine) (batch : nat) (cond inits : Tensor2)
    (cond_scale rescaled_phi : R) (clip_denoised : bool)
    (img : Tensor3) (pair : Z * Z) : M Tensor3 :=
  let '(time, time_next) := pair in
  let time_cond := repeat time batch in
  '(pred_noise, x_start) <-
     model_predictions e img time_cond cond inits cond_scale rescaled_phi clip_denoised false ;;
  if (time_next <? 0)%Z then ret x_start
  else
    alpha <- lift (index (alphas_cumprod e) time) ;;
    alpha_next <- lift (index (alphas_cumprod e) time_next) ;;
    let sigma := ddim_sampling_eta e *
                 sqrt ((1 - alpha / alpha_next) * (1 - alpha_next) / (1 - alpha)) in
    let c := sqrt (1 - alpha_next - sigma ^ 2) in
    noise <- randn_like img ;;
    ret (tadd (tadd (tscale (sqrt alpha_next) x_start) (tscale c pred_noise))
              (tscale sigma noise)).

(** [GaussianDiffusionConditional.ddim_sample] *)
Definition ddim_sample (e : Engine) (shape : nat * nat * nat) (cond inits : Tensor2)
    (cond_scale rescaled_phi : R) (clip_denoised : bool) : M Tensor3 :=
  let batch := fst (fst shape) in
  time_pairs <- lift (ddim_time_pairs (num_timesteps e) (sampling_timesteps e)) ;;
  img <- randn shape ;;
  img <- foldM (ddim_step e batch cond inits cond_scale rescaled_phi clip_denoised)
           time_pairs img ;;
  ret (unnormalize e img).

Definition sample (e : Engine) (cond inits : Tensor2) (cond_scale rescaled_phi : R)
    : M Tensor3 :=
  let shape := (length cond, channels (model e), seq_length e) in
  if negb (is_ddim_sampling e) then p_sample_loop e shape cond inits cond_scale rescaled_phi
  else ddim_sample e shape cond inits cond_scale rescaled_phi true.

(** ** The trainer class: resume and diffuse *)

(** [GaussianDiffusionConditionalTrainer.ddim_sample] *)
Definition Trainer_ddim_sample (e : Engine) (shape : nat * nat * nat) (cond inits : Tensor2)
    (cond_scale rescaled_phi : R) (clip_denoised : bool)
    (starting_data : option Tensor3) (starting_timestep : option Z) : M Tensor3 :=
  let batch := fst (fst shape) in
  let total_timesteps := default starting_timestep (num_timesteps e) in
  let sampling_timesteps := default starting_timestep (sampling_timesteps e) in
  time_pairs <- lift (ddim_time_pairs total_timesteps sampling_timesteps) ;;
  img <- match starting_data with
         | None => randn shape
         | Some d => ret d
         end ;;
  img <- foldM (ddim_step e batch cond inits cond_scale rescaled_phi clip_denoised)
           time_pairs img ;;
  ret (unnormalize e img).

(** [GaussianDiffusionConditionalTrainer.inference]; the branch under
    [no_grad] runs the same statements. *)
Definition inference (e : Engine) (cond inits : Tensor2) (starting_timestep : Z)
    (starting_data : Tensor3) (cond_scale rescaled_phi : R) : M Tensor3 :=
  let batch := length cond in
  if (starting_timestep <? Z.of_nat (length (betas e)))%Z then
    Trainer_ddim_sample e (batch, channels (model e), seq_length e) cond inits
      cond_scale rescaled_phi true (Some starting_data) (Some starting_timestep)
  else
    img <- foldM (p_sample_step e cond inits cond_scale rescaled_phi)
             (reversed_range starting_timestep) starting_data ;;
    ret (unnormalize e img).

(** [GaussianDiffusionConditionalTrainer.diffuse]; the branch under
    [no_grad] runs the same statements. *)
Definition diffuse (e : Engine) (data : Tensor3) (target_timestep : Z) : M Tensor3 :=
  noise <- randn_like data ;;
  let alphas := map (fun b => 1 - b) (betas e) in
  alpha_t <- lift (index alphas (target_timestep - 1)) ;;
  ret (tadd (tscale (sqrt alpha_t) data) (tscale (sqrt (1 - alpha_t)) noise)).

(** ** Forward process and training loss *)

Definition q_sample (e : Engine) (x_start : Tensor3) (t : list Z)
    (noise : option Tensor3) : M Tensor3 :=
  noise <- match noise with
           | Some n => ret n
           | None => randn_like x_start
           end ;;
  a <- lift (extract (sqrt_alphas_cumprod e) t) ;;
  b <- lift (extract (sqrt_one_minus_alphas_cumprod e) t) ;;
  ret (tadd (bmul a x_start) (bmul b noise)).

(** [cond * cond_mask] with [cond_mask = torch.rand(cond.shape) > drop_prob] *)
Definition apply_mask (drop_prob : R) (cond u : Tensor2) : Tensor2 :=
  map2 (map2 (fun c ui => c * (if Rgtb ui drop_prob then 1 else 0))) cond u.

Definition p_losses (e : Engine) (x_start : Tensor3) (t : list Z) (cond inits : Tensor2)
    (noise : option Tensor3) : M R :=
  noise <- match noise with
           | Some n => ret n
           | None => randn_like x_start
           end ;;
  '(cond, inits) <-
    (if classifier_free_guidance e then
       u_cond <- rand_like cond ;;
       let cond := apply_mask (drop_prob e) cond u_cond in
       u_inits <- rand_like inits ;;
       let inits := apply_mask (drop_prob e) inits u_inits in
       ret (cond, inits)
     else ret (cond, inits)) ;;
  x <- q_sample e x_start t (Some noise) ;;
  model_out <- FullyConditionedUnet_forward (model e) x t cond inits None ;;
  target <-
    (if String.eqb (objective e) "pred_noise" then ret noise
     else if String.eqb (objective e) "pred_x0" then ret x_start
     else if String.eqb (objective e) "pred_v" then lift (predict_v e x_start t noise)
     else lift (Raise ValueError)) ;;
  let loss := t3map2 (fun a b => (a - b) ^ 2) model_out target in
  let loss := map (fun li => mean (concat li)) loss in
  w <- lift (extract (loss_weight e) t) ;;
  ret (mean (map2 Rmult loss w)).

(** ** The continuous cosine schedule *)

(** [cosine_t2alpha_cumprod(t)] on one entry of [t]. *)
Definition cosine_t2alpha_cumprod (t : R) : R :=
  (cos ((t + 0.008) / 1.008 * PI / 2)) ^ 2 / (cos ((0 + 0.008) / 1.008 * PI / 2)) ^ 2.

(** ** The timestep embeddings of the network (difs/models.py) *)

(** [math.log]: defined on positive numbers only. *)
Definition math_log (x : R) : result R :=
  if Rlt_dec 0 x then Ok (ln x) else Raise ValueError.

Record SinusoidalPosEmb : Type := {
  spe_dim : Z;
  spe_theta : R
}.

(** [SinusoidalPosEmb.forward] on a batch of timesteps: one row per
    timestep, the sines of the scaled timestep followed by the cosines. *)
Definition SinusoidalPosEmb_forward (self : SinusoidalPosEmb) (x : list Z)
    : result (list (list R)) :=
  let half_dim := (spe_dim self / 2)%Z in
  rbind (math_log (spe_theta self)) (fun log_theta =>
  if (half_dim - 1 =? 0)%Z then Raise ZeroDivisionError
  else
    let emb := log_theta / IZR (half_dim - 1) in
    (* torch.arange(half_dim) *)
    if (half_dim <? 0)%Z then Raise RuntimeError
    else
      let emb := map (fun k => exp (INR k * - emb)) (seq 0 (Z.to_nat half_dim)) in
      let emb := map (fun xi => map (fun f => IZR xi * f) emb) x in
      Ok (map (fun row => map sin row ++ map cos row) emb)).

Record RandomOrLearnedSinusoidalPosEmb : Type := {
  rl_weights : list R
}.

(** [torch.randn(n)] for a one-dimensional shape *)
Definition randn1 (n : Z) : M (list R) :=
  if (n <? 0)%Z then lift (Raise RuntimeError)
  else fun w => Ok (map (fun i => rng w (draws w) i 0%nat 0%nat) (seq 0 (Z.to_nat n)),
                    next_draw EvRandn w).

(** [RandomOrLearnedSinusoidalPosEmb.__init__]; [is_random] only decides
    whether the weights are trained. *)
Definition RandomOrLearnedSinusoidalPosEmb_init (dim : Z) (is_random : bool)
    : M RandomOrLearnedSinusoidalPosEmb :=
  if negb (dim mod 2 =? 0)%Z then lift (Raise AssertionError)
  else
    let half_dim := (dim / 2)%Z in
    weights <- randn1 half_dim ;;
    ret {| rl_weights := weights |}.

Definition RandomOrLearnedSinusoidalPosEmb_forward (self : RandomOrLearnedSinusoidalPosEmb)
    (x : list Z) : list (list R) :=
  map (fun xi =>
         let freqs := map (fun wk => IZR xi * wk * 2 * PI) (rl_weights self) in
         let fouriered := map sin freqs ++ map cos freqs in
         IZR xi :: fouriered) x.

(** ** The small helper modules of the network (difs/models.py) *)

Record RMSNorm : Type := {
  rms_g : list R
}.

(** [RMSNorm.__init__]: the gain is [torch.ones(1, dim, 1)]. *)
Definition RMSNorm_init (dim : Z) : result RMSNorm :=
  if (dim <? 0)%Z then Raise RuntimeError
  else Ok {| rms_g := repeat 1 (Z.to_nat dim) |}.

(** The channels of one batch element at position [l]. *)
Definition column (xi : list (list R)) (l : nat) : list R :=
  map (fun row => nth l row 0) xi.

Definition norm2 (v : list R) : R := sqrt (rsum (map (fun a => a ^ 2) v)).

(** [F.normalize(x, dim=1)] on one batch element: every entry is divided by
    the Euclidean norm of its column of channels, or by 1e-12 where the norm
    is smaller. *)
Definition F_normalize (xi : list (list R)) : list (list R) :=
  map (fun row => imap (fun l v => v / Rmax (norm2 (column xi l)) 1e-12) row) xi.

(** The product of a batch element with a gain of shape (1, dim, 1), with
    the broadcast of a single channel on either side. *)
Definition mul_channels (y : list (list R)) (g : list R) : result (list (list R)) :=
  if (length y =? length g)%nat
  then Ok (map2 (fun row gj => map (fun v => v * gj) row) y g)
  else match g, y with
       | [g0], _ => Ok (map (map (fun v => v * g0)) y)
       | _, [row] => Ok (map (fun gj => map (fun v => v * gj) row) g)
       | _, _ => Raise RuntimeError
       end.

(** [RMSNorm.forward]; the channel count of an empty batch is not
    represented, so an empty batch is returned as it is. *)
Definition RMSNorm_forward (self : RMSNorm) (x : Tensor3) : result Tensor3 :=
  mapR (fun xi =>
          rbind (mul_channels (F_normalize xi) (rms_g self)) (fun y =>
          Ok (map (map (fun v => v * sqrt (INR (length xi)))) y))) x.

(** [PreNorm.forward], for a wrapped module [fn]. *)
Definition PreNorm_forward (norm : RMSNorm) (fn : Tensor3 -> result Tensor3)
    (x : Tensor3) : result Tensor3 :=
  rbind (RMSNorm_forward norm x) (fun x => fn x).

(** [Residual.forward], for a wrapped module [fn]. *)
Definition Residual_forward (fn : Tensor3 -> result Tensor3) (x : Tensor3) : result Tensor3 :=
  rbind (fn x) (fun y => Ok (tadd y x)).

(** ** Interpolation *)

(** The ways a call of [interpolate] ends: with a value, with one of the
    engine's exceptions, or with the TypeError of a call that leaves a
    required parameter of the callee without an argument. *)
Inductive call_result (A : Type) : Type :=
| Returned (a : A)
| Raised (ex : exn)
| TypeError.

Arguments Returned {A} a.
Arguments Raised {A} ex.
Arguments TypeError {A}.

(** [x.shape], below the batch dimension as far as the lists show it. *)
Definition shape_of (x : Tensor3) : list (list nat) := map (map (@length R)) x.

Definition shape_eqb (x1 x2 : Tensor3) : bool :=
  if list_eq_dec (list_eq_dec Nat.eq_dec) (shape_of x1) (shape_of x2) then true else false.

(** [GaussianDiffusionConditional.interpolate].  The loop body calls
    [self.p_sample(img, i, self_cond)]: three arguments for the four
    required parameters x, t, cond, inits. *)
Definition interpolate (e : Engine) (x1 x2 : Tensor3) (t : option Z) (lam : R)
    : World -> call_result (Tensor3 * World) :=
  fun w =>
  let b := length x1 in
  let t := default t (num_timesteps e - 1)%Z in
  if negb (shape_eqb x1 x2) then Raised AssertionError
  else
    let t_batched := repeat t b in
    match (xt1 <- q_sample e x1 t_batched None ;;
           xt2 <- q_sample e x2 t_batched None ;;
           ret (xt1, xt2)) w with
    | Raise ex => Raised ex
    | Ok (xt, w') =>
        let img := tadd (tscale (1 - lam) (fst xt)) (tscale lam (snd xt)) in
        match reversed_range t with
        | [] => Returned (img, w')
        | i :: _ => TypeError
        end
    end.

(** * The vocabulary of the statements *)

(** ** Schedules and engines *)

Definition non_increasing (l : list R) : Prop :=
  forall i j, (i <= j < length l)%nat -> nth j l 0 <= nth i l 0.

Definition known_schedule (k : string) : bool :=
  (String.eqb k "linear" || String.eqb k "cosine")%bool.

Definition regular_schedule (kind : string) (T : Z) : Prop :=
  (0 < T)%Z /\ (kind = "cosine"%string \/ T = 1%Z \/ (21 <= T)%Z).

(** What a successful construction stores. *)
Record built (m : FullyConditionedUnet) (cfg : Config) (e : Engine) : Prop := {
  built_known : known_objective (objective e) = true;
  built_betas : build_betas (cfg_beta_schedule cfg) (cfg_timesteps cfg) = Ok (betas e);
  built_model : model e = m;
  built_objective : objective e = cfg_objective cfg;
  built_guidance : classifier_free_guidance e = cfg_classifier_free_guidance cfg;
  built_drop_prob : drop_prob e = cfg_drop_prob cfg;
  built_eta : ddim_sampling_eta e = cfg_ddim_sampling_eta cfg;
  built_normalize : auto_normalize e = cfg_auto_normalize cfg;
  built_num : num_timesteps e = Z.of_nat (length (betas e));
  built_sampling :
    sampling_timesteps e = default (cfg_sampling_timesteps cfg) (num_timesteps e);
  built_sampling_le : (sampling_timesteps e <= num_timesteps e)%Z;
  built_ddim : is_ddim_sampling e = (sampling_timesteps e <? num_timesteps e)%Z;
  built_acp : alphas_cumprod e = cumprod (map (fun b => 1 - b) (betas e));
  built_acp_prev : alphas_cumprod_prev e = 1 :: removelast (alphas_cumprod e);
  built_sqrt_acp : sqrt_alphas_cumprod e = map sqrt (alphas_cumprod e);
  built_sqrt_1m_acp :
    sqrt_one_minus_alphas_cumprod e = map (fun a => sqrt (1 - a)) (alphas_cumprod e);
  built_sqrt_recip :
    sqrt_recip_alphas_cumprod e = map (fun a => sqrt (1 / a)) (alphas_cumprod e);
  built_sqrt_recipm1 :
    sqrt_recipm1_alphas_cumprod e = map (fun a => sqrt (1 / a - 1)) (alphas_cumprod e);
  built_len_acp : length (alphas_cumprod e) = length (betas e);
  built_len_variance : length (posterior_variance e) = length (betas e);
  built_len_log_variance : length (posterior_log_variance_clipped e) = length (betas e);
  built_len_coef1 : length (posterior_mean_coef1 e) = length (betas e);
  built_len_coef2 : length (posterior_mean_coef2 e) = length (betas e);
  built_len_weight : length (loss_weight e) = length (betas e)
}.

(** A timestep batch within the schedule. *)
Definition in_range (e : Engine) (t : list Z) : Prop :=
  Forall (fun i => 0 <= i < num_timesteps e)%Z t.

Definition same_shape (x y : Tensor3) : Prop :=
  Forall2 (Forall2 (fun a b : list R => length a = length b)) x y.

(** ** Events of a run *)

Definition is_draw (ev : Event) : bool :=
  match ev with
  | EvRandn | EvRand => true
  | EvForward _ _ _ _ => false
  end.

Definition count_draws (evs : list Event) : nat := length (filter is_draw evs).

(** The world after the events [evs] were appended to its log. *)
Definition advance (w : World) (evs : list Event) : World :=
  {| rng := rng w; draws := draws w + count_draws evs; trace := trace w ++ evs |}.

Definition outcome {A} (r : result A) (evs : list Event) (w : World) : result (A * World) :=
  match r with
  | Ok a => Ok (a, advance w evs)
  | Raise ex => Raise ex
  end.

(** [c] reads nothing of the world: it fails, or returns one value and
    appends the events [evs], whatever the world. *)
Definition pure_with {A} (c : M A) (evs : list Event) : Prop :=
  exists r, forall w, c w = outcome r evs w.

(** [c] returns a value in every world. *)
Definition returns {A} (c : M A) : Prop :=
  forall w, exists a w', c w = Ok (a, w').

Definition fw_events (t : list Z) (cond inits : Tensor2) (cond_scale : R) : list Event :=
  EvForward t cond (Some inits) (Some 0) ::
  (if Req_EM_T cond_scale 1 then [] else [EvForward t cond (Some inits) (Some 1)]).

(** The events of one call of [model_predictions]. *)
Definition mp_events (e : Engine) (t : list Z) (cond inits : Tensor2) (cond_scale : R)
    : list Event :=
  fw_events t cond inits cond_scale ++
  (if classifier_free_guidance e
   then fw_events t (zeros_like cond) (zeros_like inits) cond_scale
   else []).

(** The events of one pass of the DDIM loop body. *)
Definition ddim_step_events (e : Engine) (batch : nat) (cond inits : Tensor2)
    (cond_scale : R) (pair : Z * Z) : list Event :=
  mp_events e (repeat (fst pair) batch) cond inits cond_scale ++
  (if (snd pair <? 0)%Z then [] else [EvRandn]).

Definition forward_times (evs : list Event) : list (list Z) :=
  flat_map (fun ev => match ev with
                      | EvForward t _ _ _ => [t]
                      | _ => []
                      end) evs.

(** ** Time pairs in closed form *)

(** The pairs of a resume at [K]: every timestep below [K], each with its
    predecessor. *)
Definition dense_pairs (K : Z) : list (Z * Z) :=
  map (fun t => (t, t - 1)%Z) (reversed_range K).

(** The evenly spaced, truncated times in closed form: the entry [i] of
    [linspace(-1, T - 1, S + 1).int()] is the quotient of [i * T - S] by
    [S], rounded towards zero. *)
Definition ddim_times (total_timesteps sampling_timesteps : Z) : list Z :=
  map (fun i => (Z.of_nat i * total_timesteps - sampling_timesteps) ÷ sampling_timesteps)%Z
      (seq 0 (Z.to_nat (sampling_timesteps + 1))).

(** ** A network, configurations and generators to run the engine on *)

Definition toy_net : FullyConditionedUnet := {|
  channels := 1;
  cond_dim := 1;
  cond_drop_prob := 0;
  null_classes_emb := [-1];
  fc_body := fun x _ _ _ => x
|}.

(** A configuration with the defaults of the constructor's signature. *)
Definition config_with (guidance : bool) (kind : string) (T : Z) (S : option Z)
    (obj : string) : Config := {|
  cfg_seq_length := 1;
  cfg_classifier_free_guidance := guidance;
  cfg_timesteps := T;
  cfg_sampling_timesteps := S;
  cfg_objective := obj;
  cfg_beta_schedule := kind;
  cfg_ddim_sampling_eta := 0;
  cfg_auto_normalize := false;
  cfg_clip_min := -5;
  cfg_clip_max := 5;
  cfg_drop_prob := 0.1;
  cfg_guidance_scale := 1
|}.

Definition config : string -> Z -> option Z -> string -> Config := config_with false.

Definition still_world : World := {| rng := fun _ _ _ _ => 0; draws := 0; trace := [] |}.

(** A generator that differs from [still_world] in every draw but the
    first. *)
Definition noisy_world : World := {| rng := fun k _ _ _ => INR k; draws := 0; trace := [] |}.

(** A generator whose first draw holds 0.05 in column 0 and 0.5 elsewhere,
    and whose later draws hold 0.5 everywhere. *)
Definition mask_world : World := {|
  rng := fun k _ j _ => match k, j with
                        | O, O => 0.05
                        | _, _ => 0.5
                        end;
  draws := 0;
  trace := []
|}.

(** ** Further vocabulary *)

(** A valid position of a buffer. *)
Definition in_bounds (a : list R) (i : Z) : bool :=
  ((0 <=? i) && (i <? Z.of_nat (length a)))%Z.


(** What a successful construction stores for the posterior, the loss and
    the clipping range. *)
Record built_posterior (cfg : Config) (e : Engine) : Prop := {
  built_seq_length : seq_length e = cfg_seq_length cfg;
  built_guidance_scale : guidance_scale e = cfg_guidance_scale cfg;
  built_clip_min : clip_min e = cfg_clip_min cfg;
  built_clip_max : clip_max e = cfg_clip_max cfg;
  built_variance :
    posterior_variance e =
    map2 Rdiv (map2 Rmult (betas e) (map (fun a => 1 - a) (alphas_cumprod_prev e)))
              (map (fun a => 1 - a) (alphas_cumprod e));
  built_log_variance :
    posterior_log_variance_clipped e =
    map (fun v => ln (Rmax v 1e-20)) (posterior_variance e);
  built_coef1 :
    posterior_mean_coef1 e =
    map2 Rdiv (map2 Rmult (betas e) (map sqrt (alphas_cumprod_prev e)))
              (map (fun a => 1 - a) (alphas_cumprod e));
  built_coef2 :
    posterior_mean_coef2 e =
    map2 Rdiv (map2 Rmult (map (fun a => 1 - a) (alphas_cumprod_prev e))
                          (map sqrt (map (fun b => 1 - b) (betas e))))
              (map (fun a => 1 - a) (alphas_cumprod e));
  built_weight :
    loss_weight e =
    let snr := map2 Rdiv (alphas_cumprod e) (map (fun a => 1 - a) (alphas_cumprod e)) in
    if String.eqb (objective e) "pred_noise" then map (fun _ => 1) snr
    else if String.eqb (objective e) "pred_x0" then snr
    else map (fun s => s / (s + 1)) snr
}.

Ltac regular_cosine := split; [simpl; lia | left; reflexivity].

(** Induction over two rows, two batch elements and two batches of one
    shape; [tac] closes the identity on one entry. *)
Ltac by_rows tac :=
  let rx := fresh "rx" in let re := fresh "re" in let IH := fresh "IH" in
  let x := fresh "x" in let u := fresh "u" in let Hlen := fresh "Hlen" in
  intros rx; induction rx as [|x rx IH]; intros [|u re]; cbn [map map2 length];
  try discriminate; [reflexivity|];
  intros [= Hlen]; rewrite IH by assumption; f_equal; tac.

Ltac by_elements row :=
  let IH := fresh "IH" in
  induction 1 as [|? ? ? ? ? _ IH]; cbn [map map2]; [reflexivity|];
  rewrite IH; f_equal; apply row; assumption.

(** Every entry of a sample lies in [lo, hi]. *)
Definition within (lo hi : R) (x : Tensor3) : Prop :=
  Forall (Forall (Forall (fun v => lo <= v <= hi))) x.

(** Every value [c] returns satisfies [Q]. *)
Definition ensures {A} (c : M A) (Q : A -> Prop) : Prop :=
  forall w a w', c w = Ok (a, w') -> Q a.

(** A network whose output has as many batch elements as its input. *)
Definition batch_preserving (net : FullyConditionedUnet) : Prop :=
  forall x t c i, length (fc_body net x t c i) = length x.

(** A network whose output has the shape of its input sample. *)
Definition shape_preserving (net : FullyConditionedUnet) : Prop :=
  forall x t c i, same_shape x (fc_body net x t c i).

(** The events of one pass of the ancestral loop body at timestep [t]. *)
Definition p_sample_events (e : Engine) (batch : nat) (cond inits : Tensor2)
    (cond_scale : R) (t : Z) : list Event :=
  mp_events e (repeat t batch) cond inits cond_scale ++
  (if (0 <? t)%Z then [EvRandn] else []).

(** A batch element with [c] channels of [n] positions each. *)
Definition rectangular (c n : nat) (xi : list (list R)) : Prop :=
  length xi = c /\ Forall (fun row => length row = n) xi.

(** * Properties *)

(** ** Lists and buffers *)

Lemma Ok_inj {A} (a b : A) : Ok a = Ok b -> a = b.
Proof. intros H; injection H; auto. Qed.

Lemma length_cons {A} (a : A) l : length (a :: l) = S (length l).
Proof. reflexivity. Qed.

Lemma map2_length {A B C} (f : A -> B -> C) l1 l2 :
  length (map2 f l1 l2) = Nat.min (length l1) (length l2).
Proof.
  revert l2; induction l1 as [|a l1 IH]; intros [|b l2]; simpl; auto.
Qed.

Lemma removelast_length {A} (l : list A) : length (removelast l) = pred (length l).
Proof.
  rewrite removelast_firstn_len, length_firstn. lia.
Qed.

Lemma removelast_rev {A} (l : list A) : removelast (rev l) = rev (tl l).
Proof.
  destruct l as [|a l]; [reflexivity|]. cbn [rev tl]. apply removelast_last.
Qed.

Lemma rev_map_seq_S {A} (g : nat -> A) n :
  rev (map g (seq 0 (S n))) = g n :: rev (map g (seq 0 n)).
Proof.
  rewrite seq_S, map_app, rev_app_distr. reflexivity.
Qed.

Lemma nth_map_in (f : R -> R) l i :
  (i < length l)%nat -> nth i (map f l) 0 = f (nth i l 0).
Proof.
  intros H. rewrite (nth_indep _ 0 (f 0)) by (now rewrite length_map). apply map_nth.
Qed.

Lemma map_imap_from {A B C} (f : B -> C) (g : nat -> A -> B) (h : A -> C) i l :
  (forall j a, f (g j a) = h a) -> map f (imap_from g i l) = map h l.
Proof.
  intros H; revert i; induction l as [|a l IH]; intros i; cbn; [reflexivity|].
  now rewrite H, IH.
Qed.

Lemma Forall_alphas (P Q : R -> Prop) l :
  (forall b, P b -> Q (1 - b)) -> Forall P l -> Forall Q (map (fun b => 1 - b) l).
Proof.
  intros H Hl; induction Hl; simpl; constructor; auto.
Qed.

Lemma cumprod_from_length acc l : length (cumprod_from acc l) = length l.
Proof.
  revert acc; induction l as [|a l IH]; intros acc; simpl; auto.
Qed.

Lemma cumprod_length l : length (cumprod l) = length l.
Proof. apply cumprod_from_length. Qed.

Lemma cumprod_from_bounds acc l :
  0 < acc ->
  Forall (fun a => 0 < a <= 1) l ->
  forall i j, (i <= j < length l)%nat ->
    0 < nth j (cumprod_from acc l) 0 <= nth i (cumprod_from acc l) 0 /\
    nth i (cumprod_from acc l) 0 <= acc.
Proof.
  intros Hacc Hl; revert acc Hacc.
  induction Hl as [|a l Ha Hl IH]; intros acc Hacc i j Hij; simpl in *; [lia|].
  assert (Hacc' : 0 < acc * a) by nra.
  assert (Hle : acc * a <= acc) by nra.
  destruct i as [|i], j as [|j]; try lia.
  - lra.
  - destruct (IH (acc * a) Hacc' j j) as [[H1 _] H2]; [lia|]. lra.
  - destruct (IH (acc * a) Hacc' i j) as [H1 H2]; [lia|]. lra.
Qed.

Lemma cumprod_invariant l :
  Forall (fun a => 0 < a <= 1) l ->
  non_increasing (cumprod l) /\ Forall (fun a => 0 < a <= 1) (cumprod l).
Proof.
  intros Hl; split.
  - intros i j Hij. rewrite cumprod_length in Hij.
    apply (cumprod_from_bounds 1 l ltac:(lra) Hl i j Hij).
  - apply Forall_forall; intros a Ha.
    destruct (In_nth _ _ 0 Ha) as (i & Hi & <-).
    rewrite cumprod_length in Hi.
    destruct (cumprod_from_bounds 1 l ltac:(lra) Hl i i ltac:(lia)) as [[H1 _] H2].
    unfold cumprod; lra.
Qed.

Lemma cumprod_strict a0 l :
  0 < a0 < 1 ->
  Forall (fun a => 0 < a <= 1) l ->
  Forall (fun a => 0 < a < 1) (cumprod (a0 :: l)).
Proof.
  intros Ha0 Hl. unfold cumprod. cbn [cumprod_from].
  constructor; [lra|].
  apply Forall_forall; intros a Ha.
  destruct (In_nth _ _ 0 Ha) as (i & Hi & <-).
  rewrite cumprod_from_length in Hi.
  destruct (cumprod_from_bounds (1 * a0) l ltac:(lra) Hl i i ltac:(lia)) as [[H1 _] H2].
  lra.
Qed.

Lemma nth_cumprod_from_S acc l i :
  (S i < length l)%nat ->
  nth (S i) (cumprod_from acc l) 0 = nth i (cumprod_from acc l) 0 * nth (S i) l 0.
Proof.
  revert acc i; induction l as [|a l IH]; intros acc i Hi; cbn [length] in Hi; [lia|].
  destruct i as [|i].
  - destruct l as [|a' l]; [cbn [length] in Hi; lia|]. reflexivity.
  - cbn [cumprod_from nth]. apply IH. lia.
Qed.

(** ** The schedule builders *)

Lemma linspace_ok start stop steps :
  (0 <= steps)%Z ->
  exists l, linspace start stop steps = Ok l /\ length l = Z.to_nat steps.
Proof.
  intros H; unfold linspace.
  destruct (Z.ltb_spec steps 0); [lia|].
  destruct (Z.eqb_spec steps 1) as [->|].
  - eexists; split; reflexivity.
  - eexists; split; [reflexivity|]. now rewrite length_map, length_seq.
Qed.

Lemma linspace_fails start stop steps :
  (steps < 0)%Z -> linspace start stop steps = Raise RuntimeError.
Proof.
  intros H; unfold linspace. destruct (Z.ltb_spec steps 0); [reflexivity|lia].
Qed.

Lemma clip_bounds lo hi x : lo <= hi -> lo <= clip lo hi x <= hi.
Proof.
  intros H; unfold clip, Rmin, Rmax.
  destruct (Rle_dec x lo); destruct (Rle_dec _ hi); lra.
Qed.

Lemma linear_beta_schedule_ok T :
  (0 < T)%Z ->
  exists l, linear_beta_schedule T = Ok l /\ length l = Z.to_nat T.
Proof.
  intros H; unfold linear_beta_schedule.
  destruct (Z.eqb_spec T 0); [lia|]. apply linspace_ok; lia.
Qed.

Lemma linear_beta_schedule_fails T :
  (T <= 0)%Z -> failed (linear_beta_schedule T).
Proof.
  intros H; unfold linear_beta_schedule.
  destruct (Z.eqb_spec T 0); [exact I|].
  rewrite linspace_fails by lia. exact I.
Qed.

Lemma linear_beta_schedule_one : linear_beta_schedule 1 = Ok [1000 / 1 * 0.0001].
Proof. reflexivity. Qed.

Lemma linear_beta_schedule_two :
  linear_beta_schedule 2 = Ok [1000 / 2 * 0.0001 + INR 0 * ((1000 / 2 * 0.02 - 1000 / 2 * 0.0001) / 1);
                               1000 / 2 * 0.0001 + INR 1 * ((1000 / 2 * 0.02 - 1000 / 2 * 0.0001) / 1)].
Proof. reflexivity. Qed.

Lemma linear_beta_schedule_bounds T l :
  (21 <= T)%Z ->
  linear_beta_schedule T = Ok l ->
  Forall (fun b => 0 < b < 1) l.
Proof.
  intros HT. unfold linear_beta_schedule, linspace.
  destruct (Z.eqb_spec T 0); [lia|].
  destruct (Z.ltb_spec T 0); [lia|].
  destruct (Z.eqb_spec T 1); [lia|].
  intros [= <-]. apply Forall_forall; intros b Hb.
  apply in_map_iff in Hb as (i & <- & Hi). apply in_seq in Hi.
  assert (HTr : 21 <= IZR T) by (apply IZR_le in HT; exact HT).
  assert (Hi1 : 0 <= INR i) by apply pos_INR.
  assert (Hi2 : INR i <= IZR T - 1).
  { rewrite INR_IZR_INZ. replace (IZR T - 1) with (IZR (T - 1)) by (rewrite minus_IZR; ring).
    apply IZR_le. lia. }
  rewrite minus_IZR.
  set (Tr := IZR T) in *.
  assert (Hu : 0 < / Tr) by (apply Rinv_0_lt_compat; lra).
  assert (Hu1 : Tr * / Tr = 1) by (apply Rinv_r; lra).
  assert (Hv : 0 < / (Tr - 1)) by (apply Rinv_0_lt_compat; lra).
  assert (Hv1 : (Tr - 1) * / (Tr - 1) = 1) by (apply Rinv_r; lra).
  unfold Rdiv.
  set (u := / Tr) in *. set (v := / (Tr - 1)) in *.
  assert (Hq0 : 0 <= INR i * v) by (apply Rmult_le_pos; lra).
  assert (Hq1 : INR i * v <= 1) by nra.
  replace (1000 * u * 0.0001 + INR i * ((1000 * u * 0.02 - 1000 * u * 0.0001) * v))
    with (0.1 * u + 19.9 * ((INR i * v) * u)) by lra.
  set (q := INR i * v) in *.
  assert (Hqu0 : 0 <= q * u) by (apply Rmult_le_pos; lra).
  assert (Hqu1 : q * u <= u) by nra.
  assert (Hu21 : 21 * u <= 1) by nra.
  lra.
Qed.

Lemma cosine_beta_schedule_ok T :
  (0 <= T)%Z ->
  exists l, cosine_beta_schedule T = Ok l /\ length l = Z.to_nat T /\
            Forall (fun b => 0 <= b <= 0.999) l.
Proof.
  intros H; unfold cosine_beta_schedule.
  destruct (linspace_ok 0 (IZR T) (T + 1) ltac:(lia)) as (x & -> & Hx).
  simpl rbind.
  destruct x as [|x0 x]; [simpl in Hx; lia|].
  simpl map at 1.
  eexists; split; [reflexivity|]. split.
  - rewrite !length_map, map2_length, removelast_length. simpl.
    rewrite !length_map. simpl in Hx. lia.
  - apply Forall_forall; intros b Hb. apply in_map_iff in Hb as (q & <- & _).
    apply clip_bounds; lra.
Qed.

Lemma cosine_beta_schedule_fails T :
  (T < 0)%Z -> failed (cosine_beta_schedule T).
Proof.
  intros H; unfold cosine_beta_schedule, linspace.
  destruct (Z.ltb_spec (T + 1) 0); [exact I|].
  assert (T = -1)%Z as -> by lia. simpl. exact I.
Qed.

Lemma cos_sq_decreasing x y :
  0 <= x -> x < y -> y <= PI / 2 -> 0 <= (cos y) ^ 2 < (cos x) ^ 2.
Proof.
  intros Hx Hxy Hy.
  pose proof PI_RGT_0 as Hpi.
  assert (H1 : 0 <= cos y) by (apply cos_ge_0; lra).
  assert (H2 : cos y < cos x) by (apply cos_decreasing_1; lra).
  nra.
Qed.

Lemma cosine_first_beta T l :
  (0 < T)%Z -> cosine_beta_schedule T = Ok l ->
  exists b0 l', l = b0 :: l' /\ 0 < b0.
Proof.
  intros HT. unfold cosine_beta_schedule, linspace.
  destruct (Z.ltb_spec (T + 1) 0); [lia|].
  destruct (Z.eqb_spec (T + 1) 1); [lia|].
  destruct (Z.to_nat (T + 1)) as [|[|k]] eqn:En; [lia|lia|].
  cbn [rbind seq map].
  replace (T + 1 - 1)%Z with T by lia.
  cbn [tl removelast map map2].
  intros Heq; apply Ok_inj in Heq; subst l.
  eexists; eexists; split; [reflexivity|].
  change (INR 0) with 0. change (INR 1) with 1.
  set (c0 := cos (((0 + 0 * ((IZR T - 0) / IZR T)) / IZR T + 0.008) / (1 + 0.008) * PI * 0.5) ^ 2).
  set (c1 := cos (((0 + 1 * ((IZR T - 0) / IZR T)) / IZR T + 0.008) / (1 + 0.008) * PI * 0.5) ^ 2).
  assert (HTr : 1 <= IZR T) by (apply (IZR_le 1); lia).
  assert (Hc : 0 <= c1 < c0).
  { subst c0 c1. pose proof PI_RGT_0 as Hpi.
    assert (Hu : 0 < / IZR T <= 1).
    { split; [apply Rinv_0_lt_compat; lra|].
      rewrite <- Rinv_1. apply Rinv_le_contravar; lra. }
    assert (HTT : IZR T * / IZR T = 1) by (apply Rinv_r; lra).
    apply cos_sq_decreasing; unfold Rdiv in *.
    - nra.
    - rewrite !Rmult_0_l, !Rplus_0_l, Rminus_0_r, Rmult_1_l, HTT.
      assert (0 < / (1 + 0.008)) by (apply Rinv_0_lt_compat; lra). nra.
    - rewrite !Rplus_0_l, Rminus_0_r, Rmult_1_l, HTT.
      assert (Hw : (1 + 0.008) * / (1 + 0.008) = 1) by (apply Rinv_r; lra).
      assert (0 < / (1 + 0.008)) by (apply Rinv_0_lt_compat; lra).
      assert ((1 * / IZR T + 0.008) * / (1 + 0.008) <= 1) by nra.
      nra. }
  assert (Hq : 0 <= c1 / c0 / (c0 / c0) < 1).
  { replace (c1 / c0 / (c0 / c0)) with (c1 / c0) by (field; lra).
    split; [apply Rmult_le_pos; [lra|left; apply Rinv_0_lt_compat; lra]|].
    apply (Rmult_lt_reg_r c0); [lra|]. unfold Rdiv.
    rewrite Rmult_assoc, Rinv_l by lra. lra. }
  assert (Hpos : 0 < 1 - c1 / c0 / (c0 / c0)) by lra.
  revert Hpos. generalize (1 - c1 / c0 / (c0 / c0)). intros x Hx.
  unfold clip. apply Rmin_glb_lt; [|lra].
  eapply Rlt_le_trans; [exact Hx|apply Rmax_l].
Qed.

Lemma build_betas_ok kind T :
  known_schedule kind = true ->
  (0 < T \/ (T = 0 /\ kind <> "linear"%string))%Z ->
  exists l, build_betas kind T = Ok l /\ length l = Z.to_nat T.
Proof.
  unfold known_schedule, build_betas; intros Hk HT.
  destruct (String.eqb_spec kind "linear") as [->|Hlin].
  - apply linear_beta_schedule_ok. destruct HT as [?|[_ ?]]; [lia|congruence].
  - simpl in Hk. rewrite Hk.
    destruct (cosine_beta_schedule_ok T ltac:(lia)) as (l & ? & ? & _); eauto.
Qed.

Lemma build_betas_fails kind T :
  known_schedule kind = false \/ (T < 0)%Z \/ (T = 0%Z /\ kind = "linear"%string) ->
  failed (build_betas kind T).
Proof.
  unfold known_schedule, build_betas; intros H.
  destruct (String.eqb_spec kind "linear") as [->|Hlin].
  - apply linear_beta_schedule_fails. destruct H as [H|[H|[H _]]]; [discriminate|lia|lia].
  - destruct (String.eqb_spec kind "cosine") as [->|Hcos]; [|exact I].
    apply cosine_beta_schedule_fails. destruct H as [H|[H|[_ H]]]; [discriminate|lia|congruence].
Qed.

Lemma regular_betas kind T l :
  regular_schedule kind T ->
  build_betas kind T = Ok l ->
  length l = Z.to_nat T /\ Forall (fun b => 0 <= b < 1) l.
Proof.
  intros [HT Hreg]. unfold build_betas.
  destruct (String.eqb_spec kind "linear") as [->|Hlin].
  - intros Hl. split.
    + destruct (linear_beta_schedule_ok T HT) as (l' & Hl' & Hlen). congruence.
    + destruct Hreg as [?|[->|H21]]; [discriminate| |].
      * rewrite linear_beta_schedule_one in Hl. injection Hl as <-.
        repeat constructor; lra.
      * eapply Forall_impl; [|eapply linear_beta_schedule_bounds; eauto].
        simpl; intros; lra.
  - destruct (String.eqb_spec kind "cosine") as [->|Hcos]; [|discriminate].
    intros Hl. destruct (cosine_beta_schedule_ok T ltac:(lia)) as (l' & Hl' & Hlen & Hb).
    assert (l' = l) as -> by congruence. split; [assumption|].
    eapply Forall_impl; [|exact Hb]. simpl; intros; lra.
Qed.

Lemma regular_first_beta kind T l :
  regular_schedule kind T ->
  build_betas kind T = Ok l ->
  exists b0 l', l = b0 :: l' /\ 0 < b0 < 1 /\ Forall (fun b => 0 <= b < 1) l'.
Proof.
  intros Hreg Hl. destruct (regular_betas _ _ _ Hreg Hl) as [Hlen Hbs].
  destruct Hreg as [HT Hreg].
  destruct l as [|b0 l']; [simpl in Hlen; lia|].
  exists b0, l'. inversion Hbs as [|? ? Hb0 Hl']; subst.
  split; [reflexivity|]. split; [|assumption]. split; [|lra].
  unfold build_betas in Hl.
  destruct (String.eqb_spec kind "linear") as [->|Hlin].
  - destruct Hreg as [?|[->|H21]]; [discriminate| |].
    + rewrite linear_beta_schedule_one in Hl. apply Ok_inj in Hl.
      injection Hl as <- _. lra.
    + pose proof (linear_beta_schedule_bounds _ _ H21 Hl) as Hb.
      inversion Hb; subst; lra.
  - destruct (String.eqb_spec kind "cosine") as [->|Hcos]; [|discriminate].
    destruct (cosine_first_beta _ _ HT Hl) as (b & l'' & [= <- <-] & Hpos). exact Hpos.
Qed.

(** ** The constructor *)

Lemma init_inv m cfg e :
  GaussianDiffusionConditional_init m cfg = Ok e -> built m cfg e.
Proof.
  unfold GaussianDiffusionConditional_init.
  destruct (known_objective (cfg_objective cfg)) eqn:Hobj; cbn [negb]; [|discriminate].
  destruct (build_betas _ _) as [bs|] eqn:Hb; cbn [rbind]; [|discriminate].
  destruct (Z.ltb_spec (Z.of_nat (length bs))
              (default (cfg_sampling_timesteps cfg) (Z.of_nat (length bs)))); [discriminate|].
  intros Heq; apply Ok_inj in Heq; subst e.
  constructor;
    lazy beta iota delta [betas alphas_cumprod alphas_cumprod_prev posterior_variance
         posterior_mean_coef1 posterior_mean_coef2 loss_weight objective model
         classifier_free_guidance drop_prob ddim_sampling_eta auto_normalize num_timesteps
         sampling_timesteps is_ddim_sampling sqrt_alphas_cumprod
         sqrt_one_minus_alphas_cumprod sqrt_recip_alphas_cumprod
         sqrt_recipm1_alphas_cumprod posterior_log_variance_clipped];
    auto;
    try (destruct (String.eqb _ "pred_noise"); [|destruct (String.eqb _ "pred_x0")]);
    repeat first [ rewrite map2_length | rewrite length_map | rewrite length_cons
                 | rewrite cumprod_length | rewrite removelast_length ];
    lia.
Qed.

Lemma init_ok m cfg :
  known_objective (cfg_objective cfg) = true ->
  known_schedule (cfg_beta_schedule cfg) = true ->
  (0 < cfg_timesteps cfg \/
   (cfg_timesteps cfg = 0 /\ cfg_beta_schedule cfg <> "linear"%string))%Z ->
  (forall s, cfg_sampling_timesteps cfg = Some s -> s <= cfg_timesteps cfg)%Z ->
  exists e, GaussianDiffusionConditional_init m cfg = Ok e.
Proof.
  intros Hobj Hk HT Hs.
  destruct (build_betas_ok _ _ Hk HT) as (bs & Hb & Hlen).
  unfold GaussianDiffusionConditional_init. rewrite Hobj, Hb. simpl.
  destruct (Z.ltb_spec (Z.of_nat (length bs))
              (default (cfg_sampling_timesteps cfg) (Z.of_nat (length bs)))) as [Hlt|]; [|eauto].
  exfalso. destruct (cfg_sampling_timesteps cfg) as [s|] eqn:E; simpl in Hlt; [|lia].
  specialize (Hs s eq_refl). lia.
Qed.

(** C5, as the code has it: construction fails exactly on an unknown
    objective, an unknown schedule kind, a negative timestep count, a zero
    timestep count under the linear schedule, or more sampling steps than
    timesteps. *)
Theorem init_fails_iff m cfg :
  failed (GaussianDiffusionConditional_init m cfg) <->
  known_objective (cfg_objective cfg) = false \/
  known_schedule (cfg_beta_schedule cfg) = false \/
  (cfg_timesteps cfg < 0)%Z \/
  (cfg_timesteps cfg = 0%Z /\ cfg_beta_schedule cfg = "linear"%string) \/
  (exists s, cfg_sampling_timesteps cfg = Some s /\ (cfg_timesteps cfg < s)%Z).
Proof.
  split.
  - intros Hf.
    destruct (known_objective (cfg_objective cfg)) eqn:Hobj; [|now left].
    destruct (known_schedule (cfg_beta_schedule cfg)) eqn:Hk; [|now right; left].
    destruct (Z.ltb_spec (cfg_timesteps cfg) 0); [now right; right; left|].
    destruct (string_dec (cfg_beta_schedule cfg) "linear") as [Hlin|Hlin];
      [destruct (Z.eqb_spec (cfg_timesteps cfg) 0); [now right; right; right; left|]|].
    all: right; right; right; right.
    all: assert (HT : (0 < cfg_timesteps cfg \/
                       (cfg_timesteps cfg = 0 /\ cfg_beta_schedule cfg <> "linear"%string))%Z)
           by (destruct (Z.eqb_spec (cfg_timesteps cfg) 0);
               [first [contradiction | right; split; assumption]|left; lia]).
    all: destruct (cfg_sampling_timesteps cfg) as [s|] eqn:Es.
    all: try (exists s; split; [reflexivity|];
              destruct (Z.ltb_spec (cfg_timesteps cfg) s); [assumption|]).
    all: exfalso; destruct (init_ok m cfg Hobj Hk HT) as [e He];
           [ intros s' Hs'; rewrite Es in Hs'; try discriminate; injection Hs' as <-; lia
           | rewrite He in Hf; exact Hf ].
  - intros H. unfold GaussianDiffusionConditional_init.
    destruct (known_objective (cfg_objective cfg)) eqn:Hobj; simpl; [|exact I].
    destruct H as [H|H]; [discriminate|].
    destruct (build_betas _ _) as [bs|] eqn:Hb; simpl; [|exact I].
    destruct H as [H|[H|[H|(s & Hs & Hlt)]]].
    + pose proof (build_betas_fails _ (cfg_timesteps cfg) (or_introl H)) as F.
      rewrite Hb in F. destruct F.
    + pose proof (build_betas_fails (cfg_beta_schedule cfg) _ (or_intror (or_introl H))) as F.
      rewrite Hb in F. destruct F.
    + pose proof (build_betas_fails _ _ (or_intror (or_intror H))) as F.
      rewrite Hb in F. destruct F.
    + destruct (known_schedule (cfg_beta_schedule cfg)) eqn:Hk.
      2:{ pose proof (build_betas_fails _ (cfg_timesteps cfg) (or_introl Hk)) as F.
          rewrite Hb in F. destruct F. }
      destruct (Z.ltb_spec (cfg_timesteps cfg) 0) as [Hneg|Hnn].
      { pose proof (build_betas_fails (cfg_beta_schedule cfg) _ (or_intror (or_introl Hneg))) as F.
        rewrite Hb in F. destruct F. }
      assert (HT : (0 < cfg_timesteps cfg \/
                    (cfg_timesteps cfg = 0 /\ cfg_beta_schedule cfg <> "linear"%string))%Z).
      { destruct (Z.eqb_spec (cfg_timesteps cfg) 0) as [H0|H0]; [|left; lia].
        destruct (string_dec (cfg_beta_schedule cfg) "linear") as [Hlin|Hlin]; [|now right].
        pose proof (build_betas_fails _ _ (or_intror (or_intror (conj H0 Hlin)))) as F.
        rewrite Hb in F. destruct F. }
      destruct (build_betas_ok _ (cfg_timesteps cfg) Hk HT) as (l & Hl & Hlen).
      rewrite Hb in Hl. injection Hl as <-. rewrite Hs; simpl.
      destruct (Z.ltb_spec (Z.of_nat (length bs)) s); [exact I|lia].
Qed.

(** C5 as stated fails: with the cosine schedule a timestep count of 0 is
    accepted, and the engine has an empty schedule. *)
Lemma init_accepts_zero_timesteps :
  (cfg_timesteps (config "cosine" 0 None "pred_v") <= 0)%Z /\
  exists e,
    GaussianDiffusionConditional_init toy_net (config "cosine" 0 None "pred_v") = Ok e /\
    betas e = [].
Proof.
  split; [cbn; lia|].
  destruct (init_ok toy_net (config "cosine" 0 None "pred_v")) as [e He];
    [reflexivity|reflexivity| |discriminate|].
  { right. split; [reflexivity|discriminate]. }
  exists e; split; [assumption|].
  pose proof (built_betas _ _ _ (init_inv _ _ _ He)) as Hbs.
  cbn [cfg_beta_schedule cfg_timesteps config config_with] in Hbs.
  destruct (build_betas_ok "cosine" 0 eq_refl) as (l & Hl & Hlen).
  { right. split; [reflexivity|discriminate]. }
  assert (l = betas e) as <- by congruence.
  destruct l; [reflexivity|discriminate].
Qed.

(** The toy network under a cosine schedule: the engine exists and its
    schedule has T entries. *)
Lemma cosine_engine guidance T S obj :
  (0 < T)%Z ->
  known_objective obj = true ->
  (forall s, S = Some s -> (s <= T)%Z) ->
  exists e,
    GaussianDiffusionConditional_init toy_net (config_with guidance "cosine" T S obj) = Ok e /\
    built toy_net (config_with guidance "cosine" T S obj) e /\
    length (betas e) = Z.to_nat T /\
    num_timesteps e = T.
Proof.
  intros HT Hobj HS.
  destruct (init_ok toy_net (config_with guidance "cosine" T S obj)) as [e He];
    [exact Hobj|reflexivity|left; exact HT|exact HS|].
  pose proof (init_inv _ _ _ He) as Hb. exists e. split; [assumption|]. split; [assumption|].
  destruct (cosine_beta_schedule_ok T ltac:(lia)) as (l & Hl & Hlen & _).
  pose proof (built_betas _ _ _ Hb) as Hbs.
  cbn [cfg_beta_schedule cfg_timesteps config_with] in Hbs.
  change (build_betas "cosine" T) with (cosine_beta_schedule T) in Hbs.
  assert (Heq : l = betas e) by congruence. subst l.
  split; [assumption|]. rewrite (built_num _ _ _ Hb), Hlen. lia.
Qed.

(** ** The schedule invariant *)

(** C3, as the code has it: the invariant of the schedule for the cosine kind (every
    positive T) and for the linear kind with T = 1 or T >= 21. *)
Theorem schedule_invariant m cfg e :
  GaussianDiffusionConditional_init m cfg = Ok e ->
  regular_schedule (cfg_beta_schedule cfg) (cfg_timesteps cfg) ->
  length (betas e) = Z.to_nat (cfg_timesteps cfg) /\
  non_increasing (alphas_cumprod e) /\
  Forall (fun a => 0 < a <= 1) (alphas_cumprod e).
Proof.
  intros He Hreg.
  pose proof (built_betas _ _ _ (init_inv _ _ _ He)) as Hb.
  pose proof (built_acp _ _ _ (init_inv _ _ _ He)) as Hacp.
  destruct (regular_betas _ _ _ Hreg Hb) as [Hlen Hbs].
  split; [assumption|]. rewrite Hacp. apply cumprod_invariant.
  eapply Forall_alphas; [|exact Hbs]. simpl; intros; lra.
Qed.

Lemma schedule_invariant_witness :
  exists e,
    GaussianDiffusionConditional_init toy_net (config "cosine" 4 None "pred_v") = Ok e /\
    length (betas e) = 4%nat /\
    non_increasing (alphas_cumprod e) /\
    Forall (fun a => 0 < a <= 1) (alphas_cumprod e).
Proof.
  destruct (cosine_engine false 4 None "pred_v"%string) as (e & He & _);
    [lia|reflexivity|discriminate|].
  exists e. split; [exact He|].
  apply (schedule_invariant toy_net (config "cosine" 4 None "pred_v") e He).
  split; [cbn; lia|left; reflexivity].
Defined.

Lemma linear_two_alphas_cumprod m S obj e :
  GaussianDiffusionConditional_init m (config "linear" 2 S obj) = Ok e ->
  exists a0, alphas_cumprod e = [a0; -8.55].
Proof.
  intros He. pose proof (built_betas _ _ _ (init_inv _ _ _ He)) as Hb.
  pose proof (built_acp _ _ _ (init_inv _ _ _ He)) as Hacp.
  cbn [cfg_beta_schedule cfg_timesteps config config_with] in Hb.
  change (build_betas "linear" 2) with (linear_beta_schedule 2) in Hb.
  rewrite linear_beta_schedule_two in Hb. injection Hb as Hb. rewrite Hacp, <- Hb.
  eexists. unfold cumprod. cbn [map cumprod_from INR]. f_equal. f_equal. lra.
Qed.

(** C3 as stated fails: the linear schedule with T = 2 has beta_1 = 10, so
    the second cumulative product is negative. *)
Lemma linear_two_steps_breaks_invariant :
  exists e,
    GaussianDiffusionConditional_init toy_net (config "linear" 2 None "pred_v") = Ok e /\
    ~ Forall (fun a => 0 < a <= 1) (alphas_cumprod e).
Proof.
  destruct (init_ok toy_net (config "linear" 2 None "pred_v")) as [e He];
    [reflexivity|reflexivity|left; reflexivity|discriminate|].
  exists e; split; [assumption|].
  destruct (linear_two_alphas_cumprod _ _ _ _ He) as [a0 ->].
  intros H. inversion H as [|? ? _ H1]; subst. inversion H1 as [|? ? H2 _]; subst. lra.
Qed.

Lemma regular_alphas_cumprod m cfg e :
  GaussianDiffusionConditional_init m cfg = Ok e ->
  regular_schedule (cfg_beta_schedule cfg) (cfg_timesteps cfg) ->
  Forall (fun a => 0 < a < 1) (alphas_cumprod e).
Proof.
  intros He Hreg.
  pose proof (built_betas _ _ _ (init_inv _ _ _ He)) as Hb.
  pose proof (built_acp _ _ _ (init_inv _ _ _ He)) as Hacp.
  destruct (regular_first_beta _ _ _ Hreg Hb) as (b0 & l' & Hl & Hb0 & Hl').
  rewrite Hacp, Hl. cbn [map]. apply cumprod_strict; [lra|].
  eapply Forall_alphas; [|exact Hl']. simpl; intros; lra.
Qed.

(** ** Gathering and indexing coefficients *)

Lemma gather_ok a i :
  (0 <= i < Z.of_nat (length a))%Z -> gather a i = Ok (nth (Z.to_nat i) a 0).
Proof.
  intros H. unfold gather. destruct (Z.ltb_spec i 0); [lia|].
  destruct (nth_error a (Z.to_nat i)) eqn:E.
  - now rewrite (nth_error_nth _ _ _ E).
  - apply nth_error_None in E. lia.
Qed.

Lemma extract_ok a t :
  Forall (fun i => 0 <= i < Z.of_nat (length a))%Z t ->
  extract a t = Ok (map (fun i => nth (Z.to_nat i) a 0) t).
Proof.
  unfold extract. induction 1 as [|i t Hi Ht IH]; [reflexivity|].
  cbn [mapR map]. rewrite gather_ok by assumption. cbn [rbind]. now rewrite IH.
Qed.

Lemma extract_length a t l : extract a t = Ok l -> length l = length t.
Proof.
  unfold extract. revert l; induction t as [|i t IH]; intros l; cbn [mapR].
  - intros H; apply Ok_inj in H; now subst.
  - destruct (gather a i); cbn [rbind]; [|discriminate].
    destruct (mapR (gather a) t); cbn [rbind]; [|discriminate].
    intros H; apply Ok_inj in H; subst. cbn [length]. now rewrite (IH _ eq_refl).
Qed.

Lemma index_nonneg a i :
  (0 <= i < Z.of_nat (length a))%Z -> index a i = Ok (nth (Z.to_nat i) a 0).
Proof.
  intros H. unfold index.
  destruct (Z.ltb_spec i 0); [lia|].
  destruct (Z.ltb_spec i 0); [lia|].
  destruct (Z.leb_spec (Z.of_nat (length a)) i); [lia|]. reflexivity.
Qed.

Lemma index_last a :
  (0 < length a)%nat -> index a (-1) = Ok (nth (length a - 1) a 0).
Proof.
  intros H. unfold index. cbn [Z.ltb Z.compare].
  destruct (Z.ltb_spec (-1 + Z.of_nat (length a)) 0); [lia|].
  destruct (Z.leb_spec (Z.of_nat (length a)) (-1 + Z.of_nat (length a))); [lia|].
  cbn [orb]. do 2 f_equal. lia.
Qed.

Lemma known_objective_cases o :
  known_objective o = true ->
  o = "pred_noise"%string \/ o = "pred_x0"%string \/ o = "pred_v"%string.
Proof.
  unfold known_objective. intros H.
  apply orb_true_iff in H as [H|H]; [apply orb_true_iff in H as [H|H]|];
    apply String.eqb_eq in H; auto.
Qed.

Lemma in_range_repeat e t n :
  (0 <= t < num_timesteps e)%Z -> in_range e (repeat t n).
Proof.
  intros H. apply Forall_forall. intros i Hi. apply repeat_spec in Hi. now subst.
Qed.

(** ** Observing computations *)

Lemma count_draws_app a b : count_draws (a ++ b) = (count_draws a + count_draws b)%nat.
Proof. unfold count_draws. now rewrite filter_app, length_app. Qed.

Lemma advance_nil w : advance w [] = w.
Proof.
  destruct w; unfold advance; cbn. now rewrite Nat.add_0_r, app_nil_r.
Qed.

Lemma advance_app w a b : advance (advance w a) b = advance w (a ++ b).
Proof.
  unfold advance; cbn. now rewrite count_draws_app, Nat.add_assoc, app_assoc.
Qed.

Lemma next_draw_advance ev w : is_draw ev = true -> next_draw ev w = advance w [ev].
Proof.
  intros H. unfold next_draw, advance, count_draws. cbn. rewrite H. cbn.
  now rewrite Nat.add_1_r.
Qed.

Lemma trace_next_draw_advance ev w evs :
  trace (advance (next_draw ev w) evs) = trace w ++ ev :: evs.
Proof. cbn. now rewrite <- app_assoc. Qed.

Lemma pure_ret {A} (a : A) : pure_with (ret a) [].
Proof. exists (Ok a); intros w; cbn. now rewrite advance_nil. Qed.

Lemma pure_lift {A} (r : result A) : pure_with (lift r) [].
Proof. exists r; intros w; destruct r; cbn; now rewrite ?advance_nil. Qed.

Lemma pure_log ev : is_draw ev = false -> pure_with (log ev) [ev].
Proof.
  intros H. exists (Ok tt); intros w. unfold log, outcome, advance, count_draws; cbn.
  rewrite H; cbn. now rewrite Nat.add_0_r.
Qed.

Lemma pure_bind {A B} (c : M A) (k : A -> M B) e1 e2 :
  pure_with c e1 -> (forall a, pure_with (k a) e2) -> pure_with (bind c k) (e1 ++ e2).
Proof.
  intros [r Hr] Hk. destruct r as [a|ex].
  - destruct (Hk a) as [r2 Hr2]. exists r2; intros w.
    unfold bind. rewrite Hr; cbn. rewrite Hr2. destruct r2; cbn; now rewrite ?advance_app.
  - exists (Raise ex); intros w. unfold bind. now rewrite Hr.
Qed.

Lemma pure_bind_nil_l {A B} (c : M A) (k : A -> M B) evs :
  pure_with c [] -> (forall a, pure_with (k a) evs) -> pure_with (bind c k) evs.
Proof. intros; change evs with ([] ++ evs); now apply pure_bind. Qed.

Lemma pure_bind_nil_r {A B} (c : M A) (k : A -> M B) evs :
  pure_with c evs -> (forall a, pure_with (k a) []) -> pure_with (bind c k) evs.
Proof. intros; rewrite <- (app_nil_r evs); now apply pure_bind. Qed.

Lemma pure_foldM {A S} (f : S -> A -> M S) (ev : A -> list Event) l :
  (forall s a, pure_with (f s a) (ev a)) ->
  forall s, pure_with (foldM f l s) (concat (map ev l)).
Proof.
  intros Hf; induction l as [|a l IH]; intros s; cbn [foldM map concat].
  - apply pure_ret.
  - apply pure_bind; auto.
Qed.

Lemma returns_ret {A} (a : A) : returns (ret a).
Proof. intros w; eexists; eexists; reflexivity. Qed.

Lemma returns_bind {A B} (c : M A) (k : A -> M B) :
  returns c -> (forall a, returns (k a)) -> returns (bind c k).
Proof.
  intros Hc Hk w. destruct (Hc w) as (a & w' & Ha). unfold bind; rewrite Ha. apply Hk.
Qed.

Lemma returns_lift {A} (r : result A) a : r = Ok a -> returns (lift r).
Proof. intros -> w; eexists; eexists; reflexivity. Qed.

Lemma returns_foldM {A S} (f : S -> A -> M S) l :
  (forall s a, In a l -> returns (f s a)) -> forall s, returns (foldM f l s).
Proof.
  induction l as [|a l IH]; intros Hf s; cbn [foldM].
  - apply returns_ret.
  - apply returns_bind; [apply Hf; now left|]. intros s'. apply IH.
    intros; apply Hf; now right.
Qed.

(** A pure computation that returns appends exactly its events. *)
Lemma pure_returns_run {A} (c : M A) evs w :
  pure_with c evs -> returns c -> exists a, c w = Ok (a, advance w evs).
Proof.
  intros [r Hr] Hret. destruct (Hret w) as (a & w' & Ha).
  rewrite Hr in Ha. destruct r as [a'|]; [|discriminate]. exists a'. apply Hr.
Qed.

Lemma pure_returns_value {A} (c : M A) evs :
  pure_with c evs -> returns c -> exists a, forall w, c w = Ok (a, advance w evs).
Proof.
  intros [r Hr] Hret. destruct (Hret still_world) as (a & w' & Ha).
  rewrite Hr in Ha. destruct r as [a'|]; [|discriminate]. exists a'. apply Hr.
Qed.

(** ** The network and the guidance compositor *)

Lemma choose_cond_zero batch null cond : choose_cond batch 0 null cond = ret cond.
Proof.
  unfold choose_cond, Rgtb. destruct (Rlt_dec 0 0); [lra|reflexivity].
Qed.

Lemma choose_cond_one batch null cond :
  choose_cond batch 1 null cond =
  ret (where_rows (repeat false batch) cond (repeat null batch)).
Proof.
  unfold choose_cond, Rgtb, prob_mask_like.
  destruct (Rlt_dec 0 1); [|lra].
  destruct (Req_EM_T (1 - 1) 1); [lra|].
  destruct (Req_EM_T (1 - 1) 0); [reflexivity|lra].
Qed.

Lemma forward_pure net x t cond inits p :
  p = 0 \/ p = 1 ->
  pure_with (FullyConditionedUnet_forward net x t cond inits (Some p))
            [EvForward t cond (Some inits) (Some p)].
Proof.
  intros Hp. unfold FullyConditionedUnet_forward. cbn [default].
  apply pure_bind_nil_r; [now apply pure_log|]. intros _.
  apply pure_bind_nil_l; [|intros; apply pure_ret].
  destruct Hp as [-> | ->]; rewrite ?choose_cond_zero, ?choose_cond_one; apply pure_ret.
Qed.

Lemma forward_returns net x t cond inits p :
  p = 0 \/ p = 1 ->
  returns (FullyConditionedUnet_forward net x t cond inits (Some p)).
Proof.
  intros Hp. unfold FullyConditionedUnet_forward. cbn [default].
  apply returns_bind; [intros w; eexists; eexists; reflexivity|]. intros _.
  apply returns_bind; [|intros; apply returns_ret].
  destruct Hp as [-> | ->]; rewrite ?choose_cond_zero, ?choose_cond_one; apply returns_ret.
Qed.

Lemma forward_with_cond_scale_pure net x t cond inits cond_scale phi :
  pure_with (FullyConditionedUnet_forward_with_cond_scale net x t cond inits cond_scale phi)
            (fw_events t cond inits cond_scale).
Proof.
  unfold FullyConditionedUnet_forward_with_cond_scale, forward_with_cond_scale, fw_events.
  change (?a :: ?l) with ([a] ++ l).
  apply pure_bind; [apply forward_pure; now left|]. intros logits.
  destruct (Req_EM_T cond_scale 1); [apply pure_ret|].
  apply pure_bind_nil_r; [apply forward_pure; now right|]. intros null_logits.
  destruct (Req_EM_T phi 0); apply pure_ret.
Qed.

Lemma forward_with_cond_scale_returns net x t cond inits cond_scale phi :
  returns (FullyConditionedUnet_forward_with_cond_scale net x t cond inits cond_scale phi).
Proof.
  unfold FullyConditionedUnet_forward_with_cond_scale, forward_with_cond_scale.
  apply returns_bind; [apply forward_returns; now left|]. intros logits.
  destruct (Req_EM_T cond_scale 1); [apply returns_ret|].
  apply returns_bind; [apply forward_returns; now right|]. intros null_logits.
  destruct (Req_EM_T phi 0); apply returns_ret.
Qed.

Lemma fw_events_one t cond inits :
  fw_events t cond inits 1 = [EvForward t cond (Some inits) (Some 0)].
Proof. unfold fw_events. destruct (Req_EM_T 1 1); [reflexivity|contradiction]. Qed.

(** C6: with cond_scale = 1 the compositor is the conditioned forward call
    and nothing else, in both network classes and whatever rescaled_phi is:
    one entry into [forward], with cond_drop_prob = 0, and its output
    returned as it is. *)
Theorem cond_scale_one_returns_logits :
  (forall (Args : Type) (forward : Args -> option R -> M Tensor3) args phi w,
     forward_with_cond_scale forward args 1 phi w = forward args (Some 0) w) /\
  (forall net x t cond phi w,
     Unet_forward_with_cond_scale net x t cond 1 phi w =
     Ok (unet_body net x t cond, advance w [EvForward t cond None (Some 0)])) /\
  (forall net x t cond inits phi w,
     FullyConditionedUnet_forward_with_cond_scale net x t cond inits 1 phi w =
     Ok (fc_body net x t cond inits, advance w [EvForward t cond (Some inits) (Some 0)])).
Proof.
  assert (H1 : forall (Args : Type) (forward : Args -> option R -> M Tensor3) args phi w,
             forward_with_cond_scale forward args 1 phi w = forward args (Some 0) w).
  { intros Args forward args phi w. unfold forward_with_cond_scale, bind.
    destruct (forward args (Some 0) w) as [[logits w']|]; [|reflexivity].
    destruct (Req_EM_T 1 1); [reflexivity|contradiction]. }
  split; [exact H1|]. split.
  - intros net x t cond phi w. unfold Unet_forward_with_cond_scale. rewrite H1.
    unfold Unet_forward, bind, log. cbn [default]. rewrite choose_cond_zero.
    unfold ret, advance, count_draws. cbn. now rewrite Nat.add_0_r.
  - intros net x t cond inits phi w. unfold FullyConditionedUnet_forward_with_cond_scale.
    rewrite H1. unfold FullyConditionedUnet_forward, bind, log. cbn [default].
    rewrite choose_cond_zero.
    unfold ret, advance, count_draws. cbn. now rewrite Nat.add_0_r.
Qed.

Lemma model_predictions_pure e x t cond inits cond_scale phi clip rederive :
  pure_with (model_predictions e x t cond inits cond_scale phi clip rederive)
            (mp_events e t cond inits cond_scale).
Proof.
  unfold model_predictions, mp_events.
  apply pure_bind; [apply forward_with_cond_scale_pure|]. intros out.
  apply pure_bind_nil_r; [|intros; apply pure_lift].
  destruct (classifier_free_guidance e); [|apply pure_ret].
  apply pure_bind_nil_r; [apply forward_with_cond_scale_pure|]. intros; apply pure_ret.
Qed.

(** ** A constructed engine at timesteps within its schedule *)

Section BuiltEngine.

Variables (m : FullyConditionedUnet) (cfg : Config) (e : Engine).
Hypothesis Hb : built m cfg e.

Lemma extract_acp_ok (f : R -> R) t :
  in_range e t ->
  extract (map f (alphas_cumprod e)) t =
  Ok (map (fun i => nth (Z.to_nat i) (map f (alphas_cumprod e)) 0) t).
Proof.
  intros Ht. apply extract_ok. rewrite length_map, (built_len_acp _ _ _ Hb).
  rewrite <- (built_num _ _ _ Hb). exact Ht.
Qed.

Lemma extract_buffer_ok buf t :
  length buf = length (betas e) -> in_range e t ->
  extract buf t = Ok (map (fun i => nth (Z.to_nat i) buf 0) t).
Proof.
  intros Hlen Ht. apply extract_ok. rewrite Hlen, <- (built_num _ _ _ Hb). exact Ht.
Qed.

Lemma index_acp_ok i :
  (0 <= i < num_timesteps e)%Z -> exists a, index (alphas_cumprod e) i = Ok a.
Proof.
  intros H. rewrite index_nonneg; [eauto|].
  rewrite (built_len_acp _ _ _ Hb), <- (built_num _ _ _ Hb). exact H.
Qed.

Lemma predict_start_from_noise_ok x t noise :
  in_range e t -> exists r, predict_start_from_noise e x t noise = Ok r.
Proof.
  intros Ht. unfold predict_start_from_noise.
  rewrite (built_sqrt_recip _ _ _ Hb), (built_sqrt_recipm1 _ _ _ Hb).
  rewrite !extract_acp_ok by assumption. cbn [rbind]. eauto.
Qed.

Lemma predict_noise_from_start_ok x t x0 :
  in_range e t -> exists r, predict_noise_from_start e x t x0 = Ok r.
Proof.
  intros Ht. unfold predict_noise_from_start.
  rewrite (built_sqrt_recip _ _ _ Hb), (built_sqrt_recipm1 _ _ _ Hb).
  rewrite !extract_acp_ok by assumption. cbn [rbind]. eauto.
Qed.

Lemma predict_start_from_v_ok x t v :
  in_range e t -> exists r, predict_start_from_v e x t v = Ok r.
Proof.
  intros Ht. unfold predict_start_from_v.
  rewrite (built_sqrt_acp _ _ _ Hb), (built_sqrt_1m_acp _ _ _ Hb).
  rewrite !extract_acp_ok by assumption. cbn [rbind]. eauto.
Qed.

Lemma predictions_from_output_ok x t out clip rederive :
  in_range e t -> exists r, predictions_from_output e x t out clip rederive = Ok r.
Proof.
  intros Ht. unfold predictions_from_output.
  destruct (known_objective_cases _ (built_known _ _ _ Hb)) as [-> | [-> | ->]];
    cbn [String.eqb Ascii.eqb Bool.eqb].
  - destruct (predict_start_from_noise_ok x t out Ht) as [xs ->]. cbn [rbind].
    destruct (clip && rederive)%bool; [|eauto].
    destruct (predict_noise_from_start_ok x t (maybe_clip e clip xs) Ht) as [pn ->].
    cbn [rbind]. eauto.
  - destruct (predict_noise_from_start_ok x t (maybe_clip e clip out) Ht) as [pn ->].
    cbn [rbind]. eauto.
  - destruct (predict_start_from_v_ok x t out Ht) as [xs ->]. cbn [rbind].
    destruct (predict_noise_from_start_ok x t (maybe_clip e clip xs) Ht) as [pn ->].
    cbn [rbind]. eauto.
Qed.

Lemma q_posterior_ok x_start x t :
  in_range e t -> exists r, q_posterior e x_start x t = Ok r.
Proof.
  intros Ht. unfold q_posterior.
  rewrite (extract_buffer_ok _ _ (built_len_coef1 _ _ _ Hb) Ht). cbn [rbind].
  rewrite (extract_buffer_ok _ _ (built_len_coef2 _ _ _ Hb) Ht). cbn [rbind].
  rewrite (extract_buffer_ok _ _ (built_len_variance _ _ _ Hb) Ht). cbn [rbind].
  rewrite (extract_buffer_ok _ _ (built_len_log_variance _ _ _ Hb) Ht). cbn [rbind].
  eauto.
Qed.

Lemma model_predictions_returns x t cond inits cond_scale phi clip rederive :
  in_range e t ->
  returns (model_predictions e x t cond inits cond_scale phi clip rederive).
Proof.
  intros Ht. unfold model_predictions.
  apply returns_bind; [apply forward_with_cond_scale_returns|]. intros out.
  apply returns_bind.
  - destruct (classifier_free_guidance e); [|apply returns_ret].
    apply returns_bind; [apply forward_with_cond_scale_returns|].
    intros; apply returns_ret.
  - intros out'. destruct (predictions_from_output_ok x t out' clip rederive Ht) as [r Hr].
    eapply returns_lift; eauto.
Qed.

Lemma p_mean_variance_returns x t cond inits cond_scale phi clip :
  in_range e t ->
  returns (p_mean_variance e x t cond inits cond_scale phi clip).
Proof.
  intros Ht. unfold p_mean_variance.
  apply returns_bind; [now apply model_predictions_returns|]. intros preds.
  match goal with |- returns (bind (lift ?r) _) =>
    destruct (q_posterior_ok (if clip then clamp (clip_min e) (clip_max e) (snd preds)
                              else snd preds) x t Ht) as [[[mu v] lv] Hq]
  end.
  apply returns_bind; [eapply returns_lift; exact Hq|].
  intros [[mu' v'] lv']. apply returns_ret.
Qed.

Lemma ddim_step_returns batch cond inits cond_scale phi clip img time time_next :
  (0 <= time < num_timesteps e)%Z -> (time_next < num_timesteps e)%Z ->
  returns (ddim_step e batch cond inits cond_scale phi clip img (time, time_next)).
Proof.
  intros Ht Hn. unfold ddim_step.
  apply returns_bind.
  { apply model_predictions_returns. now apply in_range_repeat. }
  intros [pred_noise x_start].
  destruct (Z.ltb_spec time_next 0); [apply returns_ret|].
  destruct (index_acp_ok time Ht) as [a Ha].
  destruct (index_acp_ok time_next ltac:(lia)) as [a' Ha'].
  apply returns_bind; [eapply returns_lift; exact Ha|]. intros alpha.
  apply returns_bind; [eapply returns_lift; exact Ha'|]. intros alpha_next.
  intros w. eexists; eexists; reflexivity.
Qed.

End BuiltEngine.

(** ** The noise round trip *)

Lemma roundtrip_row a b (rx re : list R) :
  b <> 0 -> length rx = length re ->
  map (fun v => v / b)
      (map2 Rminus (map (Rmult a) rx)
                   (map2 Rminus (map (Rmult a) rx) (map (Rmult b) re))) = re.
Proof.
  intros Hb. revert re; induction rx as [|x rx IH]; intros [|e re]; cbn; try discriminate; auto.
  intros [= Hlen]. rewrite (IH _ Hlen). f_equal. field. assumption.
Qed.

Lemma roundtrip_element a b (xi ei : list (list R)) :
  b <> 0 -> Forall2 (fun r s : list R => length r = length s) xi ei ->
  map (map (fun v => v / b))
      (map2 (map2 Rminus) (map (map (Rmult a)) xi)
            (map2 (map2 Rminus) (map (map (Rmult a)) xi) (map (map (Rmult b)) ei))) = ei.
Proof.
  intros Hb; induction 1 as [|rx re xi ei Hlen _ IH]; cbn [map map2]; [reflexivity|].
  now rewrite IH, roundtrip_row.
Qed.

Lemma roundtrip_batch (a b : list R) (x eps : Tensor3) :
  Forall (fun v => v <> 0) b ->
  length a = length x -> length b = length x ->
  same_shape x eps ->
  bdiv (tsub (bmul a x) (tsub (bmul a x) (bmul b eps))) b = eps.
Proof.
  intros Hb Ha Hlb Hs. revert a b Hb Ha Hlb.
  induction Hs as [|xi ei x eps Hel _ IH]; intros [|a0 a] [|b0 b] Hb Ha Hlb;
    try discriminate; [reflexivity|].
  inversion Hb; subst. injection Ha as Ha. injection Hlb as Hlb.
  unfold bdiv, tsub, t3map2, bmul in *. cbn [map2].
  rewrite IH by assumption. now rewrite roundtrip_element.
Qed.

(** C4, as the code has it: for an engine whose schedule is regular (cosine, or linear
    with T = 1 or T >= 21), converting a noise tensor to x0 and back gives
    the noise tensor again, at every timestep batch within [0, T-1]. *)
Theorem noise_roundtrip m cfg e (t : list Z) (x_t eps : Tensor3) :
  GaussianDiffusionConditional_init m cfg = Ok e ->
  regular_schedule (cfg_beta_schedule cfg) (cfg_timesteps cfg) ->
  Forall (fun i => 0 <= i < cfg_timesteps cfg)%Z t ->
  length t = length x_t ->
  same_shape x_t eps ->
  rbind (predict_start_from_noise e x_t t eps)
        (fun x0 => predict_noise_from_start e x_t t x0) = Ok eps.
Proof.
  intros He Hreg Ht Hlen Hs.
  pose proof (regular_alphas_cumprod _ _ _ He Hreg) as Hacp.
  pose proof (init_inv _ _ _ He) as Hb.
  destruct (regular_betas _ _ _ Hreg (built_betas _ _ _ Hb)) as (HT & _).
  assert (Hlacp : length (alphas_cumprod e) = Z.to_nat (cfg_timesteps cfg)).
  { rewrite (built_len_acp _ _ _ Hb). exact HT. }
  assert (Hin : forall f : R -> R,
             Forall (fun i => 0 <= i < Z.of_nat (length (map f (alphas_cumprod e))))%Z t).
  { intros f. rewrite length_map, Hlacp. eapply Forall_impl; [|exact Ht]. simpl; lia. }
  unfold predict_start_from_noise, predict_noise_from_start.
  rewrite (built_sqrt_recip _ _ _ Hb), (built_sqrt_recipm1 _ _ _ Hb).
  rewrite !extract_ok by apply Hin. cbn [rbind]. f_equal.
  apply roundtrip_batch; rewrite ?length_map; auto.
  apply Forall_forall; intros v Hv. apply in_map_iff in Hv as (i & <- & Hi).
  rewrite Forall_forall in Ht. specialize (Ht i Hi).
  assert (Hnth : In (nth (Z.to_nat i) (alphas_cumprod e) 0) (alphas_cumprod e))
    by (apply nth_In; lia).
  rewrite Forall_forall in Hacp. specialize (Hacp _ Hnth).
  set (a := nth (Z.to_nat i) (alphas_cumprod e) 0) in *.
  replace (nth (Z.to_nat i) (map (fun a => sqrt (1 / a - 1)) (alphas_cumprod e)) 0)
    with (sqrt (1 / a - 1)).
  - assert (0 < sqrt (1 / a - 1)); [|lra]. apply sqrt_lt_R0.
    assert (1 < 1 / a); [|lra]. unfold Rdiv. rewrite Rmult_1_l, <- Rinv_1.
    apply Rinv_lt_contravar; lra.
  - subst a. symmetry. apply nth_map_in. lia.
Qed.

Lemma noise_roundtrip_witness :
  exists e,
    GaussianDiffusionConditional_init toy_net (config "cosine" 4 None "pred_noise") = Ok e /\
    rbind (predict_start_from_noise e [[[1]]] [0%Z] [[[2]]])
          (fun x0 => predict_noise_from_start e [[[1]]] [0%Z] x0) = Ok [[[2]]].
Proof.
  destruct (cosine_engine false 4 None "pred_noise"%string) as (e & He & _);
    [lia|reflexivity|discriminate|].
  exists e. split; [exact He|].
  apply (noise_roundtrip toy_net (config "cosine" 4 None "pred_noise") e
           [0%Z] [[[1]]] [[[2]]] He).
  - split; [cbn; lia|left; reflexivity].
  - constructor; [cbn; lia|constructor].
  - reflexivity.
  - repeat constructor.
Defined.

(** C4 as stated fails: under the linear schedule with T = 2 the cumulative
    product at t = 1 is -8.55, the square roots of [1/acp] and [1/acp - 1]
    are not those of positive numbers, and the round trip of the noise 1
    does not give 1 back. *)
Lemma linear_two_breaks_roundtrip :
  exists e,
    GaussianDiffusionConditional_init toy_net (config "linear" 2 None "pred_noise") = Ok e /\
    nth 1 (alphas_cumprod e) 0 = -8.55 /\
    rbind (predict_start_from_noise e [[[0]]] [1%Z] [[[1]]])
          (fun x0 => predict_noise_from_start e [[[0]]] [1%Z] x0) <> Ok [[[1]]].
Proof.
  destruct (init_ok toy_net (config "linear" 2 None "pred_noise")) as [e He];
    [reflexivity|reflexivity|left; reflexivity|discriminate|].
  exists e; split; [assumption|].
  pose proof (init_inv _ _ _ He) as Hb.
  destruct (linear_two_alphas_cumprod _ _ _ _ He) as [a0 Hacp].
  split; [now rewrite Hacp|].
  assert (HT : num_timesteps e = 2%Z).
  { rewrite (built_num _ _ _ Hb), <- (built_len_acp _ _ _ Hb), Hacp. reflexivity. }
  assert (Hr : in_range e [1%Z]) by (constructor; [lia|constructor]).
  unfold predict_start_from_noise, predict_noise_from_start.
  rewrite (built_sqrt_recip _ _ _ Hb), (built_sqrt_recipm1 _ _ _ Hb).
  rewrite !(extract_acp_ok _ _ _ Hb) by assumption.
  rewrite Hacp. cbn [rbind map nth Z.to_nat Pos.to_nat Pos.iter_op Nat.add].
  rewrite (sqrt_neg_0 (1 / -8.55 - 1)) by lra.
  unfold bdiv, tsub, t3map2, bmul. cbn [map map2].
  intros H. apply Ok_inj in H. injection H as H.
  unfold Rdiv in H. rewrite Rinv_0 in H. lra.
Qed.

(** ** The ancestral step *)

Lemma badd_zero (x : Tensor3) (c : list R) :
  (length x <= length c)%nat -> badd x (map (fun s => s * 0) c) = x.
Proof.
  unfold badd. revert c; induction x as [|xi x IH]; intros [|c0 c] Hlen;
    cbn [map map2 length] in *; try lia; try reflexivity.
  rewrite IH by lia. f_equal.
  rewrite <- (map_id xi) at 2. apply map_ext; intros row.
  rewrite <- (map_id row) at 2. apply map_ext; intros v. ring.
Qed.

Lemma q_posterior_lengths e x_start x t mu v lv :
  q_posterior e x_start x t = Ok (mu, v, lv) -> (length mu <= length lv)%nat.
Proof.
  unfold q_posterior.
  destruct (extract (posterior_mean_coef1 e) t) as [c1|] eqn:E1; [|discriminate].
  destruct (extract (posterior_mean_coef2 e) t) as [c2|] eqn:E2; [|discriminate].
  destruct (extract (posterior_variance e) t) as [pv|] eqn:E3; [|discriminate].
  destruct (extract (posterior_log_variance_clipped e) t) as [plv|] eqn:E4; [|discriminate].
  cbn [rbind]. intros H; apply Ok_inj in H. injection H as <- <- <-.
  apply extract_length in E1, E4.
  unfold tadd, t3map2, bmul. rewrite !map2_length. lia.
Qed.

Lemma p_mean_variance_lengths e x t cond inits cond_scale phi clip w mu v lv xs w' :
  p_mean_variance e x t cond inits cond_scale phi clip w = Ok ((mu, v, lv, xs), w') ->
  (length mu <= length lv)%nat.
Proof.
  unfold p_mean_variance, bind.
  destruct (model_predictions _ _ _ _ _ _ _ _ _ w) as [[preds w1]|]; [|discriminate].
  unfold lift.
  destruct (q_posterior _ _ _ _) as [[[mu' v'] lv']|] eqn:Eq; [|discriminate].
  unfold ret. intros H; apply Ok_inj in H. injection H as <- <- <- <- <-.
  eapply q_posterior_lengths; eauto.
Qed.

(** C2: at t = 0 the ancestral step returns the posterior mean itself and
    draws nothing; at every t > 0 it draws one noise tensor of the shape of
    x and adds it, scaled by the posterior standard deviation. *)
Theorem p_sample_noise e x t cond inits cond_scale phi clip w mu v lv x_start w' :
  p_mean_variance e x (repeat t (length x)) cond inits cond_scale phi clip w
    = Ok ((mu, v, lv, x_start), w') ->
  (t = 0%Z ->
   p_sample e x t cond inits cond_scale phi clip w = Ok ((mu, x_start), w')) /\
  ((0 < t)%Z ->
   p_sample e x t cond inits cond_scale phi clip w =
   Ok ((tadd mu (bmul (map (fun l => exp (0.5 * l)) lv) (fill3 (rng w' (draws w')) x)),
        x_start),
       next_draw EvRandn w')).
Proof.
  intros Hpmv. pose proof (p_mean_variance_lengths _ _ _ _ _ _ _ _ _ _ _ _ _ _ Hpmv) as Hlen.
  unfold p_sample, bind. rewrite Hpmv. split.
  - intros ->. cbn [Z.ltb Z.compare]. unfold ret.
    rewrite badd_zero by (now rewrite length_map). reflexivity.
  - intros Ht. destruct (Z.ltb_spec 0 t); [|lia]. reflexivity.
Qed.

Lemma p_sample_noise_witness :
  exists e r0 w0 r1 w1,
    GaussianDiffusionConditional_init toy_net (config "cosine" 4 None "pred_v") = Ok e /\
    p_sample e [[[0]]] 0 [[0]] [[0; 0; 0; 0]] 1 0 true still_world = Ok (r0, w0) /\
    p_sample e [[[0]]] 1 [[0]] [[0; 0; 0; 0]] 1 0 true still_world = Ok (r1, w1).
Proof.
  destruct (cosine_engine false 4 None "pred_v"%string) as (e & He & Hb & _ & HT);
    [lia|reflexivity|discriminate|].
  destruct (p_mean_variance_returns _ _ e Hb [[[0]]] (repeat 0%Z 1) [[0]] [[0; 0; 0; 0]]
              1 0 true (in_range_repeat e 0%Z 1 ltac:(lia)) still_world)
    as ([[[mu0 v0] lv0] xs0] & w0 & Hpmv0).
  destruct (p_mean_variance_returns _ _ e Hb [[[0]]] (repeat 1%Z 1) [[0]] [[0; 0; 0; 0]]
              1 0 true (in_range_repeat e 1%Z 1 ltac:(lia)) still_world)
    as ([[[mu1 v1] lv1] xs1] & w1 & Hpmv1).
  exists e. eexists. eexists. eexists. eexists. split; [exact He|]. split.
  - exact (proj1 (p_sample_noise e [[[0]]] 0%Z _ _ _ _ _ _ _ _ _ _ _ Hpmv0) eq_refl).
  - exact (proj2 (p_sample_noise e [[[0]]] 1%Z _ _ _ _ _ _ _ _ _ _ _ Hpmv1) eq_refl).
Defined.

(** ** The DDIM time pairs *)

Lemma trunc_bounds r lo hi : IZR lo <= r <= IZR hi -> (lo <= trunc r <= hi)%Z.
Proof.
  intros [Hlo Hhi]. unfold trunc. destruct (Rle_dec 0 r) as [Hr|Hr].
  - destruct (base_Int_part r) as [H1 H2]. split.
    + assert (IZR lo < IZR (Int_part r + 1)) by (rewrite plus_IZR; lra).
      apply lt_IZR in H. lia.
    + apply le_IZR. lra.
  - destruct (base_Int_part (- r)) as [H1 H2]. split.
    + apply le_IZR. rewrite opp_IZR. lra.
    + assert (IZR (- Int_part (- r) - 1) < IZR hi) by (rewrite minus_IZR, opp_IZR; lra).
      apply lt_IZR in H. lia.
Qed.

Lemma trunc_IZR z : trunc (IZR z) = z.
Proof.
  pose proof (trunc_bounds (IZR z) z z ltac:(lra)). lia.
Qed.

Lemma trunc_eq r z : r = IZR z -> trunc r = z.
Proof. intros ->. apply trunc_IZR. Qed.

Lemma trunc_quot a s : (0 < s)%Z -> trunc (IZR a / IZR s) = (a ÷ s)%Z.
Proof.
  intros Hs.
  assert (Hsr : 0 < IZR s) by (apply (IZR_lt 0); lia).
  pose proof (Z.quot_rem a s ltac:(lia)) as Hqr.
  assert (Hx : IZR a / IZR s = IZR (a ÷ s) + IZR (Z.rem a s) / IZR s).
  { rewrite Hqr at 1. rewrite plus_IZR, mult_IZR. field. lra. }
  unfold trunc. destruct (Rle_dec 0 (IZR a / IZR s)) as [Hx0|Hx0].
  - assert (Ha : (0 <= a)%Z).
    { destruct (Z.ltb_spec a 0) as [Hneg|]; [|assumption]. exfalso.
      apply (IZR_lt a 0) in Hneg.
      assert (IZR a / IZR s < 0); [|lra].
      unfold Rdiv. assert (0 < / IZR s) by (apply Rinv_0_lt_compat; lra). nra. }
    pose proof (Z.rem_bound_pos_pos a s Hs Ha) as [Hr0 Hr1].
    apply IZR_le in Hr0. apply IZR_lt in Hr1.
    symmetry. apply Int_part_spec. rewrite Hx.
    assert (0 <= IZR (Z.rem a s) / IZR s < 1).
    { split; [apply Rmult_le_pos; [lra|left; apply Rinv_0_lt_compat; lra]|].
      apply (Rmult_lt_reg_r (IZR s)); [lra|]. unfold Rdiv.
      rewrite Rmult_assoc, Rinv_l by lra. lra. }
    lra.
  - assert (Ha : (a <= 0)%Z).
    { destruct (Z.ltb_spec 0 a) as [Hpos|]; [|assumption]. exfalso.
      apply (IZR_lt 0 a) in Hpos. apply Hx0.
      apply Rmult_le_pos; [lra|left; apply Rinv_0_lt_compat; lra]. }
    pose proof (Z.rem_bound_pos_neg a s Hs Ha) as [Hr0 Hr1].
    apply IZR_lt in Hr0. apply IZR_le in Hr1. rewrite opp_IZR in Hr0.
    assert (Heq : (- (a ÷ s))%Z = Int_part (- (IZR a / IZR s))).
    { apply Int_part_spec. rewrite Hx, opp_IZR.
      assert (-1 < IZR (Z.rem a s) / IZR s <= 0).
      { split.
        - apply (Rmult_lt_reg_r (IZR s)); [lra|]. unfold Rdiv.
          rewrite Rmult_assoc, Rinv_l by lra. lra.
        - unfold Rdiv. assert (0 < / IZR s) by (apply Rinv_0_lt_compat; lra). nra. }
      lra. }
    rewrite <- Heq. lia.
Qed.

Lemma ddim_time_pairs_ok T S :
  (-1 <= S)%Z -> exists pairs, ddim_time_pairs T S = Ok pairs.
Proof.
  intros H. unfold ddim_time_pairs.
  destruct (linspace_ok (-1) (IZR (T - 1)) (S + 1) ltac:(lia)) as (l & -> & _).
  cbn [rbind]. eauto.
Qed.

Lemma ddim_time_pairs_in_range T S pairs :
  (S <= T)%Z ->
  ddim_time_pairs T S = Ok pairs ->
  forall a b, In (a, b) pairs -> (0 <= a < T)%Z /\ (b < T)%Z.
Proof.
  intros HST. unfold ddim_time_pairs, linspace.
  destruct (Z.ltb_spec (S + 1) 0); [discriminate|].
  destruct (Z.eqb_spec (S + 1) 1).
  { cbn. intros Hp; apply Ok_inj in Hp; subst. intros a b []. }
  cbn [rbind]. intros Hp; apply Ok_inj in Hp; subst pairs. intros a b Hab.
  destruct (Z.eqb_spec S (-1)) as [->|HS1].
  { cbn in Hab. destruct Hab. }
  assert (HS : (1 <= S)%Z) by lia.
  replace (S + 1 - 1)%Z with S in Hab by lia.
  set (f := fun i : nat => -1 + INR i * ((IZR (T - 1) - -1) / IZR S)) in *.
  assert (Hf : forall i, (i <= Z.to_nat S)%nat ->
             IZR (-1) <= f i <= IZR (T - 1) /\ ((1 <= i)%nat -> IZR 0 <= f i)).
  { intros i Hi. subst f; cbn beta.
    assert (HSr : 1 <= IZR S) by (apply (IZR_le 1); lia).
    assert (HTr : IZR S <= IZR T) by (apply IZR_le; lia).
    assert (Hi0 : 0 <= INR i) by apply pos_INR.
    assert (Hi1 : INR i <= IZR S).
    { rewrite INR_IZR_INZ. apply IZR_le. lia. }
    assert (Hv : 0 < / IZR S) by (apply Rinv_0_lt_compat; lra).
    assert (Hv1 : IZR S * / IZR S = 1) by (apply Rinv_r; lra).
    rewrite minus_IZR. unfold Rdiv.
    replace (-1 + INR i * ((IZR T - 1 - -1) * / IZR S))
      with (-1 + (INR i * / IZR S) * IZR T) by ring.
    set (q := INR i * / IZR S).
    assert (Hq0 : 0 <= q) by (apply Rmult_le_pos; lra).
    assert (Hq1 : q <= 1) by (subst q; nra).
    split; [split; [nra|nra]|].
    intros Hi'. assert (1 <= INR i) by (apply (le_INR 1); lia).
    assert (/ IZR S <= q) by (subst q; nra).
    assert (1 <= / IZR S * IZR T) by nra.
    nra. }
  rewrite removelast_rev in Hab.
  pose proof (in_combine_l _ _ _ _ Hab) as Ha.
  pose proof (in_combine_r _ _ _ _ Hab) as Hb.
  apply In_rev in Ha. destruct (Z.to_nat (S + 1)) as [|k] eqn:Ek; [lia|].
  cbn [seq map tl] in Ha. rewrite <- seq_shift, !map_map in Ha.
  apply in_map_iff in Ha as (i & <- & Hi). apply in_seq in Hi.
  assert (Hbin : In b (map trunc (map f (seq 0 (Datatypes.S k))))).
  { destruct (rev (map trunc (map f (seq 0 (Datatypes.S k))))) as [|h tl'] eqn:Er;
      [destruct Hb|].
    apply In_rev. rewrite Er. now right. }
  rewrite map_map in Hbin. apply in_map_iff in Hbin as (j & <- & Hj). apply in_seq in Hj.
  destruct (Hf (Datatypes.S i) ltac:(lia)) as [[H1 H2] H3].
  destruct (Hf j ltac:(lia)) as [[H4 H5] _].
  pose proof (trunc_bounds _ 0 (T - 1) (conj (H3 ltac:(lia)) H2)).
  pose proof (trunc_bounds _ (-1) (T - 1) (conj H4 H5)).
  lia.
Qed.

Lemma dense_times n :
  combine (removelast (rev (map (fun i => Z.of_nat i - 1)%Z (seq 0 (S n)))))
          (tl (rev (map (fun i => Z.of_nat i - 1)%Z (seq 0 (S n))))) =
  map (fun t => (t, t - 1)%Z) (map Z.of_nat (rev (seq 0 n))).
Proof.
  induction n as [|n IH]; [reflexivity|].
  rewrite (rev_map_seq_S _ (S n)). rewrite rev_map_seq_S in IH |- *.
  cbn [tl] in IH |- *.
  rewrite <- (map_id (seq 0 (S n))), (rev_map_seq_S (fun i => i) n), map_id.
  cbn [map removelast combine]. rewrite <- IH.
  f_equal. f_equal; lia.
Qed.

Lemma ddim_time_pairs_dense K :
  (0 <= K)%Z -> ddim_time_pairs K K = Ok (dense_pairs K).
Proof.
  intros HK. unfold ddim_time_pairs, linspace, dense_pairs, reversed_range.
  destruct (Z.ltb_spec (K + 1) 0); [lia|].
  destruct (Z.eqb_spec (K + 1) 1) as [H1|H1].
  { assert (K = 0%Z) as -> by lia. reflexivity. }
  cbn [rbind]. f_equal.
  replace (Z.to_nat (K + 1)) with (S (Z.to_nat K)) by lia.
  rewrite <- dense_times. rewrite map_map.
  assert (Hext : map (fun x => trunc (-1 + INR x * ((IZR (K - 1) - -1) / IZR (K + 1 - 1))))
                     (seq 0 (S (Z.to_nat K))) =
                 map (fun i => Z.of_nat i - 1)%Z (seq 0 (S (Z.to_nat K)))).
  { apply map_ext; intros i.
    replace (-1 + INR i * ((IZR (K - 1) - -1) / IZR (K + 1 - 1))) with (IZR (Z.of_nat i - 1)).
    - apply trunc_IZR.
    - rewrite !minus_IZR, plus_IZR, <- INR_IZR_INZ.
      assert (1 <= IZR K) by (apply (IZR_le 1); lia). field. lra. }
  now rewrite Hext.
Qed.

Lemma ddim_times_closed T S :
  (1 <= S)%Z ->
  rbind (linspace (-1) (IZR (T - 1)) (S + 1)) (fun ts => Ok (map trunc ts)) =
  Ok (ddim_times T S).
Proof.
  intros HS. unfold linspace, ddim_times.
  destruct (Z.ltb_spec (S + 1) 0); [lia|].
  destruct (Z.eqb_spec (S + 1) 1); [lia|].
  cbn [rbind]. f_equal. rewrite map_map. apply map_ext; intros i.
  rewrite <- trunc_quot by lia. f_equal.
  replace (S + 1 - 1)%Z with S by lia.
  rewrite !minus_IZR, mult_IZR, <- INR_IZR_INZ.
  assert (1 <= IZR S) by (apply (IZR_le 1); lia). field. lra.
Qed.

Lemma ddim_time_pairs_closed T S :
  (1 <= S)%Z ->
  ddim_time_pairs T S =
  Ok (combine (removelast (rev (ddim_times T S))) (tl (rev (ddim_times T S)))).
Proof.
  intros HS. pose proof (ddim_times_closed T S HS) as H.
  unfold ddim_time_pairs.
  destruct (linspace (-1) (IZR (T - 1)) (S + 1)) as [ts|]; [|discriminate].
  cbn [rbind] in *. apply Ok_inj in H. now rewrite H.
Qed.

Example ddim_time_pairs_1000_250_head :
  exists rest, ddim_time_pairs 1000 250 = Ok ((999, 995) :: (995, 991) :: rest)%Z.
Proof. rewrite ddim_time_pairs_closed by lia. eexists. vm_compute. reflexivity. Qed.

Lemma ddim_time_pairs_4_2 : ddim_time_pairs 4 2 = Ok [(3, 1); (1, -1)]%Z.
Proof. rewrite ddim_time_pairs_closed by lia. reflexivity. Qed.

Lemma ddim_time_pairs_10_5 :
  ddim_time_pairs 10 5 = Ok [(9, 7); (7, 5); (5, 3); (3, 1); (1, -1)]%Z.
Proof. rewrite ddim_time_pairs_closed by lia. reflexivity. Qed.

(** ** DDIM sampling with eta = 0 *)

Lemma tscale_zero_fill g x : tscale 0 (fill3 g x) = t3map (fun _ => 0) x.
Proof.
  unfold tscale, t3map, fill3, imap.
  apply map_imap_from; intros i xi.
  apply map_imap_from; intros j xij.
  apply map_imap_from; intros l v. apply Rmult_0_l.
Qed.

Lemma ddim_step_pure e batch cond inits cond_scale phi clip img pair :
  ddim_sampling_eta e = 0 ->
  pure_with (ddim_step e batch cond inits cond_scale phi clip img pair)
            (ddim_step_events e batch cond inits cond_scale pair).
Proof.
  intros Heta. destruct pair as [time time_next].
  unfold ddim_step, ddim_step_events. cbn [fst snd].
  apply pure_bind; [apply model_predictions_pure|]. intros [pred_noise x_start].
  destruct (Z.ltb_spec time_next 0); [apply pure_ret|].
  destruct (index (alphas_cumprod e) time) as [alpha|ex] eqn:Ha.
  2:{ exists (Raise ex); intros w; reflexivity. }
  destruct (index (alphas_cumprod e) time_next) as [alpha_next|ex] eqn:Ha'.
  2:{ exists (Raise ex); intros w; reflexivity. }
  exists (Ok (tadd (tadd (tscale (sqrt alpha_next) x_start)
                         (tscale (sqrt (1 - alpha_next - 0 ^ 2)) pred_noise))
                   (t3map (fun _ => 0) img))).
  intros w. unfold bind, lift, randn_like, ret, outcome.
  rewrite Heta, Rmult_0_l, tscale_zero_fill, next_draw_advance by reflexivity.
  reflexivity.
Qed.

(** The DDIM loop over in-range pairs, with eta = 0: one value, whatever
    the world, and the events of every pair. *)
Lemma ddim_loop_run m cfg e batch cond inits cond_scale phi clip pairs img :
  built m cfg e ->
  ddim_sampling_eta e = 0 ->
  (forall a b, In (a, b) pairs -> (0 <= a < num_timesteps e)%Z /\ (b < num_timesteps e)%Z) ->
  exists out, forall w,
    foldM (ddim_step e batch cond inits cond_scale phi clip) pairs img w =
    Ok (out, advance w (concat (map (ddim_step_events e batch cond inits cond_scale) pairs))).
Proof.
  intros Hb Heta Hin. apply pure_returns_value.
  - apply pure_foldM. intros s a. now apply ddim_step_pure.
  - apply returns_foldM. intros s [a b] Hab. destruct (Hin a b Hab).
    eapply ddim_step_returns; eauto.
Qed.

Lemma ddim_sample_run m cfg e shape cond inits cond_scale phi clip :
  built m cfg e ->
  ddim_sampling_eta e = 0 ->
  (-1 <= sampling_timesteps e)%Z ->
  exists pairs,
    ddim_time_pairs (num_timesteps e) (sampling_timesteps e) = Ok pairs /\
    forall w1 w2,
      fill3 (rng w1 (draws w1)) (zeros3 shape) = fill3 (rng w2 (draws w2)) (zeros3 shape) ->
      exists img w1' w2',
        ddim_sample e shape cond inits cond_scale phi clip w1 = Ok (img, w1') /\
        ddim_sample e shape cond inits cond_scale phi clip w2 = Ok (img, w2') /\
        trace w1' = trace w1 ++ EvRandn ::
          concat (map (ddim_step_events e (fst (fst shape)) cond inits cond_scale) pairs) /\
        trace w2' = trace w2 ++ EvRandn ::
          concat (map (ddim_step_events e (fst (fst shape)) cond inits cond_scale) pairs).
Proof.
  intros Hb Heta HS.
  destruct (ddim_time_pairs_ok (num_timesteps e) _ HS) as [pairs Hp].
  exists pairs; split; [assumption|]. intros w1 w2 Hstart.
  pose proof (ddim_time_pairs_in_range _ _ _ (built_sampling_le _ _ _ Hb) Hp) as Hin.
  destruct (ddim_loop_run m cfg e (fst (fst shape)) cond inits cond_scale phi clip pairs
              (fill3 (rng w1 (draws w1)) (zeros3 shape)) Hb Heta Hin) as [out Hout].
  exists (unnormalize e out). eexists. eexists.
  unfold ddim_sample, bind, lift, randn, randn_like, ret.
  rewrite Hp, <- !Hstart, !Hout.
  repeat split; apply trace_next_draw_advance.
Qed.

(** C1, as the code has it: with eta = 0 two runs from the same starting sample return
    the same output whatever noise their generators hold, although the loop
    draws a noise tensor at every pair that is not the last (the draw is
    multiplied by sigma = 0). *)
Theorem ddim_eta_zero_deterministic m cfg e shape cond inits cond_scale phi clip :
  GaussianDiffusionConditional_init m cfg = Ok e ->
  cfg_ddim_sampling_eta cfg = 0 ->
  (-1 <= sampling_timesteps e)%Z ->
  exists pairs,
    ddim_time_pairs (num_timesteps e) (sampling_timesteps e) = Ok pairs /\
    forall w1 w2,
      fill3 (rng w1 (draws w1)) (zeros3 shape) = fill3 (rng w2 (draws w2)) (zeros3 shape) ->
      exists img w1' w2',
        ddim_sample e shape cond inits cond_scale phi clip w1 = Ok (img, w1') /\
        ddim_sample e shape cond inits cond_scale phi clip w2 = Ok (img, w2') /\
        trace w1' = trace w1 ++ EvRandn ::
          concat (map (ddim_step_events e (fst (fst shape)) cond inits cond_scale) pairs) /\
        trace w2' = trace w2 ++ EvRandn ::
          concat (map (ddim_step_events e (fst (fst shape)) cond inits cond_scale) pairs).
Proof.
  intros He Heta HS. pose proof (init_inv _ _ _ He) as Hb.
  eapply ddim_sample_run; eauto. now rewrite (built_eta _ _ _ Hb).
Qed.

Lemma ddim_eta_zero_deterministic_witness :
  exists e img w1' w2',
    GaussianDiffusionConditional_init toy_net (config "cosine" 4 (Some 2%Z) "pred_v") = Ok e /\
    ddim_sample e (1, 1, 1)%nat [[0]] [[0; 0; 0; 0]] 1 0 true still_world = Ok (img, w1') /\
    ddim_sample e (1, 1, 1)%nat [[0]] [[0; 0; 0; 0]] 1 0 true noisy_world = Ok (img, w2').
Proof.
  destruct (cosine_engine false 4 (Some 2%Z) "pred_v"%string) as (e & He & Hb & _ & HT);
    [lia|reflexivity|intros s [= <-]; lia|].
  assert (HS : (-1 <= sampling_timesteps e)%Z)
    by (rewrite (built_sampling _ _ _ Hb); cbn; lia).
  destruct (ddim_eta_zero_deterministic toy_net _ e (1, 1, 1)%nat [[0]] [[0; 0; 0; 0]]
              1 0 true He eq_refl HS) as (pairs & _ & Hrun).
  destruct (Hrun still_world noisy_world eq_refl) as (img & w1' & w2' & H1 & H2 & _).
  exists e, img, w1', w2'. auto.
Defined.

(** C1 as stated fails: with eta = 0 the loop still draws noise. T = 4 and
    two sampling steps give the pairs (3, 1), (1, -1); the log shows the
    draw of the starting sample, the network call at time 3, a second draw,
    and the network call at time 1. *)
Lemma ddim_eta_zero_draws_noise :
  exists e img w',
    GaussianDiffusionConditional_init toy_net (config "cosine" 4 (Some 2%Z) "pred_v") = Ok e /\
    ddim_sampling_eta e = 0 /\
    ddim_sample e (1, 1, 1)%nat [[0]] [[0; 0; 0; 0]] 1 0 true still_world = Ok (img, w') /\
    trace w' = [EvRandn;
                EvForward [3%Z] [[0]] (Some [[0; 0; 0; 0]]) (Some 0);
                EvRandn;
                EvForward [1%Z] [[0]] (Some [[0; 0; 0; 0]]) (Some 0)].
Proof.
  destruct (cosine_engine false 4 (Some 2%Z) "pred_v"%string) as (e & He & Hb & _ & HT);
    [lia|reflexivity|intros s [= <-]; lia|].
  assert (Heta : ddim_sampling_eta e = 0) by (now rewrite (built_eta _ _ _ Hb)).
  assert (HS : sampling_timesteps e = 2%Z) by (now rewrite (built_sampling _ _ _ Hb)).
  destruct (ddim_sample_run _ _ e (1, 1, 1)%nat [[0]] [[0; 0; 0; 0]] 1 0 true Hb Heta
              ltac:(lia)) as (pairs & Hp & Hrun).
  rewrite HT, HS, ddim_time_pairs_4_2 in Hp. apply Ok_inj in Hp. subst pairs.
  destruct (Hrun still_world still_world eq_refl) as (img & w' & _ & Hw & _ & Htr & _).
  exists e, img, w'. repeat split; auto.
  rewrite Htr. unfold ddim_step_events, mp_events. cbn [map concat fst snd repeat].
  rewrite (built_guidance _ _ _ Hb), !fw_events_one. reflexivity.
Qed.

(** ** Diffuse to a timestep *)

Lemma nth_alphas l i :
  (i < length l)%nat -> nth i (map (fun b => 1 - b) l) 0 = 1 - nth i l 0.
Proof. apply (nth_map_in (fun b => 1 - b)). Qed.

Lemma diffuse_at e data t w i :
  index (map (fun b => 1 - b) (betas e)) (t - 1) = Ok (1 - nth i (betas e) 0) ->
  diffuse e data t w =
  Ok (tadd (tscale (sqrt (1 - nth i (betas e) 0)) data)
           (tscale (sqrt (1 - (1 - nth i (betas e) 0))) (fill3 (rng w (draws w)) data)),
      next_draw EvRandn w).
Proof.
  intros H. unfold diffuse, bind, randn_like, lift. now rewrite H.
Qed.

(** C7: for t in [1, T-1], diffuse scales the data by the square root of the
    per-step alpha at index t-1, [1 - beta_(t-1)], and one freshly drawn
    noise tensor by the square root of its complement, while [q_sample] at
    the same timestep takes the square roots from the cumulative product at
    index t. *)
Theorem diffuse_uses_step_alpha m cfg e data t noise w :
  GaussianDiffusionConditional_init m cfg = Ok e ->
  (1 <= t <= num_timesteps e - 1)%Z ->
  diffuse e data t w =
    Ok (tadd (tscale (sqrt (1 - nth (Z.to_nat (t - 1)) (betas e) 0)) data)
             (tscale (sqrt (1 - (1 - nth (Z.to_nat (t - 1)) (betas e) 0)))
                     (fill3 (rng w (draws w)) data)),
        next_draw EvRandn w) /\
  q_sample e data (repeat t (length data)) (Some noise) w =
    Ok (tadd (bmul (repeat (sqrt (nth (Z.to_nat t)
                                   (cumprod (map (fun b => 1 - b) (betas e))) 0))
                           (length data)) data)
             (bmul (repeat (sqrt (1 - nth (Z.to_nat t)
                                   (cumprod (map (fun b => 1 - b) (betas e))) 0))
                           (length data)) noise),
        w).
Proof.
  intros He Ht. pose proof (init_inv _ _ _ He) as Hb.
  pose proof (built_num _ _ _ Hb) as HT. split.
  - apply diffuse_at. rewrite index_nonneg by (rewrite length_map; lia).
    rewrite nth_alphas by lia. reflexivity.
  - unfold q_sample, bind, ret, lift.
    rewrite (built_sqrt_acp _ _ _ Hb), (built_sqrt_1m_acp _ _ _ Hb).
    rewrite !(extract_acp_ok _ _ _ Hb) by (apply in_range_repeat; lia).
    rewrite !map_repeat.
    rewrite !nth_map_in by (rewrite (built_len_acp _ _ _ Hb); lia).
    now rewrite (built_acp _ _ _ Hb).
Qed.

Lemma diffuse_uses_step_alpha_witness :
  exists e r,
    GaussianDiffusionConditional_init toy_net (config "cosine" 4 None "pred_v") = Ok e /\
    diffuse e [[[1]]] 2 still_world = Ok r.
Proof.
  destruct (cosine_engine false 4 None "pred_v"%string) as (e & He & _ & _ & HT);
    [lia|reflexivity|discriminate|].
  exists e. eexists. split; [assumption|].
  exact (proj1 (diffuse_uses_step_alpha toy_net _ e [[[1]]] 2%Z [[[0]]] still_world He
                  ltac:(lia))).
Defined.

(** C10: on an engine with at least one timestep, diffuse at target
    timestep 0 returns: it reads index -1, which wraps to the last entry, so
    the data is scaled with the per-step alpha of timestep T-1.  With two
    timesteps or more the alpha of timestep 0 is not used: an engine whose
    betas differ in the first entry only gives the same result. *)
Theorem diffuse_zero_wraps e data w :
  (0 < length (betas e))%nat ->
  diffuse e data 0 w =
    Ok (tadd (tscale (sqrt (1 - nth (length (betas e) - 1) (betas e) 0)) data)
             (tscale (sqrt (1 - (1 - nth (length (betas e) - 1) (betas e) 0)))
                     (fill3 (rng w (draws w)) data)),
        next_draw EvRandn w) /\
  ((2 <= length (betas e))%nat ->
   forall e', tl (betas e') = tl (betas e) -> diffuse e' data 0 w = diffuse e data 0 w).
Proof.
  intros HT.
  assert (Hlast : forall e0, (0 < length (betas e0))%nat ->
            diffuse e0 data 0 w =
            Ok (tadd (tscale (sqrt (1 - nth (length (betas e0) - 1) (betas e0) 0)) data)
                     (tscale (sqrt (1 - (1 - nth (length (betas e0) - 1) (betas e0) 0)))
                             (fill3 (rng w (draws w)) data)),
                next_draw EvRandn w)).
  { intros e0 H0. apply diffuse_at. change (0 - 1)%Z with (-1)%Z.
    rewrite index_last by (now rewrite length_map).
    rewrite length_map, nth_alphas by lia. reflexivity. }
  split; [exact (Hlast e HT)|].
  intros H2 e' Htl.
  destruct (betas e) as [|b0 [|b1 rest]] eqn:Eb; cbn [length] in H2; try lia.
  destruct (betas e') as [|b0' rest'] eqn:Eb'; cbn [tl] in Htl; [discriminate|subst rest'].
  rewrite (Hlast e'), (Hlast e) by (rewrite ?Eb, ?Eb'; cbn [length]; lia).
  rewrite Eb, Eb'. reflexivity.
Qed.

Lemma diffuse_zero_wraps_witness :
  exists e r,
    GaussianDiffusionConditional_init toy_net (config "cosine" 4 None "pred_v") = Ok e /\
    diffuse e [[[1]]] 0 still_world = Ok r /\
    forall e', tl (betas e') = tl (betas e) ->
      diffuse e' [[[1]]] 0 still_world = diffuse e [[[1]]] 0 still_world.
Proof.
  destruct (cosine_engine false 4 None "pred_v"%string) as (e & He & _ & Hlen & _);
    [lia|reflexivity|discriminate|].
  change (Z.to_nat 4) with 4%nat in Hlen.
  exists e. eexists. split; [assumption|]. split.
  - exact (proj1 (diffuse_zero_wraps e [[[1]]] still_world ltac:(lia))).
  - exact (proj2 (diffuse_zero_wraps e [[[1]]] still_world ltac:(lia)) ltac:(lia)).
Defined.

(** C10 as stated fails on the two shortest schedules.  With the cosine
    schedule and no timestep the engine is constructed, and diffuse at
    target timestep 0 raises IndexError.  With one timestep index -1 is
    index 0: the alpha of timestep 0 is the one used, and the call is the
    one for target timestep 1. *)
Lemma diffuse_zero_short_schedules :
  (exists e,
     GaussianDiffusionConditional_init toy_net (config "cosine" 0 None "pred_v") = Ok e /\
     diffuse e [[[1]]] 0 still_world = Raise IndexError) /\
  (exists e,
     GaussianDiffusionConditional_init toy_net (config "cosine" 1 None "pred_v") = Ok e /\
     diffuse e [[[1]]] 0 still_world =
       Ok (tadd (tscale (sqrt (1 - nth 0 (betas e) 0)) [[[1]]])
                (tscale (sqrt (1 - (1 - nth 0 (betas e) 0)))
                        (fill3 (rng still_world (draws still_world)) [[[1]]])),
           next_draw EvRandn still_world) /\
     diffuse e [[[1]]] 0 still_world = diffuse e [[[1]]] 1 still_world).
Proof.
  split.
  - destruct (init_ok toy_net (config "cosine" 0 None "pred_v")) as [e He];
      [reflexivity|reflexivity| |discriminate|].
    { right. split; [reflexivity|discriminate]. }
    exists e; split; [assumption|].
    pose proof (built_betas _ _ _ (init_inv _ _ _ He)) as Hbs.
    cbn [cfg_beta_schedule cfg_timesteps config config_with] in Hbs.
    destruct (build_betas_ok "cosine" 0 eq_refl) as (l & Hl & Hlen).
    { right. split; [reflexivity|discriminate]. }
    assert (Hnil : betas e = l) by congruence.
    destruct l; [|discriminate].
    unfold diffuse, bind, randn_like, lift. rewrite Hnil. reflexivity.
  - destruct (cosine_engine false 1 None "pred_v"%string) as (e & He & _ & Hlen & _);
      [lia|reflexivity|discriminate|].
    exists e. split; [assumption|].
    change (Z.to_nat 1) with 1%nat in Hlen.
    assert (H0 : diffuse e [[[1]]] 0 still_world =
                 Ok (tadd (tscale (sqrt (1 - nth 0 (betas e) 0)) [[[1]]])
                          (tscale (sqrt (1 - (1 - nth 0 (betas e) 0)))
                                  (fill3 (rng still_world (draws still_world)) [[[1]]])),
                     next_draw EvRandn still_world)).
    { apply diffuse_at. change (0 - 1)%Z with (-1)%Z.
      rewrite index_last by (rewrite length_map; lia).
      rewrite length_map, Hlen, nth_alphas by lia. reflexivity. }
    split; [exact H0|]. rewrite H0. symmetry.
    apply diffuse_at. change (1 - 1)%Z with 0%Z.
    unfold index. rewrite length_map, Hlen. cbn.
    rewrite nth_alphas by lia. reflexivity.
Qed.

(** For a regular schedule the per-step alpha that [diffuse] uses at index
    t-1 lies strictly above the cumulative product that [q_sample] uses at
    t, from t = 2 on: the two operations are different computations. *)
Lemma step_alpha_above_cumulative m cfg e t :
  GaussianDiffusionConditional_init m cfg = Ok e ->
  regular_schedule (cfg_beta_schedule cfg) (cfg_timesteps cfg) ->
  (2 <= t <= num_timesteps e - 1)%Z ->
  nth (Z.to_nat t) (alphas_cumprod e) 0 < 1 - nth (Z.to_nat (t - 1)) (betas e) 0.
Proof.
  intros He Hreg Ht. pose proof (init_inv _ _ _ He) as Hb.
  pose proof (regular_alphas_cumprod _ _ _ He Hreg) as Hacp.
  destruct (regular_betas _ _ _ Hreg (built_betas _ _ _ Hb)) as [_ Hbs].
  pose proof (built_num _ _ _ Hb) as HT.
  rewrite Forall_forall in Hacp, Hbs.
  assert (Hlen : length (alphas_cumprod e) = length (betas e)) by apply (built_len_acp _ _ _ Hb).
  assert (Hin : forall i, (i < length (betas e))%nat ->
                  0 < nth i (alphas_cumprod e) 0 < 1 /\ 0 <= nth i (betas e) 0 < 1).
  { intros i Hi. split; [apply Hacp|apply Hbs]; apply nth_In; lia. }
  destruct (Z.to_nat t) as [|[|k]] eqn:Ek; [lia|lia|].
  replace (Z.to_nat (t - 1)) with (S k) by lia.
  assert (Hk2 : (S (S k) < length (betas e))%nat) by lia.
  destruct (Hin k ltac:(lia)) as [Hk _].
  destruct (Hin (S k) ltac:(lia)) as [_ Hb1].
  destruct (Hin (S (S k)) Hk2) as [_ Hb2].
  rewrite (built_acp _ _ _ Hb) in Hk |- *. unfold cumprod in Hk |- *.
  rewrite !nth_cumprod_from_S by (rewrite length_map; lia).
  rewrite !nth_alphas by lia.
  set (p := nth k (cumprod_from 1 (map (fun b => 1 - b) (betas e))) 0) in *.
  set (b1 := nth (S k) (betas e) 0) in *. set (b2 := nth (S (S k)) (betas e) 0) in *.
  assert (p * (1 - b1) < 1 - b1) by nra.
  assert (0 <= p * (1 - b1) * b2) by (repeat apply Rmult_le_pos; lra).
  lra.
Qed.

(** ** Resuming from a supplied sample *)

Lemma inference_below e cond inits K data cond_scale phi w :
  (0 <= K < Z.of_nat (length (betas e)))%Z ->
  inference e cond inits K data cond_scale phi w =
  (img <- foldM (ddim_step e (length cond) cond inits cond_scale phi true)
            (dense_pairs K) data ;;
   ret (unnormalize e img)) w.
Proof.
  intros HK. unfold inference. destruct (Z.ltb_spec K (Z.of_nat (length (betas e)))); [|lia].
  unfold Trainer_ddim_sample. cbn [default fst].
  unfold bind at 1. unfold lift. rewrite ddim_time_pairs_dense by lia. reflexivity.
Qed.

(** C8, as the code has it: a resume at K below T runs the DDIM update over every
    timestep below K, (K-1, K-2), ..., (0, -1), whatever sampling schedule
    the engine was configured with; a resume at K = T runs the ancestral
    chain from the supplied sample. *)
Theorem inference_resume e cond inits K data cond_scale phi w :
  (0 <= K <= Z.of_nat (length (betas e)))%Z ->
  inference e cond inits K data cond_scale phi w =
  (if (K <? Z.of_nat (length (betas e)))%Z
   then img <- foldM (ddim_step e (length cond) cond inits cond_scale phi true)
                 (dense_pairs K) data ;;
        ret (unnormalize e img)
   else img <- foldM (p_sample_step e cond inits cond_scale phi)
                 (reversed_range (Z.of_nat (length (betas e)))) data ;;
        ret (unnormalize e img)) w.
Proof.
  intros HK. destruct (Z.ltb_spec K (Z.of_nat (length (betas e)))) as [Hlt|Hge].
  - apply inference_below; lia.
  - assert (K = Z.of_nat (length (betas e))) as -> by lia.
    unfold inference. rewrite Z.ltb_irrefl. reflexivity.
Qed.

Lemma inference_resume_witness :
  exists e,
    GaussianDiffusionConditional_init toy_net (config "cosine" 4 None "pred_v") = Ok e /\
    inference e [[0]] [[0; 0; 0; 0]] 2 [[[0]]] 1 0 still_world =
    (img <- foldM (ddim_step e 1 [[0]] [[0; 0; 0; 0]] 1 0 true) (dense_pairs 2) [[[0]]] ;;
     ret (unnormalize e img)) still_world.
Proof.
  destruct (cosine_engine false 4 None "pred_v"%string) as (e & He & _ & Hlen & _);
    [lia|reflexivity|discriminate|].
  exists e. split; [assumption|].
  pose proof (inference_resume e [[0]] [[0; 0; 0; 0]] 2%Z [[[0]]] 1 0 still_world) as H.
  rewrite Hlen in H. exact (H ltac:(lia)).
Defined.

(** C8 as stated fails: an engine with T = 10 and the sampling schedule
    9, 7, 5, 3, 1 is resumed at timestep 6; the network is then called at
    5, 4, 3, 2, 1, 0, not at the remaining entries 5, 3, 1. *)
Lemma resume_leaves_the_schedule :
  exists e img w',
    GaussianDiffusionConditional_init toy_net (config "cosine" 10 (Some 5%Z) "pred_v") = Ok e /\
    ddim_time_pairs (num_timesteps e) (sampling_timesteps e) =
      Ok [(9, 7); (7, 5); (5, 3); (3, 1); (1, -1)]%Z /\
    inference e [[0]] [[0; 0; 0; 0]] 6 [[[0]]] 1 0 still_world = Ok (img, w') /\
    forward_times (trace w') = [[5]; [4]; [3]; [2]; [1]; [0]]%Z.
Proof.
  destruct (cosine_engine false 10 (Some 5%Z) "pred_v"%string) as (e & He & Hb & Hlen & HT);
    [lia|reflexivity|intros s [= <-]; lia|].
  assert (HS : sampling_timesteps e = 5%Z) by (now rewrite (built_sampling _ _ _ Hb)).
  assert (Heta : ddim_sampling_eta e = 0) by (now rewrite (built_eta _ _ _ Hb)).
  destruct (ddim_loop_run _ _ e 1%nat [[0]] [[0; 0; 0; 0]] 1 0 true (dense_pairs 6) [[[0]]]
              Hb Heta) as [out Hout].
  { intros a b Hab. pose proof (ddim_time_pairs_in_range 6 6 _ ltac:(lia)
                                  (ddim_time_pairs_dense 6 ltac:(lia)) a b Hab). lia. }
  exists e, (unnormalize e out). eexists.
  split; [assumption|]. split; [rewrite HT, HS; apply ddim_time_pairs_10_5|].
  rewrite inference_below by (rewrite Hlen; lia).
  cbn [length]. unfold bind. rewrite Hout. unfold ret. split; [reflexivity|].
  cbn [trace advance still_world app].
  unfold ddim_step_events, mp_events. rewrite (built_guidance _ _ _ Hb).
  cbn [cfg_classifier_free_guidance config config_with].
  change (dense_pairs 6) with [(5, 4); (4, 3); (3, 2); (2, 1); (1, 0); (0, -1)]%Z.
  cbn [map fst snd]. rewrite !fw_events_one. reflexivity.
Qed.

(** ** The training loss *)

Lemma Rgtb_true a b : b < a -> Rgtb a b = true.
Proof. intros H; unfold Rgtb; destruct (Rlt_dec b a); [reflexivity|contradiction]. Qed.

Lemma Rgtb_false a b : a <= b -> Rgtb a b = false.
Proof. intros H; unfold Rgtb; destruct (Rlt_dec b a); [lra|reflexivity]. Qed.

(** C9 on the code: with classifier-free guidance on and drop_prob = 0.1,
    a uniform draw of 0.05 for the first entry and 0.5 for the second entry
    of one condition vector zeroes the first entry and keeps the second: the
    network receives [0; 1] for the condition [1; 1]. *)
Lemma p_losses_masks_entries :
  exists e loss w',
    GaussianDiffusionConditional_init toy_net
      (config_with true "cosine" 1 None "pred_noise") = Ok e /\
    p_losses e [[[0]]] [0%Z] [[1; 1]] [[1; 1; 1; 1]] (Some [[[0]]]) mask_world
      = Ok (loss, w') /\
    trace w' = [EvRand; EvRand;
                EvForward [0%Z] [[0; 1]] (Some [[1; 1; 1; 1]]) None].
Proof.
  destruct (cosine_engine true 1 None "pred_noise"%string) as (e & He & Hb & Hlen & HT);
    [lia|reflexivity|discriminate|].
  assert (Hr : in_range e [0%Z]) by (constructor; [lia|constructor]).
  exists e. eexists. eexists. split; [exact He|].
  unfold p_losses, q_sample, FullyConditionedUnet_forward.
  rewrite (built_guidance _ _ _ Hb), (built_drop_prob _ _ _ Hb), (built_model _ _ _ Hb),
    (built_objective _ _ _ Hb), (built_sqrt_acp _ _ _ Hb), (built_sqrt_1m_acp _ _ _ Hb).
  cbn [cfg_classifier_free_guidance cfg_drop_prob cfg_objective config_with default
       cond_drop_prob toy_net String.eqb Ascii.eqb Bool.eqb].
  unfold bind, ret, lift, log, rand_like. cbv beta iota.
  rewrite !(extract_acp_ok _ _ _ Hb) by assumption. cbv beta iota.
  rewrite choose_cond_zero. unfold ret. cbv beta iota.
  rewrite (extract_buffer_ok _ _ _ Hb _ _ (built_len_weight _ _ _ Hb) Hr).
  split; [reflexivity|].
  cbn [trace next_draw mask_world draws rng app fill2 imap imap_from apply_mask map2].
  rewrite (Rgtb_false 0.05 0.1), !(Rgtb_true 0.5 0.1) by lra.
  rewrite Rmult_0_r, !Rmult_1_r. reflexivity.
Qed.

(** * Further properties *)

(** ** Normalisation *)

Lemma t3map_id (f : R -> R) (x : Tensor3) : (forall v, f v = v) -> t3map f x = x.
Proof.
  intros Hf. unfold t3map.
  induction x as [|xi x IH]; [reflexivity|]. cbn [map]. rewrite IH. f_equal.
  induction xi as [|r xi IHi]; [reflexivity|]. cbn [map]. rewrite IHi. f_equal.
  induction r as [|v r IHr]; [reflexivity|]. cbn [map]. now rewrite IHr, Hf.
Qed.

Lemma t3map_t3map (f g : R -> R) (x : Tensor3) :
  t3map f (t3map g x) = t3map (fun v => f (g v)) x.
Proof.
  unfold t3map. rewrite map_map. apply map_ext; intros xi.
  rewrite map_map. apply map_ext; intros r. now rewrite map_map.
Qed.

(** X1: the two normalisations are inverse to each other, entry by entry:
    unnormalising a normalised sample gives the sample back, and the other
    way round, whether the engine was built with auto_normalize or not. *)
Theorem normalize_unnormalize_roundtrip :
  (forall img, unnormalize_to_zero_to_one (normalize_to_neg_one_to_one img) = img) /\
  (forall img, normalize_to_neg_one_to_one (unnormalize_to_zero_to_one img) = img) /\
  (forall e img, unnormalize e (normalize e img) = img) /\
  (forall e img, normalize e (unnormalize e img) = img).
Proof.
  assert (H1 : forall img, unnormalize_to_zero_to_one (normalize_to_neg_one_to_one img) = img).
  { intros img. unfold unnormalize_to_zero_to_one, normalize_to_neg_one_to_one.
    rewrite t3map_t3map. apply t3map_id. intros v; lra. }
  assert (H2 : forall img, normalize_to_neg_one_to_one (unnormalize_to_zero_to_one img) = img).
  { intros img. unfold unnormalize_to_zero_to_one, normalize_to_neg_one_to_one.
    rewrite t3map_t3map. apply t3map_id. intros v; lra. }
  repeat split; try assumption; intros e img; unfold unnormalize, normalize;
    destruct (auto_normalize e); auto.
Qed.

(** ** Gathering coefficients *)

Lemma gather_cases a i :
  gather a i = if in_bounds a i then Ok (nth (Z.to_nat i) a 0) else Raise RuntimeError.
Proof.
  unfold in_bounds, gather.
  destruct (Z.ltb_spec i 0); destruct (Z.leb_spec 0 i); try lia; cbn [andb]; [reflexivity|].
  destruct (Z.ltb_spec i (Z.of_nat (length a))).
  - rewrite (nth_error_nth' a 0) by lia. reflexivity.
  - destruct (nth_error a (Z.to_nat i)) eqn:E; [|reflexivity].
    assert (Z.to_nat i < length a)%nat by (apply nth_error_Some; congruence). lia.
Qed.

Lemma extract_forallb a t :
  extract a t = if forallb (in_bounds a) t
                then Ok (map (fun i => nth (Z.to_nat i) a 0) t)
                else Raise RuntimeError.
Proof.
  unfold extract. induction t as [|i t IH]; [reflexivity|].
  cbn [mapR forallb map]. rewrite gather_cases, IH.
  destruct (in_bounds a i); cbn [rbind andb]; [|reflexivity].
  destruct (forallb (in_bounds a) t); reflexivity.
Qed.

Lemma forallb_pointwise {A} (f g : A -> bool) l :
  (forall a, f a = g a) -> forallb f l = forallb g l.
Proof.
  intros H. induction l as [|a l IH]; [reflexivity|]. cbn [forallb]. now rewrite H, IH.
Qed.

Lemma in_bounds_length a b i : length a = length b -> in_bounds a i = in_bounds b i.
Proof. unfold in_bounds. now intros ->. Qed.

Lemma in_bounds_spec a i : in_bounds a i = true <-> (0 <= i < Z.of_nat (length a))%Z.
Proof.
  unfold in_bounds. rewrite andb_true_iff, Z.leb_le, Z.ltb_lt. reflexivity.
Qed.

(** X2: [extract] returns the coefficients at the given timesteps when
    every timestep is a valid position of the buffer, and raises
    RuntimeError as soon as one is not; an empty batch gives an empty
    result.  A negative timestep is refused, where indexing the buffer with
    the same integer wraps to its end. *)
Theorem extract_cases a t :
  extract a t = (if forallb (in_bounds a) t
                 then Ok (map (fun i => nth (Z.to_nat i) a 0) t)
                 else Raise RuntimeError) /\
  (forall i, (- Z.of_nat (length a) <= i < 0)%Z ->
     extract a [i] = Raise RuntimeError /\
     index a i = Ok (nth (Z.to_nat (i + Z.of_nat (length a))) a 0)).
Proof.
  split; [apply extract_forallb|].
  intros i Hi. split.
  - rewrite extract_forallb. cbn [forallb]. unfold in_bounds.
    destruct (Z.leb_spec 0 i); [lia|]. reflexivity.
  - unfold index. destruct (Z.ltb_spec i 0); [|lia].
    destruct (Z.ltb_spec (i + Z.of_nat (length a)) 0); [lia|].
    destruct (Z.leb_spec (Z.of_nat (length a)) (i + Z.of_nat (length a))); [lia|].
    reflexivity.
Qed.

(** ** The schedule builders in closed form *)

Lemma tl_map_seq {A} (F : nat -> A) a n :
  tl (map F (seq a (S n))) = map F (seq (S a) n).
Proof. reflexivity. Qed.

Lemma removelast_map_seq {A} (F : nat -> A) a n :
  removelast (map F (seq a (S n))) = map F (seq a n).
Proof.
  rewrite seq_S, map_app. cbn [map]. now rewrite removelast_last.
Qed.

Lemma map2_map_seq {A B C} (h : A -> B -> C) (F : nat -> A) (G : nat -> B) a n :
  map2 h (map F (seq (S a) n)) (map G (seq a n)) = map (fun i => h (F (S i)) (G i)) (seq a n).
Proof.
  revert a; induction n as [|n IH]; intros a; [reflexivity|].
  cbn [seq map map2]. now rewrite IH.
Qed.

Lemma nth_map_seq (F : nat -> R) n i :
  (i < n)%nat -> nth i (map F (seq 0 n)) 0 = F i.
Proof.
  intros Hi. rewrite (nth_indep _ 0 (F 0%nat)) by (now rewrite length_map, length_seq).
  rewrite (map_nth F (seq 0 n) 0%nat i), seq_nth by assumption. reflexivity.
Qed.

Lemma linear_beta_schedule_formula T :
  (2 <= T)%Z ->
  linear_beta_schedule T =
  Ok (map (fun i => (0.1 + 19.9 * (INR i / (IZR T - 1))) / IZR T) (seq 0 (Z.to_nat T))).
Proof.
  intros HT. unfold linear_beta_schedule, linspace.
  destruct (Z.eqb_spec T 0); [lia|].
  destruct (Z.ltb_spec T 0); [lia|].
  destruct (Z.eqb_spec T 1); [lia|].
  f_equal. apply map_ext; intros i.
  assert (HTr : 2 <= IZR T) by (apply (IZR_le 2); lia).
  rewrite minus_IZR. unfold Rdiv.
  assert (Hu : IZR T * / IZR T = 1) by (apply Rinv_r; lra).
  set (u := / IZR T) in *. set (v := / (IZR T - 1)).
  lra.
Qed.

(** X3: the linear schedule with T >= 2 steps rises strictly from 0.1 / T to
    20 / T; its last entry is below 1 only when T exceeds 20. *)
Theorem linear_beta_schedule_shape T l :
  (2 <= T)%Z ->
  linear_beta_schedule T = Ok l ->
  length l = Z.to_nat T /\
  nth 0 l 0 = 0.1 / IZR T /\
  nth (Z.to_nat T - 1) l 0 = 20 / IZR T /\
  (forall i j, (i < j < length l)%nat -> nth i l 0 < nth j l 0) /\
  (nth (Z.to_nat T - 1) l 0 < 1 <-> (20 < T)%Z).
Proof.
  intros HT Hl. rewrite linear_beta_schedule_formula in Hl by assumption.
  apply Ok_inj in Hl; subst l.
  assert (HTr : 2 <= IZR T) by (apply (IZR_le 2); lia).
  assert (Hu : IZR T * / IZR T = 1) by (apply Rinv_r; lra).
  assert (Hu0 : 0 < / IZR T) by (apply Rinv_0_lt_compat; lra).
  assert (Hv : (IZR T - 1) * / (IZR T - 1) = 1) by (apply Rinv_r; lra).
  assert (Hv0 : 0 < / (IZR T - 1)) by (apply Rinv_0_lt_compat; lra).
  assert (Hlast : INR (Z.to_nat T - 1) = IZR T - 1).
  { rewrite minus_INR by lia. rewrite INR_IZR_INZ, Z2Nat.id by lia. reflexivity. }
  assert (Hend : nth (Z.to_nat T - 1)
                   (map (fun i => (0.1 + 19.9 * (INR i / (IZR T - 1))) / IZR T)
                        (seq 0 (Z.to_nat T))) 0 = 20 / IZR T).
  { rewrite nth_map_seq by lia. rewrite Hlast. unfold Rdiv. rewrite Hv. lra. }
  rewrite length_map, length_seq.
  split; [reflexivity|]. split; [|split; [exact Hend|split]].
  - rewrite nth_map_seq by lia. change (INR 0) with 0. unfold Rdiv. lra.
  - intros i j Hij. rewrite !nth_map_seq by lia.
    assert (Hlt : INR i < INR j) by (apply lt_INR; lia).
    unfold Rdiv. apply Rmult_lt_compat_r; [assumption|].
    assert (INR i * / (IZR T - 1) < INR j * / (IZR T - 1))
      by (apply Rmult_lt_compat_r; assumption).
    lra.
  - rewrite Hend. split; intros H.
    + apply lt_IZR. unfold Rdiv in H.
      assert (20 * / IZR T * IZR T < 1 * IZR T) by (apply Rmult_lt_compat_r; lra).
      nra.
    + apply IZR_lt in H. unfold Rdiv.
      apply (Rmult_lt_reg_r (IZR T)); [lra|]. rewrite Rmult_assoc, Rinv_l by lra. lra.
Qed.

Lemma linear_beta_schedule_shape_witness :
  exists l, linear_beta_schedule 4 = Ok l /\ nth 3 l 0 = 20 / 4.
Proof.
  eexists. split; [reflexivity|].
  exact (proj1 (proj2 (proj2 (linear_beta_schedule_shape 4 _ ltac:(lia) eq_refl)))).
Defined.

Lemma cosine_arg u :
  (u + 0.008) / (1 + 0.008) * PI * 0.5 = (u + 0.008) / 1.008 * PI / 2.
Proof.
  replace (1 + 0.008) with 1.008 by lra. unfold Rdiv.
  replace 0.5 with (/ 2) by lra. reflexivity.
Qed.

Lemma cosine_t2alpha_cumprod_denominator :
  0 < (cos ((0 + 0.008) / 1.008 * PI / 2)) ^ 2 <= 1.
Proof.
  pose proof PI_RGT_0 as Hpi. pose proof PI_4 as Hpi4.
  assert (H0 : 0 < cos ((0 + 0.008) / 1.008 * PI / 2)).
  { apply cos_gt_0; lra. }
  pose proof (COS_bound ((0 + 0.008) / 1.008 * PI / 2)) as [_ H1].
  nra.
Qed.

(** The schedule builder, entry by entry, in terms of the continuous
    schedule. *)
Lemma cosine_beta_schedule_formula T :
  (0 < T)%Z ->
  cosine_beta_schedule T =
  Ok (map (fun i => clip 0 0.999
                      (1 - cosine_t2alpha_cumprod (INR (S i) / IZR T) /
                           cosine_t2alpha_cumprod (INR i / IZR T)))
          (seq 0 (Z.to_nat T))).
Proof.
  intros HT. unfold cosine_beta_schedule, linspace.
  destruct (Z.ltb_spec (T + 1) 0); [lia|].
  destruct (Z.eqb_spec (T + 1) 1); [lia|].
  replace (Z.to_nat (T + 1)) with (S (Z.to_nat T)) by lia.
  replace (T + 1 - 1)%Z with T by lia.
  assert (HTr : 1 <= IZR T) by (apply (IZR_le 1); lia).
  assert (Hu : IZR T * / IZR T = 1) by (apply Rinv_r; lra).
  cbn [rbind]. rewrite map_map.
  set (F := fun i : nat =>
              cos (((0 + INR i * ((IZR T - 0) / IZR T)) / IZR T + 0.008) / (1 + 0.008)
                   * PI * 0.5) ^ 2).
  set (k := Z.to_nat T).
  set (L := map F (seq 0 (S k))).
  change L with (F 0%nat :: map F (seq 1 k)) at 1. cbv beta iota.
  subst L. rewrite !map_map.
  rewrite (tl_map_seq (fun i => F i / F 0%nat)), (removelast_map_seq (fun i => F i / F 0%nat)),
    map2_map_seq, !map_map.
  f_equal. apply map_ext; intros i.
  assert (HF : forall j, F j / F 0%nat = cosine_t2alpha_cumprod (INR j / IZR T)).
  { intros j. unfold F, cosine_t2alpha_cumprod. rewrite !cosine_arg.
    change (INR 0) with 0.
    replace ((0 + INR j * ((IZR T - 0) / IZR T)) / IZR T) with (INR j / IZR T)
      by (unfold Rdiv; rewrite Rminus_0_r, Hu; ring).
    replace ((0 + 0 * ((IZR T - 0) / IZR T)) / IZR T) with 0
      by (unfold Rdiv; ring).
    reflexivity. }
  now rewrite !HF.
Qed.

Lemma cosine_t2alpha_cumprod_decreasing s t :
  0 <= s -> s < t -> t <= 1 ->
  0 <= cosine_t2alpha_cumprod t < cosine_t2alpha_cumprod s.
Proof.
  intros Hs Hst Ht. unfold cosine_t2alpha_cumprod.
  pose proof PI_RGT_0 as Hpi.
  pose proof cosine_t2alpha_cumprod_denominator as [Hd _].
  assert (H : 0 <= cos ((t + 0.008) / 1.008 * PI / 2) ^ 2 < cos ((s + 0.008) / 1.008 * PI / 2) ^ 2).
  { apply cos_sq_decreasing; nra. }
  assert (Hi : 0 < / cos ((0 + 0.008) / 1.008 * PI / 2) ^ 2) by (apply Rinv_0_lt_compat; exact Hd).
  unfold Rdiv at 1 5. split.
  - apply Rmult_le_pos; lra.
  - apply Rmult_lt_compat_r; lra.
Qed.

Lemma cosine_t2alpha_cumprod_start : cosine_t2alpha_cumprod 0 = 1.
Proof.
  pose proof cosine_t2alpha_cumprod_denominator as [Hd _].
  unfold cosine_t2alpha_cumprod. apply Rinv_r. lra.
Qed.

Lemma cosine_t2alpha_cumprod_end : cosine_t2alpha_cumprod 1 = 0.
Proof.
  unfold cosine_t2alpha_cumprod.
  replace ((1 + 0.008) / 1.008 * PI / 2) with (PI / 2) by lra.
  rewrite cos_PI2. unfold Rdiv. ring.
Qed.

(** X4: the continuous cosine schedule starts at 1, falls strictly on
    [0, 1] and reaches 0 at t = 1. *)
Theorem cosine_t2alpha_cumprod_profile :
  cosine_t2alpha_cumprod 0 = 1 /\
  cosine_t2alpha_cumprod 1 = 0 /\
  (forall s t, 0 <= s -> s < t -> t <= 1 ->
     0 <= cosine_t2alpha_cumprod t < cosine_t2alpha_cumprod s /\
     cosine_t2alpha_cumprod s <= 1).
Proof.
  split; [exact cosine_t2alpha_cumprod_start|]. split; [exact cosine_t2alpha_cumprod_end|].
  intros s t Hs Hst Ht.
  split; [now apply cosine_t2alpha_cumprod_decreasing|].
  destruct (Req_dec s 0) as [->|Hne]; [rewrite cosine_t2alpha_cumprod_start; lra|].
  destruct (cosine_t2alpha_cumprod_decreasing 0 s ltac:(lra) ltac:(lra) ltac:(lra)).
  rewrite cosine_t2alpha_cumprod_start in *. lra.
Qed.

Lemma cosine_ratio T i :
  (0 < T)%Z -> (i < Z.to_nat T)%nat ->
  0 <= cosine_t2alpha_cumprod (INR (S i) / IZR T) / cosine_t2alpha_cumprod (INR i / IZR T) < 1.
Proof.
  intros HT Hi.
  assert (HTr : 1 <= IZR T) by (apply (IZR_le 1); lia).
  assert (Hu : 0 < / IZR T) by (apply Rinv_0_lt_compat; lra).
  assert (Hu1 : IZR T * / IZR T = 1) by (apply Rinv_r; lra).
  assert (Hi0 : 0 <= INR i) by apply pos_INR.
  assert (HSi : INR (S i) <= IZR T).
  { rewrite INR_IZR_INZ. apply IZR_le. lia. }
  rewrite S_INR in *.
  destruct (cosine_t2alpha_cumprod_decreasing (INR i / IZR T) ((INR i + 1) / IZR T)) as [H1 H2].
  - unfold Rdiv. apply Rmult_le_pos; lra.
  - unfold Rdiv. apply Rmult_lt_compat_r; lra.
  - unfold Rdiv. apply (Rmult_le_reg_r (IZR T)); [lra|].
    rewrite Rmult_assoc, Rinv_l by lra. lra.
  - set (a := cosine_t2alpha_cumprod ((INR i + 1) / IZR T)) in *.
    set (b := cosine_t2alpha_cumprod (INR i / IZR T)) in *.
    assert (Hb : 0 < / b) by (apply Rinv_0_lt_compat; lra).
    unfold Rdiv. split; [apply Rmult_le_pos; lra|].
    apply (Rmult_lt_reg_r b); [lra|]. rewrite Rmult_assoc, Rinv_l by lra. lra.
Qed.

Lemma clip_pos lo hi x : lo < x -> lo < hi -> lo < clip lo hi x.
Proof.
  intros Hx Hh. unfold clip, Rmin, Rmax.
  destruct (Rle_dec x lo); destruct (Rle_dec _ hi); lra.
Qed.

Lemma clip_above lo hi x : hi <= x -> lo <= hi -> clip lo hi x = hi.
Proof.
  intros Hx Hh. unfold clip, Rmin, Rmax.
  destruct (Rle_dec x lo); destruct (Rle_dec _ hi); lra.
Qed.

(** X5: the cosine schedule builder is the discretisation of the
    continuous schedule: its entry i is one minus the ratio of the
    continuous schedule at (i+1)/T and at i/T, clipped to [0, 0.999].  Every
    entry is positive and at most 0.999, and the last entry is exactly
    0.999: the continuous schedule reaches 0 at the end, so the unclipped
    last beta is 1 and the clip is active there. *)
Theorem cosine_beta_schedule_closed T :
  (0 < T)%Z ->
  exists l,
    cosine_beta_schedule T = Ok l /\
    l = map (fun i => clip 0 0.999
                        (1 - cosine_t2alpha_cumprod (INR (S i) / IZR T) /
                             cosine_t2alpha_cumprod (INR i / IZR T)))
            (seq 0 (Z.to_nat T)) /\
    Forall (fun b => 0 < b <= 0.999) l /\
    nth (Z.to_nat T - 1) l 0 = 0.999.
Proof.
  intros HT. eexists. split; [apply (cosine_beta_schedule_formula T HT)|].
  split; [reflexivity|]. split.
  - apply Forall_forall; intros b Hb.
    apply in_map_iff in Hb as (i & <- & Hi). apply in_seq in Hi.
    destruct (cosine_ratio T i HT ltac:(lia)) as [H1 H2].
    split; [apply clip_pos; lra|apply clip_bounds; lra].
  - rewrite nth_map_seq by lia.
    replace (S (Z.to_nat T - 1)) with (Z.to_nat T) by lia.
    rewrite INR_IZR_INZ, Z2Nat.id by lia.
    assert (HTr : 1 <= IZR T) by (apply (IZR_le 1); lia).
    replace (IZR T / IZR T) with 1 by (unfold Rdiv; rewrite Rinv_r; lra).
    rewrite cosine_t2alpha_cumprod_end.
    apply clip_above; [|lra]. unfold Rdiv. lra.
Qed.

Lemma cosine_beta_schedule_closed_witness :
  exists l, cosine_beta_schedule 3 = Ok l /\ nth 2 l 0 = 0.999.
Proof.
  destruct (cosine_beta_schedule_closed 3 ltac:(lia)) as (l & Hl & _ & _ & Hlast).
  exists l. split; [exact Hl|exact Hlast].
Defined.

(** ** The coefficient cache *)

Lemma init_inv_posterior m cfg e :
  GaussianDiffusionConditional_init m cfg = Ok e -> built_posterior cfg e.
Proof.
  unfold GaussianDiffusionConditional_init.
  destruct (known_objective (cfg_objective cfg)) eqn:Hobj; cbn [negb]; [|discriminate].
  destruct (build_betas _ _) as [bs|] eqn:Hb; cbn [rbind]; [|discriminate].
  destruct (Z.ltb_spec (Z.of_nat (length bs))
              (default (cfg_sampling_timesteps cfg) (Z.of_nat (length bs)))); [discriminate|].
  intros Heq; apply Ok_inj in Heq; subst e.
  constructor; reflexivity.
Qed.

Lemma regular_betas_pos kind T l :
  regular_schedule kind T ->
  build_betas kind T = Ok l ->
  Forall (fun b => 0 < b < 1) l.
Proof.
  intros [HT Hreg]. unfold build_betas.
  destruct (String.eqb_spec kind "linear") as [->|Hlin].
  - intros Hl. destruct Hreg as [?|[->|H21]]; [discriminate| |].
    + rewrite linear_beta_schedule_one in Hl. apply Ok_inj in Hl; subst l.
      repeat constructor; lra.
    + eapply linear_beta_schedule_bounds; eauto.
  - destruct (String.eqb_spec kind "cosine") as [->|Hcos]; [|discriminate].
    rewrite cosine_beta_schedule_formula by assumption.
    intros Hl; apply Ok_inj in Hl; subst l.
    apply Forall_forall; intros b Hb.
    apply in_map_iff in Hb as (i & <- & Hi). apply in_seq in Hi.
    destruct (cosine_ratio T i HT ltac:(lia)) as [H1 H2].
    split; [apply clip_pos; lra|].
    pose proof (clip_bounds 0 0.999 (1 - cosine_t2alpha_cumprod (INR (S i) / IZR T) /
                                         cosine_t2alpha_cumprod (INR i / IZR T)) ltac:(lra)).
    lra.
Qed.

Lemma nth_map2 (f : R -> R -> R) l1 l2 i :
  (i < length l1)%nat -> (i < length l2)%nat ->
  nth i (map2 f l1 l2) 0 = f (nth i l1 0) (nth i l2 0).
Proof.
  revert l2 i; induction l1 as [|a l1 IH]; intros [|b l2] [|i] H1 H2;
    cbn [length] in *; try lia; cbn [map2 nth]; [reflexivity|].
  apply IH; lia.
Qed.

Lemma nth_removelast (l : list R) i :
  (S i < length l)%nat -> nth i (removelast l) 0 = nth i l 0.
Proof.
  revert i; induction l as [|a l IH]; intros i Hi; cbn [length] in Hi; [lia|].
  destruct l as [|b l]; [cbn [length] in Hi; lia|].
  destruct i as [|i]; [reflexivity|].
  change (removelast (a :: b :: l)) with (a :: removelast (b :: l)).
  cbn [nth]. apply IH. cbn [length] in *. lia.
Qed.

Section RegularEngine.

Variables (m : FullyConditionedUnet) (cfg : Config) (e : Engine).
Hypothesis He : GaussianDiffusionConditional_init m cfg = Ok e.
Hypothesis Hreg : regular_schedule (cfg_beta_schedule cfg) (cfg_timesteps cfg).

Lemma regular_built : built m cfg e.
Proof. exact (init_inv _ _ _ He). Qed.

Lemma regular_num :
  num_timesteps e = cfg_timesteps cfg /\ length (betas e) = Z.to_nat (cfg_timesteps cfg).
Proof.
  pose proof regular_built as Hb.
  destruct (regular_betas _ _ _ Hreg (built_betas _ _ _ Hb)) as [Hlen _].
  destruct Hreg as [HT _].
  rewrite (built_num _ _ _ Hb), Hlen. split; [lia|reflexivity].
Qed.

Lemma regular_beta i : (i < length (betas e))%nat -> 0 < nth i (betas e) 0 < 1.
Proof.
  intros Hi. pose proof regular_built as Hb.
  pose proof (regular_betas_pos _ _ _ Hreg (built_betas _ _ _ Hb)) as H.
  rewrite Forall_forall in H. apply H. apply nth_In. exact Hi.
Qed.

Lemma regular_acp i : (i < length (betas e))%nat -> 0 < nth i (alphas_cumprod e) 0 < 1.
Proof.
  intros Hi. pose proof (regular_alphas_cumprod _ _ _ He Hreg) as H.
  rewrite Forall_forall in H. apply H. apply nth_In.
  rewrite (built_len_acp _ _ _ regular_built). exact Hi.
Qed.

Lemma regular_acp_0 :
  (0 < length (betas e))%nat -> nth 0 (alphas_cumprod e) 0 = 1 - nth 0 (betas e) 0.
Proof.
  intros Hn. rewrite (built_acp _ _ _ regular_built).
  destruct (betas e) as [|b bs]; [cbn [length] in Hn; lia|].
  cbn [map cumprod cumprod_from nth]. ring.
Qed.

Lemma regular_acp_S i :
  (S i < length (betas e))%nat ->
  nth (S i) (alphas_cumprod e) 0 = nth i (alphas_cumprod e) 0 * (1 - nth (S i) (betas e) 0).
Proof.
  intros Hi. rewrite (built_acp _ _ _ regular_built).
  unfold cumprod. rewrite nth_cumprod_from_S by (rewrite length_map; exact Hi).
  rewrite nth_alphas by exact Hi. reflexivity.
Qed.

Lemma regular_prev_0 : nth 0 (alphas_cumprod_prev e) 0 = 1.
Proof. now rewrite (built_acp_prev _ _ _ regular_built). Qed.

Lemma regular_prev_S i :
  (S i < length (betas e))%nat ->
  nth (S i) (alphas_cumprod_prev e) 0 = nth i (alphas_cumprod e) 0.
Proof.
  intros Hi. rewrite (built_acp_prev _ _ _ regular_built).
  cbn [nth]. apply nth_removelast. rewrite (built_len_acp _ _ _ regular_built). exact Hi.
Qed.

Lemma regular_prev i :
  (i < length (betas e))%nat ->
  0 < nth i (alphas_cumprod_prev e) 0 <= 1 /\
  nth i (alphas_cumprod e) 0 = nth i (alphas_cumprod_prev e) 0 * (1 - nth i (betas e) 0).
Proof.
  intros Hi. destruct i as [|i].
  - rewrite regular_prev_0, regular_acp_0 by exact Hi. split; [lra|ring].
  - rewrite regular_prev_S, regular_acp_S by exact Hi.
    pose proof (regular_acp i ltac:(lia)). split; [lra|ring].
Qed.

Lemma regular_len_prev : length (alphas_cumprod_prev e) = length (betas e).
Proof.
  pose proof regular_built as Hb. pose proof (proj2 regular_num) as Hn.
  destruct Hreg as [HT _].
  rewrite (built_acp_prev _ _ _ Hb). cbn [length].
  rewrite removelast_length, (built_len_acp _ _ _ Hb). lia.
Qed.

End RegularEngine.

(** X6: the forward process of a regular engine preserves variance: at
    every timestep the squares of the two forward coefficients,
    sqrt_alphas_cumprod and sqrt_one_minus_alphas_cumprod, add up to 1. *)
Theorem forward_coefficients_unit m cfg e i :
  GaussianDiffusionConditional_init m cfg = Ok e ->
  regular_schedule (cfg_beta_schedule cfg) (cfg_timesteps cfg) ->
  (i < length (betas e))%nat ->
  nth i (sqrt_alphas_cumprod e) 0 ^ 2 + nth i (sqrt_one_minus_alphas_cumprod e) 0 ^ 2 = 1.
Proof.
  intros He Hreg Hi. pose proof (init_inv _ _ _ He) as Hb.
  pose proof (regular_acp _ _ _ He Hreg i Hi) as Ha.
  rewrite (built_sqrt_acp _ _ _ Hb), (built_sqrt_1m_acp _ _ _ Hb).
  rewrite !nth_map_in by (rewrite (built_len_acp _ _ _ Hb); exact Hi).
  rewrite !pow2_sqrt by lra. ring.
Qed.

Lemma forward_coefficients_unit_witness :
  exists e,
    GaussianDiffusionConditional_init toy_net (config "cosine" 4 None "pred_v") = Ok e /\
    nth 2 (sqrt_alphas_cumprod e) 0 ^ 2 + nth 2 (sqrt_one_minus_alphas_cumprod e) 0 ^ 2 = 1.
Proof.
  destruct (cosine_engine false 4 None "pred_v"%string) as (e & He & _ & Hlen & _);
    [lia|reflexivity|discriminate|].
  exists e. split; [exact He|].
  apply (forward_coefficients_unit toy_net (config "cosine" 4 None "pred_v") e 2 He).
  - split; [simpl; lia|left; reflexivity].
  - rewrite Hlen. simpl. lia.
Defined.

Section PosteriorBuffers.

Variables (m : FullyConditionedUnet) (cfg : Config) (e : Engine).
Hypothesis He : GaussianDiffusionConditional_init m cfg = Ok e.
Hypothesis Hreg : regular_schedule (cfg_beta_schedule cfg) (cfg_timesteps cfg).
Variable i : nat.
Hypothesis Hi : (i < length (betas e))%nat.

Lemma posterior_variance_nth :
  nth i (posterior_variance e) 0 =
  nth i (betas e) 0 * (1 - nth i (alphas_cumprod_prev e) 0) / (1 - nth i (alphas_cumprod e) 0).
Proof.
  pose proof (init_inv _ _ _ He) as Hb. pose proof (init_inv_posterior _ _ _ He) as Hp.
  pose proof (regular_len_prev _ _ _ He Hreg) as Hlp.
  pose proof (built_len_acp _ _ _ Hb) as Hla.
  rewrite (built_variance _ _ Hp).
  rewrite !nth_map2, !nth_map_in;
    repeat first [ rewrite map2_length | rewrite length_map ]; lia || reflexivity.
Qed.

Lemma posterior_mean_coef1_nth :
  nth i (posterior_mean_coef1 e) 0 =
  nth i (betas e) 0 * sqrt (nth i (alphas_cumprod_prev e) 0) / (1 - nth i (alphas_cumprod e) 0).
Proof.
  pose proof (init_inv _ _ _ He) as Hb. pose proof (init_inv_posterior _ _ _ He) as Hp.
  pose proof (regular_len_prev _ _ _ He Hreg) as Hlp.
  pose proof (built_len_acp _ _ _ Hb) as Hla.
  rewrite (built_coef1 _ _ Hp).
  rewrite !nth_map2, !nth_map_in;
    repeat first [ rewrite map2_length | rewrite length_map ]; lia || reflexivity.
Qed.

Lemma posterior_mean_coef2_nth :
  nth i (posterior_mean_coef2 e) 0 =
  (1 - nth i (alphas_cumprod_prev e) 0) * sqrt (1 - nth i (betas e) 0) /
  (1 - nth i (alphas_cumprod e) 0).
Proof.
  pose proof (init_inv _ _ _ He) as Hb. pose proof (init_inv_posterior _ _ _ He) as Hp.
  pose proof (regular_len_prev _ _ _ He Hreg) as Hlp.
  pose proof (built_len_acp _ _ _ Hb) as Hla.
  rewrite (built_coef2 _ _ Hp).
  rewrite !nth_map2, !nth_map_in;
    repeat first [ rewrite map2_length | rewrite length_map ]; lia || reflexivity.
Qed.

Lemma snr_nth :
  nth i (map2 Rdiv (alphas_cumprod e) (map (fun a => 1 - a) (alphas_cumprod e))) 0 =
  nth i (alphas_cumprod e) 0 / (1 - nth i (alphas_cumprod e) 0).
Proof.
  pose proof (init_inv _ _ _ He) as Hb.
  pose proof (built_len_acp _ _ _ Hb) as Hla.
  rewrite !nth_map2, !nth_map_in;
    repeat first [ rewrite map2_length | rewrite length_map ]; lia || reflexivity.
Qed.

End PosteriorBuffers.

(** The posterior buffers of a regular engine at the first timestep. *)
Lemma posterior_first_coefficients m cfg e :
  GaussianDiffusionConditional_init m cfg = Ok e ->
  regular_schedule (cfg_beta_schedule cfg) (cfg_timesteps cfg) ->
  nth 0 (posterior_variance e) 0 = 0 /\
  nth 0 (posterior_log_variance_clipped e) 0 = ln 1e-20 /\
  nth 0 (posterior_mean_coef1 e) 0 = 1 /\
  nth 0 (posterior_mean_coef2 e) 0 = 0.
Proof.
  intros He Hreg.
  pose proof (init_inv _ _ _ He) as Hb. pose proof (init_inv_posterior _ _ _ He) as Hp.
  assert (Hn : (0 < length (betas e))%nat).
  { destruct (regular_num _ _ _ He Hreg) as [_ ->]. destruct Hreg as [HT _]. lia. }
  pose proof (regular_beta _ _ _ He Hreg 0%nat Hn) as Hbeta.
  pose proof (regular_acp_0 _ _ _ He Hn) as Hacp.
  pose proof (regular_prev_0 _ _ _ He) as Hprev.
  assert (Hv : nth 0 (posterior_variance e) 0 = 0).
  { rewrite (posterior_variance_nth _ _ _ He Hreg 0%nat Hn), Hprev. unfold Rdiv. ring. }
  split; [exact Hv|]. split; [|split].
  - rewrite (built_log_variance _ _ Hp).
    rewrite nth_map_in by (rewrite (built_len_variance _ _ _ Hb); exact Hn).
    rewrite Hv. f_equal. apply Rmax_right. lra.
  - rewrite (posterior_mean_coef1_nth _ _ _ He Hreg 0%nat Hn), Hprev, Hacp, sqrt_1.
    field. lra.
  - rewrite (posterior_mean_coef2_nth _ _ _ He Hreg 0%nat Hn), Hprev. unfold Rdiv. ring.
Qed.

(** X7: from the second timestep on the posterior variance of a regular
    engine is positive and at most beta_t, and it equals
    1 / (1 / (1 - alphas_cumprod_prev_t) + alpha_t / beta_t), as the
    constructor's comment has it. *)
Theorem posterior_variance_bounds m cfg e i :
  GaussianDiffusionConditional_init m cfg = Ok e ->
  regular_schedule (cfg_beta_schedule cfg) (cfg_timesteps cfg) ->
  (1 <= i < length (betas e))%nat ->
  0 < nth i (posterior_variance e) 0 <= nth i (betas e) 0 /\
  nth i (posterior_variance e) 0 =
  1 / (1 / (1 - nth i (alphas_cumprod_prev e) 0) + (1 - nth i (betas e) 0) / nth i (betas e) 0).
Proof.
  intros He Hreg Hi.
  rewrite (posterior_variance_nth _ _ _ He Hreg i) by lia.
  pose proof (regular_beta _ _ _ He Hreg i ltac:(lia)) as Hbeta.
  pose proof (regular_acp _ _ _ He Hreg i ltac:(lia)) as Hacp.
  destruct (regular_prev _ _ _ He Hreg i ltac:(lia)) as [_ Heq].
  assert (Hprev : 0 < nth i (alphas_cumprod_prev e) 0 < 1).
  { destruct i as [|j]; [lia|]. rewrite (regular_prev_S _ _ _ He) by lia.
    apply (regular_acp _ _ _ He Hreg). lia. }
  set (b := nth i (betas e) 0) in *. set (a := nth i (alphas_cumprod e) 0) in *.
  set (p := nth i (alphas_cumprod_prev e) 0) in *.
  assert (Hd : 0 < / (1 - a)) by (apply Rinv_0_lt_compat; lra).
  split; [split|].
  - unfold Rdiv. apply Rmult_lt_0_compat; [apply Rmult_lt_0_compat; lra|exact Hd].
  - apply (Rmult_le_reg_r (1 - a)); [lra|]. unfold Rdiv.
    rewrite Rmult_assoc, Rinv_l by lra. nra.
  - subst a. rewrite Heq. field. repeat split; nra.
Qed.

Lemma posterior_variance_bounds_witness :
  exists e,
    GaussianDiffusionConditional_init toy_net (config "cosine" 4 None "pred_v") = Ok e /\
    0 < nth 2 (posterior_variance e) 0 <= nth 2 (betas e) 0.
Proof.
  destruct (cosine_engine false 4 None "pred_v"%string) as (e & He & _ & Hlen & _);
    [lia|reflexivity|discriminate|].
  exists e. split; [exact He|].
  apply (posterior_variance_bounds toy_net (config "cosine" 4 None "pred_v") e 2 He).
  - regular_cosine.
  - rewrite Hlen. simpl. lia.
Defined.

(** X8: the posterior mean of a regular engine is consistent with the
    forward process: at every timestep
    posterior_mean_coef1 + posterior_mean_coef2 * sqrt(alphas_cumprod) =
    sqrt(alphas_cumprod_prev), so the noise-free pair
    (x_0, sqrt(alphas_cumprod_t) x_0) has posterior mean
    sqrt(alphas_cumprod_(t-1)) x_0. *)
Theorem posterior_mean_consistent m cfg e i :
  GaussianDiffusionConditional_init m cfg = Ok e ->
  regular_schedule (cfg_beta_schedule cfg) (cfg_timesteps cfg) ->
  (i < length (betas e))%nat ->
  nth i (posterior_mean_coef1 e) 0 +
  nth i (posterior_mean_coef2 e) 0 * nth i (sqrt_alphas_cumprod e) 0 =
  sqrt (nth i (alphas_cumprod_prev e) 0).
Proof.
  intros He Hreg Hi. pose proof (init_inv _ _ _ He) as Hb.
  rewrite (posterior_mean_coef1_nth _ _ _ He Hreg i Hi),
    (posterior_mean_coef2_nth _ _ _ He Hreg i Hi), (built_sqrt_acp _ _ _ Hb).
  rewrite nth_map_in by (rewrite (built_len_acp _ _ _ Hb); exact Hi).
  pose proof (regular_beta _ _ _ He Hreg i Hi) as Hbeta.
  pose proof (regular_acp _ _ _ He Hreg i Hi) as Hacp.
  destruct (regular_prev _ _ _ He Hreg i Hi) as [Hprev Heq].
  set (b := nth i (betas e) 0) in *. set (a := nth i (alphas_cumprod e) 0) in *.
  set (p := nth i (alphas_cumprod_prev e) 0) in *.
  assert (Hs : sqrt (1 - b) * sqrt a = (1 - b) * sqrt p).
  { rewrite Heq, (Rmult_comm p), sqrt_mult by lra.
    rewrite <- Rmult_assoc, sqrt_sqrt by lra. reflexivity. }
  replace ((1 - p) * sqrt (1 - b) / (1 - a) * sqrt a)
    with ((1 - p) * (sqrt (1 - b) * sqrt a) / (1 - a)) by (unfold Rdiv; ring).
  rewrite Hs. subst a. rewrite Heq. field. nra.
Qed.

Lemma posterior_mean_consistent_witness :
  exists e,
    GaussianDiffusionConditional_init toy_net (config "cosine" 4 None "pred_v") = Ok e /\
    nth 1 (posterior_mean_coef1 e) 0 +
    nth 1 (posterior_mean_coef2 e) 0 * nth 1 (sqrt_alphas_cumprod e) 0 =
    sqrt (nth 1 (alphas_cumprod_prev e) 0).
Proof.
  destruct (cosine_engine false 4 None "pred_v"%string) as (e & He & _ & Hlen & _);
    [lia|reflexivity|discriminate|].
  exists e. split; [exact He|].
  apply (posterior_mean_consistent toy_net (config "cosine" 4 None "pred_v") e 1 He).
  - regular_cosine.
  - rewrite Hlen. simpl. lia.
Defined.

(** X9: the loss weight of a regular engine at every timestep: 1 under
    pred_noise, the signal-to-noise ratio acp / (1 - acp) under pred_x0, and
    the cumulative product acp itself under pred_v; it is positive in all
    three cases. *)
Theorem loss_weight_values m cfg e i :
  GaussianDiffusionConditional_init m cfg = Ok e ->
  regular_schedule (cfg_beta_schedule cfg) (cfg_timesteps cfg) ->
  (i < length (betas e))%nat ->
  (objective e = "pred_noise"%string -> nth i (loss_weight e) 0 = 1) /\
  (objective e = "pred_x0"%string ->
   nth i (loss_weight e) 0 = nth i (alphas_cumprod e) 0 / (1 - nth i (alphas_cumprod e) 0)) /\
  (objective e = "pred_v"%string -> nth i (loss_weight e) 0 = nth i (alphas_cumprod e) 0) /\
  0 < nth i (loss_weight e) 0.
Proof.
  intros He Hreg Hi.
  pose proof (init_inv _ _ _ He) as Hb. pose proof (init_inv_posterior _ _ _ He) as Hp.
  pose proof (built_len_acp _ _ _ Hb) as Hla.
  pose proof (regular_acp _ _ _ He Hreg i Hi) as Hacp.
  pose proof (snr_nth _ _ _ He i Hi) as Hsnr.
  assert (Hlen : length (map2 Rdiv (alphas_cumprod e) (map (fun a => 1 - a) (alphas_cumprod e)))
                 = length (betas e)).
  { rewrite map2_length, length_map. lia. }
  assert (Hpos : 0 < nth i (alphas_cumprod e) 0 / (1 - nth i (alphas_cumprod e) 0)).
  { unfold Rdiv. apply Rmult_lt_0_compat; [lra|apply Rinv_0_lt_compat; lra]. }
  assert (Hv : nth i (alphas_cumprod e) 0 / (1 - nth i (alphas_cumprod e) 0) /
               (nth i (alphas_cumprod e) 0 / (1 - nth i (alphas_cumprod e) 0) + 1) =
               nth i (alphas_cumprod e) 0) by (field; lra).
  rewrite (built_weight _ _ Hp). cbv zeta.
  destruct (known_objective_cases _ (built_known _ _ _ Hb)) as [Ho|[Ho|Ho]]; rewrite Ho;
    cbn [String.eqb Ascii.eqb Bool.eqb];
    (repeat split; try discriminate; intros;
     rewrite ?nth_map_in by lia; rewrite ?Hsnr, ?Hv; lra || reflexivity).
Qed.

Lemma loss_weight_values_witness :
  exists e,
    GaussianDiffusionConditional_init toy_net (config "cosine" 4 None "pred_v") = Ok e /\
    nth 3 (loss_weight e) 0 = nth 3 (alphas_cumprod e) 0.
Proof.
  destruct (cosine_engine false 4 None "pred_v"%string) as (e & He & Hb & Hlen & _);
    [lia|reflexivity|discriminate|].
  exists e. split; [exact He|].
  apply (loss_weight_values toy_net (config "cosine" 4 None "pred_v") e 3 He).
  - regular_cosine.
  - rewrite Hlen. simpl. lia.
  - rewrite (built_objective _ _ _ Hb). reflexivity.
Defined.

(** ** The forward process and the converter *)

Lemma same_shape_length x y : same_shape x y -> length x = length y.
Proof. intros H. exact (Forall2_length H). Qed.

Lemma same_shape_refl x : same_shape x x.
Proof.
  unfold same_shape. induction x as [|xi x IH]; constructor; [|exact IH].
  induction xi as [|r xi IHi]; constructor; auto.
Qed.

Lemma same_shape_sym x y : same_shape x y -> same_shape y x.
Proof.
  unfold same_shape. induction 1 as [|xi yi x y Hel _ IH]; constructor; [|exact IH].
  induction Hel; constructor; auto.
Qed.

Lemma same_shape_trans x y z : same_shape x y -> same_shape y z -> same_shape x z.
Proof.
  unfold same_shape. intros H; revert z.
  induction H as [|xi yi x y Hel _ IH]; intros z Hz; inversion Hz as [|? zi ? z' Hel' Hz']; subst;
    constructor; [|now apply IH].
  clear -Hel Hel'. revert zi Hel'.
  induction Hel as [|r s xi yi Hrs _ IHe]; intros zi Hz; inversion Hz; subst; constructor;
    [congruence|now apply IHe].
Qed.

Lemma shape_preserving_batch net : shape_preserving net -> batch_preserving net.
Proof. intros H x t c i. symmetry. exact (same_shape_length _ _ (H x t c i)). Qed.

Lemma toy_net_shape_preserving : shape_preserving toy_net.
Proof. intros x t c i. apply same_shape_refl. Qed.

(** Two samples of one shape combined entry by entry, with one coefficient
    tuple per batch element. *)
Lemma pointwise_row (f : R -> R -> R) (rx re : list R) :
  (forall v u, f v u = v) -> length rx = length re -> map2 f rx re = rx.
Proof.
  intros Hf. revert re; induction rx as [|x rx IH]; intros [|u re]; cbn [map2 length];
    try discriminate; [reflexivity|].
  intros [= Hlen]. now rewrite IH, Hf.
Qed.

Lemma pointwise_element (f : R -> R -> R) (xi ei : list (list R)) :
  (forall v u, f v u = v) ->
  Forall2 (fun r s : list R => length r = length s) xi ei ->
  map2 (map2 f) xi ei = xi.
Proof.
  intros Hf; induction 1 as [|rx re xi ei Hlen _ IH]; cbn [map2]; [reflexivity|].
  now rewrite IH, pointwise_row.
Qed.

Lemma map2_map_l {A B C D} (f : B -> C -> D) (g : A -> B) l1 l2 :
  map2 f (map g l1) l2 = map2 (fun a c => f (g a) c) l1 l2.
Proof.
  revert l2; induction l1 as [|a l1 IH]; intros [|c l2]; cbn [map map2]; try reflexivity.
  now rewrite IH.
Qed.

Lemma map2_map_r {A B C D} (f : A -> C -> D) (g : B -> C) l1 l2 :
  map2 f l1 (map g l2) = map2 (fun a b => f a (g b)) l1 l2.
Proof.
  revert l2; induction l1 as [|a l1 IH]; intros [|c l2]; cbn [map map2]; try reflexivity.
  now rewrite IH.
Qed.

Lemma map_map2 {A B C D} (g : C -> D) (f : A -> B -> C) l1 l2 :
  map g (map2 f l1 l2) = map2 (fun a b => g (f a b)) l1 l2.
Proof.
  revert l2; induction l1 as [|a l1 IH]; intros [|c l2]; cbn [map map2]; try reflexivity.
  now rewrite IH.
Qed.

Lemma map2_map2_l {A B C D} (f : C -> B -> D) (g : A -> B -> C) l1 l2 :
  map2 f (map2 g l1 l2) l2 = map2 (fun a b => f (g a b) b) l1 l2.
Proof.
  revert l2; induction l1 as [|a l1 IH]; intros [|c l2]; cbn [map2]; try reflexivity.
  now rewrite IH.
Qed.

Lemma map2_map2_r {A B C D} (f : A -> C -> D) (g : A -> B -> C) l1 l2 :
  map2 f l1 (map2 g l1 l2) = map2 (fun a b => f a (g a b)) l1 l2.
Proof.
  revert l2; induction l1 as [|a l1 IH]; intros [|c l2]; cbn [map2]; try reflexivity.
  now rewrite IH.
Qed.

Lemma map2_map2_both {A B C D E} (f : C -> D -> E) (g : A -> B -> C) (h : A -> B -> D) l1 l2 :
  map2 f (map2 g l1 l2) (map2 h l1 l2) = map2 (fun a b => f (g a b) (h a b)) l1 l2.
Proof.
  revert l2; induction l1 as [|a l1 IH]; intros [|c l2]; cbn [map2]; try reflexivity.
  now rewrite IH.
Qed.

Lemma start_from_noise_row r a b m :
  r * a = 1 -> r * b = m ->
  forall rx re : list R, length rx = length re ->
  map2 Rminus (map (Rmult r) (map2 Rplus (map (Rmult a) rx) (map (Rmult b) re)))
              (map (Rmult m) re) = rx.
Proof.
  intros H1 H2. by_rows idtac.
  replace (r * (a * x + b * u) - m * u) with (r * a * x + (r * b - m) * u) by ring.
  rewrite H1, H2. ring.
Qed.

Lemma start_from_noise_element r a b m (xi ei : list (list R)) :
  r * a = 1 -> r * b = m ->
  Forall2 (fun p q : list R => length p = length q) xi ei ->
  map2 (map2 Rminus)
       (map (map (Rmult r)) (map2 (map2 Rplus) (map (map (Rmult a)) xi) (map (map (Rmult b)) ei)))
       (map (map (Rmult m)) ei) = xi.
Proof. intros H1 H2. by_elements (start_from_noise_row r a b m H1 H2). Qed.

Lemma noise_from_start_row r a b m :
  r * a = 1 -> r * b = m -> m <> 0 ->
  forall re rx : list R, length re = length rx ->
  map (fun v => v / m)
      (map2 Rminus (map (Rmult r) (map2 Rplus (map (Rmult a) rx) (map (Rmult b) re))) rx) = re.
Proof.
  intros H1 H2 Hm. by_rows idtac.
  replace (r * (a * u + b * x) - u) with ((r * a - 1) * u + (r * b) * x) by ring.
  rewrite H1, H2. field. exact Hm.
Qed.

Lemma noise_from_start_element r a b m (xi ei : list (list R)) :
  r * a = 1 -> r * b = m -> m <> 0 ->
  Forall2 (fun p q : list R => length p = length q) ei xi ->
  map (map (fun v => v / m))
      (map2 (map2 Rminus)
         (map (map (Rmult r)) (map2 (map2 Rplus) (map (map (Rmult a)) xi) (map (map (Rmult b)) ei)))
         xi) = ei.
Proof. intros H1 H2 Hm. by_elements (noise_from_start_row r a b m H1 H2 Hm). Qed.

Lemma start_from_v_row a b :
  a ^ 2 + b ^ 2 = 1 ->
  forall rx re : list R, length rx = length re ->
  map2 Rminus (map (Rmult a) (map2 Rplus (map (Rmult a) rx) (map (Rmult b) re)))
              (map (Rmult b) (map2 Rminus (map (Rmult a) re) (map (Rmult b) rx))) = rx.
Proof.
  intros H. by_rows idtac.
  replace (a * (a * x + b * u) - b * (a * u - b * x)) with ((a ^ 2 + b ^ 2) * x) by ring.
  rewrite H. ring.
Qed.

Lemma start_from_v_element a b (xi ei : list (list R)) :
  a ^ 2 + b ^ 2 = 1 ->
  Forall2 (fun p q : list R => length p = length q) xi ei ->
  map2 (map2 Rminus)
       (map (map (Rmult a)) (map2 (map2 Rplus) (map (map (Rmult a)) xi) (map (map (Rmult b)) ei)))
       (map (map (Rmult b)) (map2 (map2 Rminus) (map (map (Rmult a)) ei) (map (map (Rmult b)) xi)))
  = xi.
Proof. intros H. by_elements (start_from_v_row a b H). Qed.

Lemma start_from_noise_batch (cr ca cb cm : Z -> R) t (x eps : Tensor3) :
  Forall (fun i => cr i * ca i = 1 /\ cr i * cb i = cm i) t ->
  length t = length x -> same_shape x eps ->
  tsub (bmul (map cr t) (tadd (bmul (map ca t) x) (bmul (map cb t) eps)))
       (bmul (map cm t) eps) = x.
Proof.
  intros Ht Hlen Hs. revert t Ht Hlen.
  induction Hs as [|xi ei x eps Hel _ IH]; intros [|i t] Ht Hlen; try discriminate;
    [reflexivity|].
  inversion Ht as [|? ? [H1 H2] Ht']; subst. injection Hlen as Hlen.
  unfold tsub, tadd, t3map2, bmul in *. cbn [map map2].
  rewrite IH by assumption. f_equal. now apply start_from_noise_element.
Qed.

Lemma noise_from_start_batch (cr ca cb cm : Z -> R) t (x eps : Tensor3) :
  Forall (fun i => cr i * ca i = 1 /\ cr i * cb i = cm i /\ cm i <> 0) t ->
  length t = length x -> same_shape x eps ->
  bdiv (tsub (bmul (map cr t) (tadd (bmul (map ca t) x) (bmul (map cb t) eps))) x)
       (map cm t) = eps.
Proof.
  intros Ht Hlen Hs. revert t Ht Hlen.
  induction Hs as [|xi ei x eps Hel _ IH]; intros [|i t] Ht Hlen; try discriminate;
    [reflexivity|].
  inversion Ht as [|? ? (H1 & H2 & H3) Ht']; subst. injection Hlen as Hlen.
  unfold bdiv, tsub, tadd, t3map2, bmul in *. cbn [map map2].
  rewrite IH by assumption. f_equal. apply noise_from_start_element; try assumption.
  clear -Hel. induction Hel; constructor; auto.
Qed.

Lemma start_from_v_batch (ca cb : Z -> R) t (x eps : Tensor3) :
  Forall (fun i => ca i ^ 2 + cb i ^ 2 = 1) t ->
  length t = length x -> same_shape x eps ->
  tsub (bmul (map ca t) (tadd (bmul (map ca t) x) (bmul (map cb t) eps)))
       (bmul (map cb t) (tsub (bmul (map ca t) eps) (bmul (map cb t) x))) = x.
Proof.
  intros Ht Hlen Hs. revert t Ht Hlen.
  induction Hs as [|xi ei x eps Hel _ IH]; intros [|i t] Ht Hlen; try discriminate;
    [reflexivity|].
  inversion Ht as [|? ? H1 Ht']; subst. injection Hlen as Hlen.
  unfold tsub, tadd, t3map2, bmul in *. cbn [map map2].
  rewrite IH by assumption. f_equal. now apply start_from_v_element.
Qed.

(** The four converter coefficients of a regular engine at one timestep. *)
Lemma converter_coefficients m cfg e i :
  GaussianDiffusionConditional_init m cfg = Ok e ->
  regular_schedule (cfg_beta_schedule cfg) (cfg_timesteps cfg) ->
  (0 <= i < cfg_timesteps cfg)%Z ->
  let a := nth (Z.to_nat i) (alphas_cumprod e) 0 in
  nth (Z.to_nat i) (map sqrt (alphas_cumprod e)) 0 = sqrt a /\
  nth (Z.to_nat i) (map (fun a => sqrt (1 - a)) (alphas_cumprod e)) 0 = sqrt (1 - a) /\
  nth (Z.to_nat i) (map (fun a => sqrt (1 / a)) (alphas_cumprod e)) 0 = sqrt (1 / a) /\
  nth (Z.to_nat i) (map (fun a => sqrt (1 / a - 1)) (alphas_cumprod e)) 0 = sqrt (1 / a - 1) /\
  0 < a < 1.
Proof.
  intros He Hreg Hi a. pose proof (init_inv _ _ _ He) as Hb.
  destruct (regular_num _ _ _ He Hreg) as [_ Hn].
  assert (Hlt : (Z.to_nat i < length (betas e))%nat) by lia.
  rewrite !nth_map_in by (rewrite (built_len_acp _ _ _ Hb); exact Hlt).
  repeat split; try reflexivity; apply (regular_acp _ _ _ He Hreg _ Hlt).
Qed.

Lemma sqrt_recip_facts a :
  0 < a < 1 ->
  sqrt (1 / a) * sqrt a = 1 /\
  sqrt (1 / a) * sqrt (1 - a) = sqrt (1 / a - 1) /\
  sqrt (1 / a - 1) <> 0 /\
  sqrt a ^ 2 + sqrt (1 - a) ^ 2 = 1.
Proof.
  intros Ha.
  assert (Hi : 0 < 1 / a) by (unfold Rdiv; rewrite Rmult_1_l; apply Rinv_0_lt_compat; lra).
  assert (H1 : 1 / a * a = 1) by (field; lra).
  assert (H2 : 1 / a * (1 - a) = 1 / a - 1) by (field; lra).
  repeat split.
  - rewrite <- sqrt_mult by lra. rewrite H1. apply sqrt_1.
  - rewrite <- sqrt_mult by lra. now rewrite H2.
  - assert (0 < sqrt (1 / a - 1)); [|lra]. apply sqrt_lt_R0. nra.
  - rewrite !pow2_sqrt by lra. ring.
Qed.

(** X10: on a regular engine the converter inverts the forward process.
    From the noised sample x_t = q_sample(x_0, t, eps) and the noise,
    predict_start_from_noise gives x_0 back; from x_t and x_0,
    predict_noise_from_start gives the noise back. *)
Theorem q_sample_inverted m cfg e (t : list Z) (x0 eps : Tensor3) w :
  GaussianDiffusionConditional_init m cfg = Ok e ->
  regular_schedule (cfg_beta_schedule cfg) (cfg_timesteps cfg) ->
  Forall (fun i => 0 <= i < cfg_timesteps cfg)%Z t ->
  length t = length x0 ->
  same_shape x0 eps ->
  exists x_t,
    q_sample e x0 t (Some eps) w = Ok (x_t, w) /\
    predict_start_from_noise e x_t t eps = Ok x0 /\
    predict_noise_from_start e x_t t x0 = Ok eps.
Proof.
  intros He Hreg Ht Hlen Hs. pose proof (init_inv _ _ _ He) as Hb.
  assert (Hr : in_range e t).
  { unfold in_range. destruct (regular_num _ _ _ He Hreg) as [-> _]. exact Ht. }
  unfold q_sample, predict_start_from_noise, predict_noise_from_start, bind, ret, lift.
  rewrite (built_sqrt_acp _ _ _ Hb), (built_sqrt_1m_acp _ _ _ Hb),
    (built_sqrt_recip _ _ _ Hb), (built_sqrt_recipm1 _ _ _ Hb).
  rewrite !(extract_acp_ok _ _ _ Hb) by exact Hr. cbn [rbind].
  eexists. split; [reflexivity|].
  assert (Hc : Forall (fun i =>
                 let r := nth (Z.to_nat i) (map (fun a => sqrt (1 / a)) (alphas_cumprod e)) 0 in
                 let a := nth (Z.to_nat i) (map sqrt (alphas_cumprod e)) 0 in
                 let b := nth (Z.to_nat i) (map (fun a => sqrt (1 - a)) (alphas_cumprod e)) 0 in
                 let k := nth (Z.to_nat i) (map (fun a => sqrt (1 / a - 1)) (alphas_cumprod e)) 0 in
                 r * a = 1 /\ r * b = k /\ k <> 0) t).
  { apply Forall_forall; intros i Hin. rewrite Forall_forall in Ht.
    destruct (converter_coefficients _ _ _ i He Hreg (Ht i Hin)) as (-> & -> & -> & -> & Ha).
    cbv zeta. destruct (sqrt_recip_facts _ Ha) as (? & ? & ? & _). auto. }
  split; f_equal.
  - apply (start_from_noise_batch
             (fun i => nth (Z.to_nat i) (map (fun a => sqrt (1 / a)) (alphas_cumprod e)) 0)
             (fun i => nth (Z.to_nat i) (map sqrt (alphas_cumprod e)) 0)
             (fun i => nth (Z.to_nat i) (map (fun a => sqrt (1 - a)) (alphas_cumprod e)) 0)
             (fun i => nth (Z.to_nat i) (map (fun a => sqrt (1 / a - 1)) (alphas_cumprod e)) 0));
      try assumption.
    eapply Forall_impl; [|exact Hc]. cbv zeta beta. intros i (? & ? & _). auto.
  - apply (noise_from_start_batch
             (fun i => nth (Z.to_nat i) (map (fun a => sqrt (1 / a)) (alphas_cumprod e)) 0)
             (fun i => nth (Z.to_nat i) (map sqrt (alphas_cumprod e)) 0)
             (fun i => nth (Z.to_nat i) (map (fun a => sqrt (1 - a)) (alphas_cumprod e)) 0)
             (fun i => nth (Z.to_nat i) (map (fun a => sqrt (1 / a - 1)) (alphas_cumprod e)) 0));
      try assumption.
Qed.

Lemma q_sample_inverted_witness :
  exists e x_t,
    GaussianDiffusionConditional_init toy_net (config "cosine" 4 None "pred_noise") = Ok e /\
    q_sample e [[[1]]] [2%Z] (Some [[[3]]]) still_world = Ok (x_t, still_world) /\
    predict_start_from_noise e x_t [2%Z] [[[3]]] = Ok [[[1]]] /\
    predict_noise_from_start e x_t [2%Z] [[[1]]] = Ok [[[3]]].
Proof.
  destruct (cosine_engine false 4 None "pred_noise"%string) as (e & He & _);
    [lia|reflexivity|discriminate|].
  exists e.
  apply (q_sample_inverted toy_net (config "cosine" 4 None "pred_noise") e
           [2%Z] [[[1]]] [[[3]]] still_world) in He as Hx.
  - destruct Hx as (x_t & Hx). exists x_t. split; [exact He|exact Hx].
  - regular_cosine.
  - constructor; [cbn; lia|constructor].
  - reflexivity.
  - repeat constructor.
Defined.

(** X11: the v-parameterisation round trip on a regular engine: with
    x_t = q_sample(x_0, t, eps) and v = predict_v(x_0, t, eps),
    predict_start_from_v(x_t, t, v) is x_0. *)
Theorem v_roundtrip m cfg e (t : list Z) (x0 eps : Tensor3) w :
  GaussianDiffusionConditional_init m cfg = Ok e ->
  regular_schedule (cfg_beta_schedule cfg) (cfg_timesteps cfg) ->
  Forall (fun i => 0 <= i < cfg_timesteps cfg)%Z t ->
  length t = length x0 ->
  same_shape x0 eps ->
  exists x_t v,
    q_sample e x0 t (Some eps) w = Ok (x_t, w) /\
    predict_v e x0 t eps = Ok v /\
    predict_start_from_v e x_t t v = Ok x0.
Proof.
  intros He Hreg Ht Hlen Hs. pose proof (init_inv _ _ _ He) as Hb.
  assert (Hr : in_range e t).
  { unfold in_range. destruct (regular_num _ _ _ He Hreg) as [-> _]. exact Ht. }
  unfold q_sample, predict_v, predict_start_from_v, bind, ret, lift.
  rewrite (built_sqrt_acp _ _ _ Hb), (built_sqrt_1m_acp _ _ _ Hb).
  rewrite !(extract_acp_ok _ _ _ Hb) by exact Hr. cbn [rbind].
  eexists. eexists. split; [reflexivity|]. split; [reflexivity|]. f_equal.
  apply (start_from_v_batch
           (fun i => nth (Z.to_nat i) (map sqrt (alphas_cumprod e)) 0)
           (fun i => nth (Z.to_nat i) (map (fun a => sqrt (1 - a)) (alphas_cumprod e)) 0));
    try assumption.
  apply Forall_forall; intros i Hin. rewrite Forall_forall in Ht.
  destruct (converter_coefficients _ _ _ i He Hreg (Ht i Hin)) as (-> & -> & _ & _ & Ha).
  now destruct (sqrt_recip_facts _ Ha) as (_ & _ & _ & ?).
Qed.

Lemma v_roundtrip_witness :
  exists e x_t v,
    GaussianDiffusionConditional_init toy_net (config "cosine" 4 None "pred_v") = Ok e /\
    q_sample e [[[1]]] [2%Z] (Some [[[3]]]) still_world = Ok (x_t, still_world) /\
    predict_v e [[[1]]] [2%Z] [[[3]]] = Ok v /\
    predict_start_from_v e x_t [2%Z] v = Ok [[[1]]].
Proof.
  destruct (cosine_engine false 4 None "pred_v"%string) as (e & He & _);
    [lia|reflexivity|discriminate|].
  exists e.
  apply (v_roundtrip toy_net (config "cosine" 4 None "pred_v") e
           [2%Z] [[[1]]] [[[3]]] still_world) in He as Hx.
  - destruct Hx as (x_t & v & Hx). exists x_t, v. split; [exact He|exact Hx].
  - regular_cosine.
  - constructor; [cbn; lia|constructor].
  - reflexivity.
  - repeat constructor.
Defined.

(** ** Edge cases of the samplers *)

Lemma ddim_time_pairs_zero_steps T : ddim_time_pairs T 0 = Ok [].
Proof. reflexivity. Qed.

Lemma ddim_time_pairs_minus_one T : ddim_time_pairs T (-1) = Ok [].
Proof. reflexivity. Qed.

Lemma ddim_time_pairs_fails T S : (S < -1)%Z -> ddim_time_pairs T S = Raise RuntimeError.
Proof.
  intros H. unfold ddim_time_pairs. rewrite linspace_fails by lia. reflexivity.
Qed.

(** X12: an engine configured with zero sampling steps never calls the
    network: [sample] draws the starting noise and returns it (unnormalised
    when auto_normalize is set), under either sampler. *)
Theorem sample_zero_steps m cfg e cond inits cond_scale phi w :
  GaussianDiffusionConditional_init m cfg = Ok e ->
  cfg_sampling_timesteps cfg = Some 0%Z ->
  sample e cond inits cond_scale phi w =
  Ok (unnormalize e (fill3 (rng w (draws w))
                           (zeros3 (length cond, channels (model e), seq_length e))),
      next_draw EvRandn w).
Proof.
  intros He HS. pose proof (init_inv _ _ _ He) as Hb.
  pose proof (built_sampling _ _ _ Hb) as Hs. rewrite HS in Hs. cbn [default] in Hs.
  pose proof (built_sampling_le _ _ _ Hb) as Hle. rewrite Hs in Hle.
  unfold sample. rewrite (built_ddim _ _ _ Hb), Hs.
  destruct (Z.ltb_spec 0 (num_timesteps e)) as [Hpos|Hzero]; cbn [negb].
  - unfold ddim_sample. rewrite Hs, ddim_time_pairs_zero_steps. reflexivity.
  - assert (Hn : num_timesteps e = 0%Z) by lia.
    unfold p_sample_loop. rewrite Hn. reflexivity.
Qed.

Lemma sample_zero_steps_witness :
  exists e,
    GaussianDiffusionConditional_init toy_net (config "cosine" 4 (Some 0%Z) "pred_v") = Ok e /\
    sample e [[0]] [[0; 0; 0; 0]] 1 0 still_world =
    Ok (unnormalize e (fill3 (rng still_world (draws still_world))
                             (zeros3 (1%nat, channels (model e), seq_length e))),
        next_draw EvRandn still_world).
Proof.
  destruct (cosine_engine false 4 (Some 0%Z) "pred_v"%string) as (e & He & _);
    [lia|reflexivity|intros s [= <-]; lia|].
  exists e. split; [exact He|].
  apply (sample_zero_steps toy_net (config "cosine" 4 (Some 0%Z) "pred_v") e); [exact He|].
  reflexivity.
Defined.

(** X13: a resume at a starting timestep that is not positive runs no
    reverse step: at 0 and at -1 the supplied sample is returned as it is
    (unnormalised when auto_normalize is set) and the world is untouched;
    below -1 the call raises RuntimeError, from the negative step count of
    linspace. *)
Theorem inference_nonpositive_start e cond inits K data cond_scale phi w :
  (K <= 0)%Z ->
  inference e cond inits K data cond_scale phi w =
  if (K <? -1)%Z then Raise RuntimeError else Ok (unnormalize e data, w).
Proof.
  intros HK. unfold inference, Trainer_ddim_sample. cbn [default].
  destruct (Z.ltb_spec K (-1)) as [Hlow|Hhigh].
  - destruct (Z.ltb_spec K (Z.of_nat (length (betas e)))); [|lia].
    rewrite ddim_time_pairs_fails by lia. reflexivity.
  - assert (HK' : K = 0%Z \/ K = (-1)%Z) by lia.
    destruct HK' as [->| ->].
    + destruct (0 <? Z.of_nat (length (betas e)))%Z; reflexivity.
    + destruct (Z.ltb_spec (-1) (Z.of_nat (length (betas e)))); [|lia]. reflexivity.
Qed.

Lemma inference_nonpositive_start_witness :
  exists e,
    GaussianDiffusionConditional_init toy_net (config "cosine" 4 None "pred_v") = Ok e /\
    inference e [[0]] [[0; 0; 0; 0]] 0 [[[7]]] 1 0 still_world =
    Ok (unnormalize e [[[7]]], still_world).
Proof.
  destruct (cosine_engine false 4 None "pred_v"%string) as (e & He & _);
    [lia|reflexivity|discriminate|].
  exists e. split; [exact He|].
  apply (inference_nonpositive_start e [[0]] [[0; 0; 0; 0]] 0 [[[7]]] 1 0 still_world). lia.
Defined.

Lemma reversed_range_pos K :
  (0 < K)%Z -> reversed_range K = (K - 1)%Z :: reversed_range (K - 1).
Proof.
  intros HK. unfold reversed_range.
  replace (Z.to_nat K) with (S (Z.to_nat (K - 1))) by lia.
  rewrite seq_S, rev_app_distr. cbn [rev app map Nat.add]. f_equal. lia.
Qed.

Lemma predictions_from_output_out_of_range m cfg e x t out clip rederive :
  built m cfg e ->
  forallb (in_bounds (betas e)) t = false ->
  predictions_from_output e x t out clip rederive = Raise RuntimeError.
Proof.
  intros Hb Ht.
  assert (Hx : forall f, extract (map f (alphas_cumprod e)) t = Raise RuntimeError).
  { intros f. rewrite extract_forallb.
    rewrite (forallb_pointwise _ (in_bounds (betas e))), Ht; [reflexivity|].
    intros i. apply in_bounds_length. now rewrite length_map, (built_len_acp _ _ _ Hb). }
  unfold predictions_from_output, predict_start_from_noise, predict_noise_from_start,
    predict_start_from_v.
  rewrite (built_sqrt_acp _ _ _ Hb), (built_sqrt_recip _ _ _ Hb), !Hx. cbn [rbind].
  destruct (known_objective_cases _ (built_known _ _ _ Hb)) as [Ho|[Ho|Ho]]; rewrite Ho;
    reflexivity.
Qed.

Lemma model_predictions_out_of_range m cfg e x t cond inits cond_scale phi clip rederive w :
  built m cfg e ->
  forallb (in_bounds (betas e)) t = false ->
  model_predictions e x t cond inits cond_scale phi clip rederive w = Raise RuntimeError.
Proof.
  intros Hb Ht. unfold model_predictions, bind.
  destruct (forward_with_cond_scale_returns (model e) x t cond inits cond_scale phi w)
    as (out & w1 & ->).
  destruct (classifier_free_guidance e).
  - destruct (forward_with_cond_scale_returns (model e) x t (zeros_like cond)
                (zeros_like inits) cond_scale phi w1) as (out' & w2 & ->).
    unfold ret, lift.
    now rewrite (predictions_from_output_out_of_range _ _ _ _ _ _ _ _ Hb Ht).
  - unfold ret, lift.
    now rewrite (predictions_from_output_out_of_range _ _ _ _ _ _ _ _ Hb Ht).
Qed.

(** X14: a resume at a starting timestep above the number of timesteps
    raises RuntimeError, for every non-empty starting sample: the
    coefficient lookup of its first reverse step, at timestep K-1, is
    outside the schedule. *)
Theorem inference_beyond_schedule m cfg e cond inits K data cond_scale phi w :
  GaussianDiffusionConditional_init m cfg = Ok e ->
  (num_timesteps e < K)%Z ->
  data <> [] ->
  inference e cond inits K data cond_scale phi w = Raise RuntimeError.
Proof.
  intros He HK Hdata. pose proof (init_inv _ _ _ He) as Hb.
  pose proof (built_num _ _ _ Hb) as Hn.
  unfold inference. destruct (Z.ltb_spec K (Z.of_nat (length (betas e)))); [lia|].
  rewrite reversed_range_pos by lia. cbn [foldM].
  unfold bind at 1 2. unfold p_sample_step, bind at 1. unfold p_sample, bind at 1.
  unfold p_mean_variance, bind at 1.
  rewrite (model_predictions_out_of_range _ _ _ _ _ _ _ _ _ _ _ _ Hb); [reflexivity|].
  destruct data as [|d data]; [congruence|]. cbn [length repeat forallb].
  unfold in_bounds. destruct (Z.ltb_spec (K - 1) (Z.of_nat (length (betas e)))); [lia|].
  now rewrite andb_false_r.
Qed.

Lemma inference_beyond_schedule_witness :
  exists e,
    GaussianDiffusionConditional_init toy_net (config "cosine" 4 None "pred_v") = Ok e /\
    inference e [[0]] [[0; 0; 0; 0]] 5 [[[7]]] 1 0 still_world = Raise RuntimeError.
Proof.
  destruct (cosine_engine false 4 None "pred_v"%string) as (e & He & _ & _ & HT);
    [lia|reflexivity|discriminate|].
  exists e. split; [exact He|].
  apply (inference_beyond_schedule toy_net (config "cosine" 4 None "pred_v") e); [exact He| |].
  - rewrite HT. lia.
  - discriminate.
Defined.

(** ** The DDIM schedule *)

Lemma ddim_times_entry T S i :
  (1 <= S <= T)%Z ->
  ((Z.of_nat 0 * T - S) ÷ S = -1)%Z /\
  ((Z.of_nat (Z.to_nat S) * T - S) ÷ S = T - 1)%Z /\
  ((Z.of_nat i * T - S) ÷ S < (Z.of_nat (Datatypes.S i) * T - S) ÷ S)%Z.
Proof.
  intros HS. repeat split.
  - replace (Z.of_nat 0 * T - S)%Z with (- (1 * S))%Z by lia.
    rewrite Z.quot_opp_l by lia. rewrite Z.quot_mul by lia. reflexivity.
  - rewrite Z2Nat.id by lia. replace (S * T - S)%Z with ((T - 1) * S)%Z by lia.
    apply Z.quot_mul. lia.
  - destruct i as [|i].
    + replace (Z.of_nat 0 * T - S)%Z with (- (1 * S))%Z by lia.
      rewrite Z.quot_opp_l by lia. rewrite Z.quot_mul by lia.
      assert (0 <= (Z.of_nat 1 * T - S) ÷ S)%Z; [|lia].
      apply Z.quot_pos; lia.
    + rewrite !Z.quot_div_nonneg by nia.
      replace (Z.of_nat (Datatypes.S (Datatypes.S i)) * T - S)%Z
        with ((Z.of_nat (Datatypes.S i) * T - S) + T)%Z by lia.
      assert (H1 : ((Z.of_nat (Datatypes.S i) * T - S) / S + 1 =
                    (Z.of_nat (Datatypes.S i) * T - S + 1 * S) / S)%Z)
        by (rewrite Z.div_add by lia; reflexivity).
      assert (H2 : ((Z.of_nat (Datatypes.S i) * T - S + 1 * S) / S <=
                    (Z.of_nat (Datatypes.S i) * T - S + T) / S)%Z)
        by (apply Z.div_le_mono; lia).
      lia.
Qed.

Lemma pairs_of_consecutive {A} (g : nat -> A) n :
  combine (removelast (rev (map g (seq 0 (S n))))) (tl (rev (map g (seq 0 (S n))))) =
  rev (map (fun i => (g (S i), g i)) (seq 0 n)).
Proof.
  induction n as [|n IH]; [reflexivity|].
  rewrite (rev_map_seq_S (fun i => (g (S i), g i)) n), (rev_map_seq_S g (S n)).
  rewrite (rev_map_seq_S g n) in IH |- *.
  cbn [tl] in IH |- *.
  change (removelast (g (S n) :: g n :: rev (map g (seq 0 n))))
    with (g (S n) :: removelast (g n :: rev (map g (seq 0 n)))).
  cbn [combine]. f_equal. exact IH.
Qed.

Lemma ddim_time_pairs_consecutive T S :
  (1 <= S)%Z ->
  ddim_time_pairs T S =
  Ok (rev (map (fun i => ((Z.of_nat (Datatypes.S i) * T - S) ÷ S, (Z.of_nat i * T - S) ÷ S)%Z)
               (seq 0 (Z.to_nat S)))).
Proof.
  intros HS. rewrite ddim_time_pairs_closed by assumption. unfold ddim_times.
  replace (Z.to_nat (S + 1)) with (Datatypes.S (Z.to_nat S)) by lia.
  now rewrite (pairs_of_consecutive (fun i => (Z.of_nat i * T - S) ÷ S)%Z).
Qed.

(** The last pair of a DDIM schedule ends at -1. *)
Lemma ddim_time_pairs_last T S :
  (1 <= S)%Z ->
  exists front a, ddim_time_pairs T S = Ok (front ++ [(a, -1)%Z]).
Proof.
  intros HS. rewrite ddim_time_pairs_consecutive by assumption.
  replace (Z.to_nat S) with (Datatypes.S (Z.to_nat S - 1)) by lia.
  cbn [seq map rev]. eexists. eexists. f_equal. f_equal. f_equal. f_equal.
  replace (Z.of_nat 0 * T - S)%Z with (- (1 * S))%Z by lia.
  rewrite Z.quot_opp_l by lia. rewrite Z.quot_mul by lia. reflexivity.
Qed.

(** X15: the time pairs of DDIM sampling with 1 <= S <= T steps are the
    consecutive entries of one strictly decreasing sequence of S + 1 times
    that starts at T - 1 and ends at -1: S pairs, each starting where the
    one before ended. *)
Theorem ddim_time_pairs_schedule T S :
  (1 <= S <= T)%Z ->
  exists times,
    ddim_time_pairs T S = Ok (combine (removelast times) (tl times)) /\
    length times = Datatypes.S (Z.to_nat S) /\
    length (combine (removelast times) (tl times)) = Z.to_nat S /\
    hd 0%Z times = (T - 1)%Z /\
    last times 0%Z = (-1)%Z /\
    (forall i j, (i < j < length times)%nat -> (nth j times 0 < nth i times 0)%Z).
Proof.
  intros HS. exists (rev (ddim_times T S)).
  assert (Hlen : length (rev (ddim_times T S)) = Datatypes.S (Z.to_nat S)).
  { unfold ddim_times. rewrite length_rev, length_map, length_seq. lia. }
  split; [apply ddim_time_pairs_closed; lia|]. split; [exact Hlen|]. split; [|split; [|split]].
  - rewrite length_combine, removelast_length, Hlen.
    destruct (rev (ddim_times T S)) as [|x l]; [discriminate|].
    cbn [tl length] in *. lia.
  - unfold ddim_times. replace (Z.to_nat (S + 1)) with (Datatypes.S (Z.to_nat S)) by lia.
    rewrite rev_map_seq_S. cbn [hd]. apply (ddim_times_entry T S 0 HS).
  - unfold ddim_times. replace (Z.to_nat (S + 1)) with (Datatypes.S (Z.to_nat S)) by lia.
    cbn [seq map rev]. rewrite last_last. apply (ddim_times_entry T S 0 HS).
  - intros i j Hij. rewrite Hlen in Hij.
    assert (Hl : length (ddim_times T S) = Datatypes.S (Z.to_nat S)).
    { unfold ddim_times. rewrite length_map, length_seq. lia. }
    rewrite !rev_nth by (rewrite Hl; lia). rewrite Hl.
    assert (Hmono : forall a b, (a < b <= Z.to_nat S)%nat ->
              (nth a (ddim_times T S) 0 < nth b (ddim_times T S) 0)%Z).
    { intros a b Hab. induction b as [|b IHb]; [lia|].
      assert (Hstep : (nth b (ddim_times T S) 0 < nth (Datatypes.S b) (ddim_times T S) 0)%Z).
      { unfold ddim_times.
        rewrite !(nth_indep _ 0%Z ((fun i => (Z.of_nat i * T - S) ÷ S)%Z 0%nat))
          by (rewrite length_map, length_seq; lia).
        rewrite !(map_nth (fun i => (Z.of_nat i * T - S) ÷ S)%Z), !seq_nth by lia.
        cbn [Nat.add]. apply (ddim_times_entry T S b HS). }
      destruct (Nat.eq_dec a b) as [->|Hne]; [exact Hstep|].
      assert (nth a (ddim_times T S) 0 < nth b (ddim_times T S) 0)%Z by (apply IHb; lia).
      lia. }
    apply Hmono. lia.
Qed.

Lemma ddim_time_pairs_schedule_witness :
  exists times,
    ddim_time_pairs 10 5 = Ok (combine (removelast times) (tl times)) /\
    hd 0%Z times = 9%Z /\ last times 0%Z = (-1)%Z.
Proof.
  destruct (ddim_time_pairs_schedule 10 5 ltac:(lia)) as (times & H1 & _ & _ & H2 & H3 & _).
  exists times. repeat split; assumption.
Defined.

(** ** Postconditions of computations *)

Lemma ensures_ret {A} (a : A) (Q : A -> Prop) : Q a -> ensures (ret a) Q.
Proof. intros H w b w' [= <- _]. exact H. Qed.

Lemma ensures_lift {A} (r : result A) (Q : A -> Prop) :
  (forall a, r = Ok a -> Q a) -> ensures (lift r) Q.
Proof. intros H w b w'. unfold lift. destruct r; [|discriminate]. intros [= <- _]. auto. Qed.

Lemma ensures_bind {A B} (c : M A) (k : A -> M B) (P : A -> Prop) (Q : B -> Prop) :
  ensures c P -> (forall a, P a -> ensures (k a) Q) -> ensures (bind c k) Q.
Proof.
  intros Hc Hk w b w'. unfold bind.
  destruct (c w) as [[a w1]|] eqn:E; [|discriminate].
  intros H. exact (Hk a (Hc _ _ _ E) _ _ _ H).
Qed.

Lemma ensures_true {A} (c : M A) : ensures c (fun _ => True).
Proof. intros w a w' _. exact I. Qed.

Lemma ensures_run {A} (c : M A) (Q : A -> Prop) w :
  returns c -> ensures c Q -> exists a w', c w = Ok (a, w') /\ Q a.
Proof.
  intros Hr He. destruct (Hr w) as (a & w' & E). exists a, w'. split; [exact E|].
  exact (He _ _ _ E).
Qed.

Lemma foldM_app {A S} (f : S -> A -> M S) l1 l2 s w :
  foldM f (l1 ++ l2) s w = bind (foldM f l1 s) (foldM f l2) w.
Proof.
  revert s w; induction l1 as [|a l1 IH]; intros s w.
  - reflexivity.
  - cbn [app foldM]. unfold bind.
    destruct (f s a w) as [[s' w1]|]; [|reflexivity]. rewrite IH. reflexivity.
Qed.

Lemma ensures_foldM_last {A S} (f : S -> A -> M S) l a (Q : S -> Prop) :
  (forall s, ensures (f s a) Q) -> forall s, ensures (foldM f (l ++ [a]) s) Q.
Proof.
  intros Hf s w r w'. rewrite foldM_app.
  apply (ensures_bind _ _ (fun _ => True)); [apply ensures_true|].
  intros s' _. cbn [foldM].
  apply (ensures_bind _ _ Q); [apply Hf|]. intros s'' Hs. now apply ensures_ret.
Qed.

(** ** The range of a returned sample *)

Lemma within_clamp lo hi x : lo <= hi -> within lo hi (clamp lo hi x).
Proof.
  intros H. unfold within, clamp, t3map.
  apply Forall_forall; intros xi Hxi. apply in_map_iff in Hxi as (xi' & <- & _).
  apply Forall_forall; intros r Hr. apply in_map_iff in Hr as (r' & <- & _).
  apply Forall_forall; intros v Hv. apply in_map_iff in Hv as (v' & <- & _).
  now apply clip_bounds.
Qed.

Lemma predictions_from_output_clipped e x t out rederive pn xs :
  clip_min e <= clip_max e ->
  predictions_from_output e x t out true rederive = Ok (pn, xs) ->
  within (clip_min e) (clip_max e) xs.
Proof.
  intros Hc. unfold predictions_from_output, maybe_clip.
  destruct (String.eqb (objective e) "pred_noise").
  - destruct (predict_start_from_noise e x t out) as [x0|]; cbn [rbind]; [|discriminate].
    cbn [andb]. destruct rederive.
    + destruct (predict_noise_from_start _ _ _ _); cbn [rbind]; [|discriminate].
      intros [= _ <-]. now apply within_clamp.
    + intros [= _ <-]. now apply within_clamp.
  - destruct (String.eqb (objective e) "pred_x0").
    + destruct (predict_noise_from_start _ _ _ _); cbn [rbind]; [|discriminate].
      intros [= _ <-]. now apply within_clamp.
    + destruct (String.eqb (objective e) "pred_v"); [|discriminate].
      destruct (predict_start_from_v e x t out) as [x0|]; cbn [rbind]; [|discriminate].
      destruct (predict_noise_from_start _ _ _ _); cbn [rbind]; [|discriminate].
      intros [= _ <-]. now apply within_clamp.
Qed.

Lemma model_predictions_clipped e x t cond inits cond_scale phi rederive :
  clip_min e <= clip_max e ->
  ensures (model_predictions e x t cond inits cond_scale phi true rederive)
          (fun p => within (clip_min e) (clip_max e) (snd p)).
Proof.
  intros Hc. unfold model_predictions.
  apply (ensures_bind _ _ (fun _ => True)); [apply ensures_true|]. intros out _.
  apply (ensures_bind _ _ (fun _ => True)); [apply ensures_true|]. intros out' _.
  apply ensures_lift. intros [pn xs] H. cbn [snd].
  eapply predictions_from_output_clipped; eauto.
Qed.

Lemma ddim_step_last_clipped e batch cond inits cond_scale phi img a :
  clip_min e <= clip_max e ->
  ensures (ddim_step e batch cond inits cond_scale phi true img (a, (-1)%Z))
          (within (clip_min e) (clip_max e)).
Proof.
  intros Hc. unfold ddim_step.
  eapply ensures_bind; [apply model_predictions_clipped; exact Hc|].
  intros [pn xs] Hxs. cbn [snd] in Hxs. cbn [Z.ltb Z.compare]. now apply ensures_ret.
Qed.

Lemma within_row_point_mass lo hi (rx ry : list R) :
  Forall (fun v => lo <= v <= hi) rx ->
  Forall (fun v => lo <= v <= hi) (map2 Rplus (map (Rmult 1) rx) (map (Rmult 0) ry)).
Proof.
  intros H. revert ry; induction H as [|v rx Hv _ IH]; intros [|u ry]; cbn [map map2];
    try constructor; [lra|apply IH].
Qed.

Lemma within_element_point_mass lo hi (xi yi : list (list R)) :
  Forall (Forall (fun v => lo <= v <= hi)) xi ->
  Forall (Forall (fun v => lo <= v <= hi))
         (map2 (map2 Rplus) (map (map (Rmult 1)) xi) (map (map (Rmult 0)) yi)).
Proof.
  intros H. revert yi; induction H as [|rx xi Hr _ IH]; intros [|ry yi]; cbn [map map2];
    try constructor; [now apply within_row_point_mass|apply IH].
Qed.

Lemma within_point_mass lo hi (c1 c2 : list R) (xs x : Tensor3) :
  Forall (fun c => c = 1) c1 -> Forall (fun c => c = 0) c2 ->
  within lo hi xs ->
  within lo hi (tadd (bmul c1 xs) (bmul c2 x)).
Proof.
  unfold within, tadd, t3map2, bmul. intros H1 H2 H.
  revert c1 c2 x H1 H2; induction H as [|xi xs Hxi _ IH]; intros [|a c1] [|b c2] [|yi x] H1 H2;
    cbn [map2]; try constructor.
  - inversion H1; inversion H2; subst. now apply within_element_point_mass.
  - inversion H1; inversion H2; subst. now apply IH.
Qed.

Lemma within_badd_zero lo hi (x : Tensor3) (c : list R) :
  Forall (fun v => v = 0) c -> within lo hi x -> within lo hi (badd x c).
Proof.
  unfold within, badd. intros Hc H.
  revert c Hc; induction H as [|xi x Hxi _ IH]; intros [|c0 c] Hc; cbn [map2];
    try constructor.
  - inversion Hc; subst.
    apply Forall_forall; intros r Hr. apply in_map_iff in Hr as (r' & <- & Hr').
    apply Forall_forall; intros v Hv. apply in_map_iff in Hv as (v' & <- & Hv').
    rewrite Forall_forall in Hxi. specialize (Hxi _ Hr').
    rewrite Forall_forall in Hxi. specialize (Hxi _ Hv'). lra.
  - inversion Hc; subst. now apply IH.
Qed.

Lemma point_mass_row :
  forall rx ry : list R, length rx = length ry ->
  map2 Rplus (map (Rmult 1) rx) (map (Rmult 0) ry) = rx.
Proof. by_rows ltac:(ring). Qed.

Lemma point_mass_element (xi yi : list (list R)) :
  Forall2 (fun p q : list R => length p = length q) xi yi ->
  map2 (map2 Rplus) (map (map (Rmult 1)) xi) (map (map (Rmult 0)) yi) = xi.
Proof. by_elements point_mass_row. Qed.

Lemma point_mass_mean (xs x : Tensor3) :
  same_shape xs x ->
  tadd (bmul (repeat 1 (length x)) xs) (bmul (repeat 0 (length x)) x) = xs.
Proof.
  unfold tadd, t3map2, bmul.
  induction 1 as [|xi yi xs x Hel _ IH]; [reflexivity|].
  cbn [length repeat map2]. rewrite IH. f_equal. now apply point_mass_element.
Qed.

Lemma extract_repeat buf (i : Z) n :
  in_bounds buf i = true ->
  extract buf (repeat i n) = Ok (repeat (nth (Z.to_nat i) buf 0) n).
Proof.
  intros Hi. rewrite extract_forallb.
  assert (H : forallb (in_bounds buf) (repeat i n) = true).
  { apply forallb_forall. intros j Hj. apply repeat_spec in Hj. now subst. }
  rewrite H, map_repeat. reflexivity.
Qed.

Lemma q_posterior_first m cfg e (x_start x : Tensor3) n :
  GaussianDiffusionConditional_init m cfg = Ok e ->
  regular_schedule (cfg_beta_schedule cfg) (cfg_timesteps cfg) ->
  q_posterior e x_start x (repeat 0%Z n) =
  Ok (tadd (bmul (repeat 1 n) x_start) (bmul (repeat 0 n) x),
      repeat 0 n, repeat (ln 1e-20) n).
Proof.
  intros He Hreg. pose proof (init_inv _ _ _ He) as Hb.
  destruct (posterior_first_coefficients _ _ _ He Hreg) as (Hv & Hlv & H1 & H2).
  assert (Hn : (0 < length (betas e))%nat).
  { destruct (regular_num _ _ _ He Hreg) as [_ ->]. destruct Hreg as [HT _]. lia. }
  assert (Hin : forall buf, length buf = length (betas e) -> in_bounds buf 0 = true).
  { intros buf Hl. apply in_bounds_spec. lia. }
  unfold q_posterior.
  rewrite !extract_repeat
    by (apply Hin; first [ apply (built_len_coef1 _ _ _ Hb) | apply (built_len_coef2 _ _ _ Hb)
                         | apply (built_len_variance _ _ _ Hb)
                         | apply (built_len_log_variance _ _ _ Hb) ]).
  cbn [rbind Z.to_nat]. now rewrite Hv, Hlv, H1, H2.
Qed.

(** X16: at timestep 0 the posterior of a regular engine is a point mass on
    the predicted start: [q_posterior] returns x_start itself as the mean,
    the variance 0 and the clipped log-variance ln 1e-20, for every batch. *)
Theorem q_posterior_first_timestep m cfg e (x_start x : Tensor3) :
  GaussianDiffusionConditional_init m cfg = Ok e ->
  regular_schedule (cfg_beta_schedule cfg) (cfg_timesteps cfg) ->
  same_shape x_start x ->
  q_posterior e x_start x (repeat 0%Z (length x)) =
  Ok (x_start, repeat 0 (length x), repeat (ln 1e-20) (length x)).
Proof.
  intros He Hreg Hs.
  rewrite (q_posterior_first _ _ _ _ _ _ He Hreg). now rewrite point_mass_mean.
Qed.

Lemma q_posterior_first_timestep_witness :
  exists e,
    GaussianDiffusionConditional_init toy_net (config "cosine" 4 None "pred_v") = Ok e /\
    q_posterior e [[[3]]] [[[5]]] [0%Z] = Ok ([[[3]]], [0], [ln 1e-20]).
Proof.
  destruct (cosine_engine false 4 None "pred_v"%string) as (e & He & _);
    [lia|reflexivity|discriminate|].
  exists e. split; [exact He|].
  apply (q_posterior_first_timestep toy_net (config "cosine" 4 None "pred_v") e
           [[[3]]] [[[5]]] He).
  - regular_cosine.
  - repeat constructor.
Defined.

Lemma Forall_repeat {A} (P : A -> Prop) a n : P a -> Forall P (repeat a n).
Proof. intros H. induction n; cbn [repeat]; constructor; auto. Qed.

Lemma p_sample_first_clipped m cfg e x cond inits cond_scale phi :
  GaussianDiffusionConditional_init m cfg = Ok e ->
  regular_schedule (cfg_beta_schedule cfg) (cfg_timesteps cfg) ->
  clip_min e <= clip_max e ->
  ensures (p_sample e x 0 cond inits cond_scale phi true)
          (fun r => within (clip_min e) (clip_max e) (fst r)).
Proof.
  intros He Hreg Hc. unfold p_sample.
  apply (ensures_bind _ _ (fun r => within (clip_min e) (clip_max e) (fst (fst (fst r))))).
  - unfold p_mean_variance.
    apply (ensures_bind _ _ (fun _ => True)); [apply ensures_true|]. intros preds _.
    rewrite (q_posterior_first _ _ _ _ _ _ He Hreg). unfold lift, bind, ret.
    intros w r w' [= <- _]. cbn [fst].
    apply within_point_mass; try (apply Forall_repeat; reflexivity).
    now apply within_clamp.
  - intros [[[mu v] lv] xs] Hmu. cbn [fst] in Hmu. cbn [Z.ltb Z.compare].
    apply ensures_ret. cbn [fst]. apply within_badd_zero; [|exact Hmu].
    apply Forall_forall. intros s Hs. apply in_map_iff in Hs as (s' & <- & _). ring.
Qed.

Lemma reversed_range_last T :
  (0 < T)%Z -> exists front, reversed_range T = front ++ [0%Z].
Proof.
  intros HT. unfold reversed_range.
  replace (Z.to_nat T) with (S (Z.to_nat T - 1)) by lia.
  cbn [seq rev]. rewrite map_app. eexists. reflexivity.
Qed.

Lemma in_reversed_range T t : In t (reversed_range T) -> (0 <= t < T)%Z.
Proof.
  unfold reversed_range. intros H. apply in_map_iff in H as (i & <- & Hi).
  apply in_rev, in_seq in Hi. lia.
Qed.

Lemma returns_randn_like x : returns (randn_like x).
Proof. intros w. eexists. eexists. reflexivity. Qed.

Lemma returns_randn shape : returns (randn shape).
Proof. intros w. eexists. eexists. reflexivity. Qed.

Section BuiltSamplers.

Variables (m : FullyConditionedUnet) (cfg : Config) (e : Engine).
Hypothesis Hb : built m cfg e.

Lemma p_sample_returns x t cond inits cond_scale phi clip :
  (0 <= t < num_timesteps e)%Z ->
  returns (p_sample e x t cond inits cond_scale phi clip).
Proof.
  intros Ht. unfold p_sample. apply returns_bind.
  - apply (p_mean_variance_returns _ _ _ Hb). now apply in_range_repeat.
  - intros [[[mu v] lv] xs]. destruct (0 <? t)%Z.
    + apply returns_bind; [apply returns_randn_like|]. intros noise. apply returns_ret.
    + apply returns_ret.
Qed.

Lemma p_sample_step_returns cond inits cond_scale phi img t :
  (0 <= t < num_timesteps e)%Z ->
  returns (p_sample_step e cond inits cond_scale phi img t).
Proof.
  intros Ht. unfold p_sample_step. apply returns_bind; [now apply p_sample_returns|].
  intros r. apply returns_ret.
Qed.

Lemma p_sample_loop_returns shape cond inits cond_scale phi :
  returns (p_sample_loop e shape cond inits cond_scale phi).
Proof.
  unfold p_sample_loop. apply returns_bind; [apply returns_randn|]. intros img.
  apply returns_bind; [|intros; apply returns_ret].
  apply returns_foldM. intros s t Ht. apply p_sample_step_returns.
  now apply in_reversed_range.
Qed.

Lemma ddim_sample_returns shape cond inits cond_scale phi clip :
  (-1 <= sampling_timesteps e)%Z ->
  returns (ddim_sample e shape cond inits cond_scale phi clip).
Proof.
  intros HS w. unfold ddim_sample, bind, lift.
  destruct (ddim_time_pairs_ok (num_timesteps e) (sampling_timesteps e) HS) as [pairs Hp].
  rewrite Hp. unfold randn, randn_like.
  assert (Hret : forall s a, In a pairs ->
            returns (ddim_step e (fst (fst shape)) cond inits cond_scale phi clip s a)).
  { intros s [a b] Hin.
    destruct (ddim_time_pairs_in_range _ _ _ (built_sampling_le _ _ _ Hb) Hp a b Hin).
    now apply (ddim_step_returns _ _ _ Hb). }
  destruct (returns_foldM _ pairs Hret
              (fill3 (rng w (draws w)) (zeros3 shape)) (next_draw EvRandn w))
    as (img & w' & ->).
  eexists. eexists. reflexivity.
Qed.

End BuiltSamplers.

Lemma p_sample_loop_clipped m cfg e shape cond inits cond_scale phi :
  GaussianDiffusionConditional_init m cfg = Ok e ->
  regular_schedule (cfg_beta_schedule cfg) (cfg_timesteps cfg) ->
  clip_min e <= clip_max e ->
  ensures (p_sample_loop e shape cond inits cond_scale phi)
          (fun img => exists y, img = unnormalize e y /\ within (clip_min e) (clip_max e) y).
Proof.
  intros He Hreg Hc. unfold p_sample_loop.
  apply (ensures_bind _ _ (fun _ => True)); [apply ensures_true|]. intros img0 _.
  destruct (reversed_range_last (num_timesteps e)) as [front ->].
  { destruct (regular_num _ _ _ He Hreg) as [-> _]. now destruct Hreg. }
  eapply ensures_bind.
  - apply ensures_foldM_last. intros s. unfold p_sample_step.
    eapply ensures_bind; [apply (p_sample_first_clipped _ _ _ _ _ _ _ _ He Hreg Hc)|].
    intros r Hr. apply ensures_ret. exact Hr.
  - intros y Hy. apply ensures_ret. now exists y.
Qed.

Lemma ddim_sample_clipped e shape cond inits cond_scale phi :
  (1 <= sampling_timesteps e)%Z ->
  clip_min e <= clip_max e ->
  ensures (ddim_sample e shape cond inits cond_scale phi true)
          (fun img => exists y, img = unnormalize e y /\ within (clip_min e) (clip_max e) y).
Proof.
  intros HS Hc. unfold ddim_sample.
  destruct (ddim_time_pairs_last (num_timesteps e) (sampling_timesteps e) HS)
    as (front & a & ->).
  apply (ensures_bind _ _ (fun pairs => pairs = front ++ [(a, (-1)%Z)])).
  { apply ensures_lift. now intros pairs [= <-]. }
  intros pairs ->.
  apply (ensures_bind _ _ (fun _ => True)); [apply ensures_true|]. intros img0 _.
  eapply ensures_bind.
  - apply ensures_foldM_last. intros s. now apply ddim_step_last_clipped.
  - intros y Hy. apply ensures_ret. now exists y.
Qed.

(** X17: every sample drawn from a regular engine with at least one
    sampling step lies in the clipping range: with a network whose output
    has the shape of its input, [sample] returns, under either sampler and
    in every world, the unnormalisation of a tensor whose entries are all
    within [clip_min, clip_max]. *)
Theorem sample_within_clip m cfg e cond inits cond_scale phi w :
  GaussianDiffusionConditional_init m cfg = Ok e ->
  regular_schedule (cfg_beta_schedule cfg) (cfg_timesteps cfg) ->
  shape_preserving m ->
  (1 <= sampling_timesteps e)%Z ->
  clip_min e <= clip_max e ->
  exists y w',
    sample e cond inits cond_scale phi w = Ok (unnormalize e y, w') /\
    within (clip_min e) (clip_max e) y.
Proof.
  intros He Hreg _ HS Hc. pose proof (init_inv _ _ _ He) as Hb.
  unfold sample. set (shape := (length cond, channels (model e), seq_length e)).
  destruct (is_ddim_sampling e); cbn [negb].
  - destruct (ensures_run _ _ w
                (ddim_sample_returns _ _ _ Hb shape cond inits cond_scale phi true ltac:(lia))
                (ddim_sample_clipped e shape cond inits cond_scale phi HS Hc))
      as (img & w' & E & y & -> & Hy).
    now exists y, w'.
  - destruct (ensures_run _ _ w
                (p_sample_loop_returns _ _ _ Hb shape cond inits cond_scale phi)
                (p_sample_loop_clipped _ _ _ shape cond inits cond_scale phi He Hreg Hc))
      as (img & w' & E & y & -> & Hy).
    now exists y, w'.
Qed.

Lemma sample_within_clip_witness :
  exists e y w',
    GaussianDiffusionConditional_init toy_net (config "cosine" 4 (Some 2%Z) "pred_v") = Ok e /\
    sample e [[0]] [[0; 0; 0; 0]] 1 0 noisy_world = Ok (unnormalize e y, w') /\
    within (clip_min e) (clip_max e) y.
Proof.
  destruct (cosine_engine false 4 (Some 2%Z) "pred_v"%string) as (e & He & Hb & _);
    [lia|reflexivity|intros s [= <-]; lia|].
  pose proof (init_inv_posterior _ _ _ He) as Hp.
  destruct (sample_within_clip toy_net (config "cosine" 4 (Some 2%Z) "pred_v") e
              [[0]] [[0; 0; 0; 0]] 1 0 noisy_world He) as (y & w' & H).
  - regular_cosine.
  - exact toy_net_shape_preserving.
  - rewrite (built_sampling _ _ _ Hb). cbn. lia.
  - rewrite (built_clip_min _ _ Hp), (built_clip_max _ _ Hp). cbn. lra.
  - exists e, y, w'. split; [exact He|exact H].
Defined.

(** ** The trace of the ancestral sampler *)

Lemma imap_from_length {A B} (f : nat -> A -> B) i l : length (imap_from f i l) = length l.
Proof. revert i; induction l as [|a l IH]; intros i; cbn [imap_from length]; auto. Qed.

Lemma fill3_length g x : length (fill3 g x) = length x.
Proof. apply imap_from_length. Qed.

Lemma zeros3_length shape : length (zeros3 shape) = fst (fst shape).
Proof. destruct shape as [[b c] n]. cbn [zeros3 fst]. apply repeat_length. Qed.

Lemma tadd_length x y : length (tadd x y) = Nat.min (length x) (length y).
Proof. apply map2_length. Qed.

Lemma tsub_length x y : length (tsub x y) = Nat.min (length x) (length y).
Proof. apply map2_length. Qed.

Lemma bmul_length c x : length (bmul c x) = Nat.min (length c) (length x).
Proof. apply map2_length. Qed.

Lemma bdiv_length x c : length (bdiv x c) = Nat.min (length x) (length c).
Proof. apply map2_length. Qed.

Lemma t3map_length f x : length (t3map f x) = length x.
Proof. apply length_map. Qed.

Lemma maybe_clip_length e c x : length (maybe_clip e c x) = length x.
Proof. unfold maybe_clip, clamp. destruct c; [apply t3map_length|reflexivity]. Qed.

Ltac batch_lengths :=
  repeat first [ rewrite tadd_length | rewrite tsub_length | rewrite bmul_length
               | rewrite bdiv_length | rewrite t3map_length | rewrite maybe_clip_length
               | rewrite map2_length | rewrite length_map | rewrite fill3_length ].

Lemma forward_length net x t cond inits p :
  batch_preserving net ->
  ensures (FullyConditionedUnet_forward net x t cond inits p) (fun out => length out = length x).
Proof.
  intros Hn. unfold FullyConditionedUnet_forward.
  apply (ensures_bind _ _ (fun _ => True)); [apply ensures_true|]. intros _ _.
  apply (ensures_bind _ _ (fun _ => True)); [apply ensures_true|]. intros c _.
  apply ensures_ret. apply Hn.
Qed.

Lemma forward_shape net x t cond inits p :
  shape_preserving net ->
  ensures (FullyConditionedUnet_forward net x t cond inits p) (fun out => same_shape x out).
Proof.
  intros Hn. unfold FullyConditionedUnet_forward.
  apply (ensures_bind _ _ (fun _ => True)); [apply ensures_true|]. intros _ _.
  apply (ensures_bind _ _ (fun _ => True)); [apply ensures_true|]. intros c _.
  apply ensures_ret. apply Hn.
Qed.

Lemma forward_with_cond_scale_length net x t cond inits cond_scale phi :
  batch_preserving net ->
  ensures (FullyConditionedUnet_forward_with_cond_scale net x t cond inits cond_scale phi)
          (fun out => length out = length x).
Proof.
  intros Hn. unfold FullyConditionedUnet_forward_with_cond_scale, forward_with_cond_scale.
  eapply ensures_bind; [apply forward_length; exact Hn|]. intros logits Hl.
  destruct (Req_EM_T cond_scale 1); [now apply ensures_ret|].
  eapply ensures_bind; [apply forward_length; exact Hn|]. intros null Hnull.
  cbv beta in Hl, Hnull.
  destruct (Req_EM_T phi 0); apply ensures_ret; unfold tscale; batch_lengths; lia.
Qed.

Lemma predictions_from_output_length e x t out clip rederive pn xs :
  length t = length x -> length out = length x ->
  predictions_from_output e x t out clip rederive = Ok (pn, xs) ->
  length xs = length x.
Proof.
  intros Ht Hout. unfold predictions_from_output, predict_start_from_noise,
    predict_noise_from_start, predict_start_from_v.
  destruct (extract (sqrt_recip_alphas_cumprod e) t) as [a|] eqn:Ea;
    destruct (extract (sqrt_recipm1_alphas_cumprod e) t) as [b|] eqn:Eb;
    destruct (extract (sqrt_alphas_cumprod e) t) as [c|] eqn:Ec;
    destruct (extract (sqrt_one_minus_alphas_cumprod e) t) as [d|] eqn:Ed;
    try apply extract_length in Ea; try apply extract_length in Eb;
    try apply extract_length in Ec; try apply extract_length in Ed;
    cbn [rbind];
    destruct (String.eqb (objective e) "pred_noise");
    try destruct (clip && rederive)%bool;
    try destruct (String.eqb (objective e) "pred_x0");
    try destruct (String.eqb (objective e) "pred_v");
    try discriminate; intros [= _ <-]; batch_lengths; lia.
Qed.

Lemma model_predictions_length e x t cond inits cond_scale phi clip rederive :
  batch_preserving (model e) -> length t = length x ->
  ensures (model_predictions e x t cond inits cond_scale phi clip rederive)
          (fun p => length (snd p) = length x).
Proof.
  intros Hn Ht. unfold model_predictions.
  eapply ensures_bind; [apply forward_with_cond_scale_length; exact Hn|]. intros out Hout.
  apply (ensures_bind _ _ (fun o => length o = length x)).
  - destruct (classifier_free_guidance e); [|now apply ensures_ret].
    eapply ensures_bind; [apply forward_with_cond_scale_length; exact Hn|].
    intros un Hun. cbv beta in Hout, Hun. apply ensures_ret. unfold tscale. batch_lengths. lia.
  - intros out' Hout'. apply ensures_lift. intros [pn xs] H. cbn [snd].
    eapply predictions_from_output_length; eauto.
Qed.

Lemma p_sample_length e x t cond inits cond_scale phi clip :
  batch_preserving (model e) ->
  ensures (p_sample e x t cond inits cond_scale phi clip)
          (fun r => length (fst r) = length x).
Proof.
  intros Hn. unfold p_sample.
  assert (Ht : length (repeat t (length x)) = length x) by apply repeat_length.
  apply (ensures_bind _ _ (fun r => length (fst (fst (fst r))) = length x /\
                                    length (snd (fst r)) = length x)).
  - unfold p_mean_variance.
    eapply ensures_bind; [apply model_predictions_length; assumption|].
    intros preds Hp. cbv beta in Hp. unfold q_posterior.
    destruct (extract (posterior_mean_coef1 e) _) as [c1|] eqn:E1;
      [|intros w r w'; unfold lift, bind; cbn [rbind]; discriminate].
    destruct (extract (posterior_mean_coef2 e) _) as [c2|] eqn:E2;
      [|intros w r w'; unfold lift, bind; cbn [rbind]; discriminate].
    destruct (extract (posterior_variance e) _) as [pv|] eqn:E3;
      [|intros w r w'; unfold lift, bind; cbn [rbind]; discriminate].
    destruct (extract (posterior_log_variance_clipped e) _) as [plv|] eqn:E4;
      [|intros w r w'; unfold lift, bind; cbn [rbind]; discriminate].
    apply extract_length in E1, E2, E4.
    intros w r w'. unfold lift, bind, ret. cbn [rbind]. intros [= <- _]. cbn [fst snd].
    split; [|lia]. destruct clip; unfold clamp; batch_lengths; lia.
  - intros [[[mu v] lv] xs] [Hmu Hlv]. cbn [fst snd] in Hmu, Hlv.
    destruct (0 <? t)%Z.
    + apply (ensures_bind _ _ (fun noise => length noise = length x)).
      * intros w r w' [= <- _]. apply fill3_length.
      * intros noise Hnoise. apply ensures_ret. cbn [fst]. batch_lengths. lia.
    + apply ensures_ret. cbn [fst]. unfold badd. batch_lengths. lia.
Qed.

Lemma p_sample_emits e x t cond inits cond_scale phi clip w r w' :
  p_sample e x t cond inits cond_scale phi clip w = Ok (r, w') ->
  w' = advance w (p_sample_events e (length x) cond inits cond_scale t).
Proof.
  unfold p_sample, p_mean_variance, p_sample_events, bind.
  destruct (model_predictions_pure e x (repeat t (length x)) cond inits cond_scale phi
              false false) as [res Hres].
  rewrite Hres. destruct res as [preds|]; cbn [outcome]; [|discriminate].
  unfold lift. destruct (q_posterior _ _ _ _) as [[[mu v] lv]|]; [|discriminate].
  unfold ret. destruct (0 <? t)%Z.
  - unfold randn_like. intros [= _ <-].
    rewrite next_draw_advance by reflexivity. now rewrite advance_app.
  - intros [= _ <-]. now rewrite app_nil_r.
Qed.

Lemma p_sample_steps_run m cfg e cond inits cond_scale phi ts :
  built m cfg e ->
  batch_preserving (model e) ->
  (forall t, In t ts -> (0 <= t < num_timesteps e)%Z) ->
  forall img w, exists img',
    foldM (p_sample_step e cond inits cond_scale phi) ts img w =
    Ok (img', advance w (concat (map (p_sample_events e (length img) cond inits cond_scale) ts)))
    /\ length img' = length img.
Proof.
  intros Hb Hn. induction ts as [|t ts IH]; intros Hts img w.
  - exists img. cbn [foldM map concat]. unfold ret. now rewrite advance_nil.
  - cbn [foldM map concat]. unfold bind at 1. unfold p_sample_step at 1. unfold bind at 1.
    destruct (p_sample_returns _ _ _ Hb img t cond inits cond_scale phi true
                (Hts t (or_introl eq_refl)) w) as (r & w1 & E).
    rewrite E. unfold ret.
    pose proof (p_sample_emits _ _ _ _ _ _ _ _ _ _ _ E) as ->.
    pose proof (p_sample_length e img t cond inits cond_scale phi true Hn _ _ _ E) as Hlen.
    cbv beta in Hlen.
    destruct (IH (fun u Hu => Hts u (or_intror Hu)) (fst r)
                 (advance w (p_sample_events e (length img) cond inits cond_scale t)))
      as (img' & E' & Hlen').
    exists img'. rewrite E', Hlen, advance_app. split; [reflexivity|]. lia.
Qed.

(** X18: an engine built without a number of sampling steps samples by the
    ancestral loop.  With a network whose output has the shape of its
    input, [sample] returns in every world, and its log is: the draw of the starting noise,
    then for each timestep from T-1 down to 0 the network calls of
    [model_predictions] on the whole batch, followed by one noise draw at
    every timestep but 0. *)
Theorem sample_ancestral_trace m cfg e cond inits cond_scale phi w :
  GaussianDiffusionConditional_init m cfg = Ok e ->
  cfg_sampling_timesteps cfg = None ->
  shape_preserving m ->
  exists img,
    sample e cond inits cond_scale phi w =
    Ok (img,
        advance w (EvRandn ::
                   concat (map (p_sample_events e (length cond) cond inits cond_scale)
                               (reversed_range (num_timesteps e))))).
Proof.
  intros He HS Hn. apply shape_preserving_batch in Hn.
  pose proof (init_inv _ _ _ He) as Hb.
  rewrite <- (built_model _ _ _ Hb) in Hn.
  pose proof (built_sampling _ _ _ Hb) as Hs. rewrite HS in Hs. cbn [default] in Hs.
  unfold sample. rewrite (built_ddim _ _ _ Hb), Hs, Z.ltb_irrefl. cbn [negb].
  unfold p_sample_loop, bind at 1 2. unfold randn, randn_like.
  set (shape := (length cond, channels (model e), seq_length e)).
  destruct (p_sample_steps_run _ _ _ cond inits cond_scale phi
              (reversed_range (num_timesteps e)) Hb Hn (in_reversed_range _)
              (fill3 (rng w (draws w)) (zeros3 shape)) (next_draw EvRandn w))
    as (img & E & Hlen).
  rewrite E. unfold ret. rewrite fill3_length, zeros3_length. cbn [shape fst].
  exists (unnormalize e img). f_equal. f_equal.
  rewrite next_draw_advance by reflexivity. now rewrite advance_app.
Qed.

Lemma sample_ancestral_trace_witness :
  exists e img w',
    GaussianDiffusionConditional_init toy_net (config "cosine" 2 None "pred_v") = Ok e /\
    sample e [[0]] [[0; 0; 0; 0]] 1 0 still_world = Ok (img, w') /\
    trace w' = [EvRandn;
                EvForward [1%Z] [[0]] (Some [[0; 0; 0; 0]]) (Some 0);
                EvRandn;
                EvForward [0%Z] [[0]] (Some [[0; 0; 0; 0]]) (Some 0)].
Proof.
  destruct (cosine_engine false 2 None "pred_v"%string) as (e & He & Hb & _ & HT);
    [lia|reflexivity|discriminate|].
  destruct (sample_ancestral_trace toy_net (config "cosine" 2 None "pred_v") e
              [[0]] [[0; 0; 0; 0]] 1 0 still_world He eq_refl) as (img & E).
  - exact toy_net_shape_preserving.
  - exists e, img. eexists. split; [exact He|]. split; [exact E|].
    rewrite HT. unfold p_sample_events, mp_events.
    rewrite (built_guidance _ _ _ Hb). cbn [cfg_classifier_free_guidance config config_with].
    change (reversed_range 2) with [1; 0]%Z.
    cbn [map concat length repeat Z.ltb Z.compare app]. rewrite !fw_events_one.
    reflexivity.
Defined.

(** ** The training loss and its timesteps *)

Lemma returns_prob_mask_like batch p : returns (prob_mask_like batch p).
Proof.
  unfold prob_mask_like. destruct (Req_EM_T p 1); [apply returns_ret|].
  destruct (Req_EM_T p 0); [apply returns_ret|].
  apply returns_bind; [|intros; apply returns_ret].
  intros w. eexists. eexists. reflexivity.
Qed.

Lemma forward_returns_any net x t cond inits p :
  returns (FullyConditionedUnet_forward net x t cond inits p).
Proof.
  unfold FullyConditionedUnet_forward.
  apply returns_bind; [intros w; eexists; eexists; reflexivity|]. intros _.
  apply returns_bind; [|intros; apply returns_ret].
  unfold choose_cond. destruct (Rgtb _ 0); [|apply returns_ret].
  apply returns_bind; [apply returns_prob_mask_like|]. intros; apply returns_ret.
Qed.

Lemma returns_rand_like x : returns (rand_like x).
Proof. intros w. eexists. eexists. reflexivity. Qed.

Lemma in_range_forallb m cfg e t :
  built m cfg e -> (in_range e t <-> forallb (in_bounds (betas e)) t = true).
Proof.
  intros Hb. unfold in_range. rewrite forallb_forall, Forall_forall.
  split; intros H i Hi; specialize (H i Hi).
  - apply in_bounds_spec. rewrite <- (built_num _ _ _ Hb). exact H.
  - apply in_bounds_spec in H. rewrite (built_num _ _ _ Hb). exact H.
Qed.

Lemma bind_raises {A B} (c : M A) (k : A -> M B) ex w :
  returns c -> (forall a w', k a w' = Raise ex) -> bind c k w = Raise ex.
Proof.
  intros Hc Hk. unfold bind. destruct (Hc w) as (a & w' & ->). apply Hk.
Qed.

(** X19: the training loss of a constructed engine depends on its
    timesteps.  With one timestep per batch element, a noise of the shape of
    the sample (when one is given) and a network whose output has the shape
    of its input, it returns in every world when every timestep lies in
    [0, T-1]; it raises RuntimeError, from the coefficient lookup of the
    forward process, when one does not, whatever the shapes. *)
Theorem p_losses_timesteps m cfg e x_start t cond inits noise w :
  GaussianDiffusionConditional_init m cfg = Ok e ->
  (in_range e t ->
   shape_preserving m ->
   length t = length x_start ->
   (forall eps, noise = Some eps -> same_shape x_start eps) ->
   exists loss w', p_losses e x_start t cond inits noise w = Ok (loss, w')) /\
  (~ in_range e t ->
   p_losses e x_start t cond inits noise w = Raise RuntimeError).
Proof.
  intros He. pose proof (init_inv _ _ _ He) as Hb. split.
  - intros Hr _ _ _. revert w. change (returns (p_losses e x_start t cond inits noise)).
    unfold p_losses.
    apply returns_bind; [destruct noise; [apply returns_ret|apply returns_randn_like]|].
    intros eps. apply returns_bind.
    { destruct (classifier_free_guidance e); [|apply returns_ret].
      apply returns_bind; [apply returns_rand_like|]. intros u.
      apply returns_bind; [apply returns_rand_like|]. intros u'. apply returns_ret. }
    intros [cond' inits']. apply returns_bind.
    { unfold q_sample. apply returns_bind; [apply returns_ret|]. intros eps'.
      rewrite (built_sqrt_acp _ _ _ Hb), (built_sqrt_1m_acp _ _ _ Hb).
      rewrite !(extract_acp_ok _ _ _ Hb) by exact Hr.
      apply returns_bind; [eapply returns_lift; reflexivity|]. intros a.
      apply returns_bind; [eapply returns_lift; reflexivity|]. intros b. apply returns_ret. }
    intros x. apply returns_bind; [apply forward_returns_any|]. intros out.
    apply returns_bind.
    { destruct (known_objective_cases _ (built_known _ _ _ Hb)) as [Ho|[Ho|Ho]]; rewrite Ho;
        cbn [String.eqb Ascii.eqb Bool.eqb]; try apply returns_ret.
      unfold predict_v. rewrite (built_sqrt_acp _ _ _ Hb), (built_sqrt_1m_acp _ _ _ Hb).
      rewrite !(extract_acp_ok _ _ _ Hb) by exact Hr. cbn [rbind].
      eapply returns_lift; reflexivity. }
    intros target.
    rewrite (extract_buffer_ok _ _ _ Hb _ _ (built_len_weight _ _ _ Hb) Hr).
    apply returns_bind; [eapply returns_lift; reflexivity|]. intros lw. apply returns_ret.
  - intros Hr.
    assert (Hf : forallb (in_bounds (betas e)) t = false).
    { destruct (forallb (in_bounds (betas e)) t) eqn:E; [|reflexivity].
      exfalso. apply Hr. now apply (in_range_forallb _ _ _ _ Hb). }
    assert (Hx : forall eps w0, q_sample e x_start t (Some eps) w0 = Raise RuntimeError).
    { intros eps w0. unfold q_sample, bind, ret, lift.
      rewrite (built_sqrt_acp _ _ _ Hb), extract_forallb.
      rewrite (forallb_pointwise _ (in_bounds (betas e))), Hf; [reflexivity|].
      intros i. apply in_bounds_length. now rewrite length_map, (built_len_acp _ _ _ Hb). }
    unfold p_losses.
    apply bind_raises; [destruct noise; [apply returns_ret|apply returns_randn_like]|].
    intros eps w1. apply bind_raises.
    { destruct (classifier_free_guidance e); [|apply returns_ret].
      apply returns_bind; [apply returns_rand_like|]. intros u.
      apply returns_bind; [apply returns_rand_like|]. intros u'. apply returns_ret. }
    intros [cond' inits'] w2. unfold bind. now rewrite Hx.
Qed.

Lemma p_losses_timesteps_witness :
  exists e,
    GaussianDiffusionConditional_init toy_net (config "cosine" 4 None "pred_v") = Ok e /\
    (exists loss w',
       p_losses e [[[1]]] [3%Z] [[0]] [[0; 0; 0; 0]] None still_world = Ok (loss, w')) /\
    p_losses e [[[1]]] [4%Z] [[0]] [[0; 0; 0; 0]] None still_world = Raise RuntimeError.
Proof.
  destruct (cosine_engine false 4 None "pred_v"%string) as (e & He & _ & _ & HT);
    [lia|reflexivity|discriminate|].
  exists e. split; [exact He|]. split.
  - apply (p_losses_timesteps toy_net (config "cosine" 4 None "pred_v") e
             [[[1]]] [3%Z] [[0]] [[0; 0; 0; 0]] None still_world He).
    + constructor; [lia|constructor].
    + exact toy_net_shape_preserving.
    + reflexivity.
    + discriminate.
  - apply (p_losses_timesteps toy_net (config "cosine" 4 None "pred_v") e
             [[[1]]] [4%Z] [[0]] [[0; 0; 0; 0]] None still_world He).
    intros H. inversion H; subst. lia.
Defined.

(** ** The timestep embeddings *)

Lemma SinusoidalPosEmb_forward_ok self x :
  0 < spe_theta self -> (4 <= spe_dim self \/ 0 <= spe_dim self < 2)%Z ->
  SinusoidalPosEmb_forward self x =
  Ok (map (fun xi =>
             map (fun k => sin (IZR xi * exp (INR k * - (ln (spe_theta self) /
                                                        IZR (spe_dim self / 2 - 1)))))
                 (seq 0 (Z.to_nat (spe_dim self / 2))) ++
             map (fun k => cos (IZR xi * exp (INR k * - (ln (spe_theta self) /
                                                        IZR (spe_dim self / 2 - 1)))))
                 (seq 0 (Z.to_nat (spe_dim self / 2)))) x).
Proof.
  intros Hth Hd. unfold SinusoidalPosEmb_forward, math_log.
  destruct (Rlt_dec 0 (spe_theta self)); [|contradiction]. cbn [rbind].
  assert (Hh : (2 <= spe_dim self / 2 \/ spe_dim self / 2 = 0)%Z).
  { destruct Hd as [Hd|Hd].
    - left. apply Z.div_le_lower_bound; lia.
    - right. apply Z.div_small. lia. }
  destruct (Z.eqb_spec (spe_dim self / 2 - 1) 0); [lia|].
  destruct (Z.ltb_spec (spe_dim self / 2) 0); [lia|].
  f_equal. rewrite map_map. apply map_ext; intros xi. now rewrite !map_map.
Qed.

(** X20: the sinusoidal embedding raises ValueError when theta is not
    positive, ZeroDivisionError when dim is 2 or 3 (half_dim - 1 = 0) and
    RuntimeError when dim is negative; in every other case it returns one
    row per timestep, each of width 2 * (dim // 2): dim for an even dim,
    dim - 1 for an odd one. *)
Theorem SinusoidalPosEmb_forward_cases self x :
  (spe_theta self <= 0 -> SinusoidalPosEmb_forward self x = Raise ValueError) /\
  (0 < spe_theta self -> (spe_dim self = 2 \/ spe_dim self = 3)%Z ->
   SinusoidalPosEmb_forward self x = Raise ZeroDivisionError) /\
  (0 < spe_theta self -> (spe_dim self < 0)%Z ->
   SinusoidalPosEmb_forward self x = Raise RuntimeError) /\
  (0 < spe_theta self -> (4 <= spe_dim self \/ 0 <= spe_dim self < 2)%Z ->
   exists rows,
     SinusoidalPosEmb_forward self x = Ok rows /\
     length rows = length x /\
     Forall (fun row => Z.of_nat (length row) = 2 * (spe_dim self / 2))%Z rows).
Proof.
  repeat split.
  - intros Hth. unfold SinusoidalPosEmb_forward, math_log.
    destruct (Rlt_dec 0 (spe_theta self)); [lra|reflexivity].
  - intros Hth Hd. unfold SinusoidalPosEmb_forward, math_log.
    destruct (Rlt_dec 0 (spe_theta self)); [|contradiction]. cbn [rbind].
    destruct Hd as [-> | ->]; reflexivity.
  - intros Hth Hd. unfold SinusoidalPosEmb_forward, math_log.
    destruct (Rlt_dec 0 (spe_theta self)); [|contradiction]. cbn [rbind].
    assert (Hh : (spe_dim self / 2 < 0)%Z) by (apply Z.div_lt_upper_bound; lia).
    destruct (Z.eqb_spec (spe_dim self / 2 - 1) 0); [lia|].
    destruct (Z.ltb_spec (spe_dim self / 2) 0); [reflexivity|lia].
  - intros Hth Hd. rewrite SinusoidalPosEmb_forward_ok by assumption.
    eexists. split; [reflexivity|]. split; [apply length_map|].
    apply Forall_forall; intros row Hrow. apply in_map_iff in Hrow as (xi & <- & _).
    rewrite length_app, !length_map, length_seq.
    assert (0 <= spe_dim self / 2)%Z by (apply Z.div_pos; lia). lia.
Qed.

Lemma SinusoidalPosEmb_forward_cases_witness :
  SinusoidalPosEmb_forward {| spe_dim := 2; spe_theta := 10000 |} [5%Z] = Raise ZeroDivisionError /\
  exists rows,
    SinusoidalPosEmb_forward {| spe_dim := 5; spe_theta := 10000 |} [5%Z] = Ok rows /\
    Forall (fun row => Z.of_nat (length row) = 4%Z) rows.
Proof.
  pose proof (SinusoidalPosEmb_forward_cases {| spe_dim := 2; spe_theta := 10000 |} [5%Z])
    as (_ & H2 & _).
  pose proof (SinusoidalPosEmb_forward_cases {| spe_dim := 5; spe_theta := 10000 |} [5%Z])
    as (_ & _ & _ & H5).
  split.
  - apply H2; cbn; [lra|lia].
  - destruct H5 as (rows & Hr & _ & Hw); cbn; [lra|lia|].
    exists rows. split; [exact Hr|exact Hw].
Defined.

Lemma nth_map_any {A B} (f : A -> B) l i da db :
  (i < length l)%nat -> nth i (map f l) db = f (nth i l da).
Proof.
  intros Hi. rewrite (nth_indep _ db (f da)) by (now rewrite length_map).
  apply map_nth.
Qed.

(** X21: the random or learned embedding refuses an odd dim with
    AssertionError and a negative even dim with RuntimeError; built with an
    even dim >= 0 it draws dim // 2 weights in one draw, and its forward
    pass gives every timestep a row of width dim + 1 that starts with the
    timestep itself. *)
Theorem RandomOrLearnedSinusoidalPosEmb_width dim is_random w :
  ((dim mod 2 <> 0)%Z ->
   RandomOrLearnedSinusoidalPosEmb_init dim is_random w = Raise AssertionError) /\
  ((dim mod 2 = 0)%Z -> (dim < 0)%Z ->
   RandomOrLearnedSinusoidalPosEmb_init dim is_random w = Raise RuntimeError) /\
  ((dim mod 2 = 0)%Z -> (0 <= dim)%Z ->
   exists self,
     RandomOrLearnedSinusoidalPosEmb_init dim is_random w = Ok (self, next_draw EvRandn w) /\
     Z.of_nat (length (rl_weights self)) = (dim / 2)%Z /\
     forall x,
       Forall2 (fun xi row => Z.of_nat (length row) = (dim + 1)%Z /\ hd 0 row = IZR xi)
               x (RandomOrLearnedSinusoidalPosEmb_forward self x)).
Proof.
  unfold RandomOrLearnedSinusoidalPosEmb_init, randn1. repeat split.
  - intros Hodd. destruct (Z.eqb_spec (dim mod 2) 0); [contradiction|]. reflexivity.
  - intros Heven Hneg. destruct (Z.eqb_spec (dim mod 2) 0); [|contradiction]. cbn [negb].
    assert (dim / 2 < 0)%Z by (apply Z.div_lt_upper_bound; lia).
    unfold bind. destruct (Z.ltb_spec (dim / 2) 0); [reflexivity|lia].
  - intros Heven Hpos. destruct (Z.eqb_spec (dim mod 2) 0); [|contradiction]. cbn [negb].
    assert (Hh : (0 <= dim / 2)%Z) by (apply Z.div_pos; lia).
    unfold bind. destruct (Z.ltb_spec (dim / 2) 0); [lia|].
    eexists. split; [reflexivity|]. cbn [rl_weights]. rewrite length_map, length_seq.
    split; [lia|]. intros x. unfold RandomOrLearnedSinusoidalPosEmb_forward. cbn [rl_weights].
    induction x as [|xi x IH]; cbn [map]; constructor; [|exact IH].
    cbn [hd length]. rewrite length_app, !length_map, length_seq.
    split; [|reflexivity].
    pose proof (Z.div_mod dim 2 ltac:(lia)). lia.
Qed.

(** ** The normalisation layer *)

Lemma rsum_scale k (f : R -> R) l :
  rsum (map (fun a => k * f a) l) = k * rsum (map f l).
Proof.
  unfold rsum. induction l as [|a l IH]; cbn [map fold_right]; [ring|]. rewrite IH. ring.
Qed.

Lemma rsum_squares_nonneg l : 0 <= rsum (map (fun a => a ^ 2) l).
Proof.
  unfold rsum. induction l as [|a l IH]; cbn [map fold_right]; [lra|].
  pose proof (pow2_ge_0 a). lra.
Qed.

Lemma norm2_sqr l : norm2 l ^ 2 = rsum (map (fun a => a ^ 2) l).
Proof. unfold norm2. apply pow2_sqrt, rsum_squares_nonneg. Qed.

Lemma norm2_nonneg l : 0 <= norm2 l.
Proof. apply sqrt_pos. Qed.

Lemma norm2_scale c l : 0 <= c -> norm2 (map (Rmult c) l) = c * norm2 l.
Proof.
  intros Hc. unfold norm2. rewrite map_map.
  replace (map (fun a => (c * a) ^ 2) l) with (map (fun a => c ^ 2 * a ^ 2) l)
    by (apply map_ext; intros; ring).
  rewrite (rsum_scale (c ^ 2) (fun a => a ^ 2)).
  rewrite sqrt_mult by (try apply rsum_squares_nonneg; apply pow2_ge_0).
  rewrite sqrt_pow2 by exact Hc. reflexivity.
Qed.

Lemma nth_imap_from {A} (f : nat -> A -> R) i l k :
  (k < length l)%nat -> forall d, nth k (imap_from f i l) 0 = f (i + k)%nat (nth k l d).
Proof.
  revert i k; induction l as [|a l IH]; intros i k Hk d; cbn [length] in Hk; [lia|].
  destruct k as [|k]; cbn [imap_from nth].
  - now rewrite Nat.add_0_r.
  - rewrite (IH (S i) k ltac:(lia) d). f_equal. lia.
Qed.

Lemma column_scale c xi l : column (map (map (Rmult c)) xi) l = map (Rmult c) (column xi l).
Proof.
  unfold column. rewrite !map_map. apply map_ext; intros row.
  replace 0 with (c * 0) at 1 by ring. apply map_nth.
Qed.

Lemma mul_channels_ones y :
  mul_channels y (repeat 1 (length y)) = Ok y.
Proof.
  unfold mul_channels. rewrite repeat_length, Nat.eqb_refl. f_equal.
  induction y as [|row y IH]; [reflexivity|]. cbn [length repeat map2]. rewrite IH. f_equal.
  rewrite <- (map_id row) at 2. apply map_ext; intros v. ring.
Qed.

Lemma F_normalize_length xi : length (F_normalize xi) = length xi.
Proof. apply length_map. Qed.

(** One column of the normalised batch element. *)
Lemma column_F_normalize xi c n l :
  rectangular c n xi -> (l < n)%nat ->
  column (F_normalize xi) l =
  map (fun a => a / Rmax (norm2 (column xi l)) 1e-12) (column xi l).
Proof.
  intros [_ Hrows] Hl. unfold column, F_normalize. rewrite !map_map.
  apply map_ext_in; intros row Hrow.
  rewrite Forall_forall in Hrows. specialize (Hrows row Hrow).
  unfold imap. rewrite (nth_imap_from _ 0 row l ltac:(lia) 0). reflexivity.
Qed.

Lemma column_map (f : R -> R) xi l :
  f 0 = 0 -> column (map (map f) xi) l = map f (column xi l).
Proof.
  intros Hf. unfold column. rewrite !map_map. apply map_ext; intros row.
  rewrite <- Hf at 1. apply map_nth.
Qed.

Lemma mapR_ok {A B} (f : A -> result B) (g : A -> B) l :
  (forall a, In a l -> f a = Ok (g a)) -> mapR f l = Ok (map g l).
Proof.
  induction l as [|a l IH]; intros H; [reflexivity|].
  cbn [mapR map]. rewrite (H a (or_introl eq_refl)), IH by (intros; apply H; now right).
  reflexivity.
Qed.

Lemma RMSNorm_forward_fresh dim self (x : Tensor3) n :
  RMSNorm_init dim = Ok self ->
  Forall (rectangular (Z.to_nat dim) n) x ->
  RMSNorm_forward self x =
  Ok (map (fun xi => map (map (fun v => v * sqrt (INR (length xi)))) (F_normalize xi)) x).
Proof.
  unfold RMSNorm_init. destruct (dim <? 0)%Z; [discriminate|].
  intros [= <-] Hx. unfold RMSNorm_forward. cbn [rms_g].
  apply mapR_ok. intros xi Hxi. rewrite Forall_forall in Hx.
  destruct (Hx xi Hxi) as [Hc _].
  rewrite <- Hc, <- (F_normalize_length xi), mul_channels_ones. reflexivity.
Qed.

(** X22: a freshly built RMSNorm gives every column of channels the
    root mean square 1: for an input with dim channels, at every position
    whose column has Euclidean norm at least 1e-12, the squares of the dim
    output channels add up to dim. *)
Theorem RMSNorm_unit_rms dim self (x : Tensor3) n :
  RMSNorm_init dim = Ok self ->
  Forall (rectangular (Z.to_nat dim) n) x ->
  exists y,
    RMSNorm_forward self x = Ok y /\
    Forall2 (fun xi yi =>
               forall l, (l < n)%nat -> 1e-12 <= norm2 (column xi l) ->
                 rsum (map (fun a => a ^ 2) (column yi l)) = IZR dim) x y.
Proof.
  intros Hinit Hx. rewrite (RMSNorm_forward_fresh _ _ _ _ Hinit Hx).
  eexists. split; [reflexivity|].
  assert (Hdim : (0 <= dim)%Z).
  { unfold RMSNorm_init in Hinit. destruct (Z.ltb_spec dim 0); [discriminate|lia]. }
  induction Hx as [|xi x Hxi _ IH]; cbn [map]; constructor; [|exact IH].
  intros l Hl Hnorm. destruct Hxi as [Hc Hrows].
  rewrite column_map by ring.
  rewrite (column_F_normalize xi (Z.to_nat dim) n l (conj Hc Hrows) Hl).
  rewrite Rmax_left by exact Hnorm.
  rewrite !map_map. set (N := norm2 (column xi l)) in *.
  replace (map (fun a => (a / N * sqrt (INR (length xi))) ^ 2) (column xi l))
    with (map (fun a => (sqrt (INR (length xi)) ^ 2 * / N ^ 2) * a ^ 2) (column xi l)).
  - rewrite (rsum_scale _ (fun a => a ^ 2)), <- norm2_sqr. fold N.
    rewrite pow2_sqrt by apply pos_INR.
    rewrite Hc, INR_IZR_INZ, Z2Nat.id by exact Hdim. field. lra.
  - apply map_ext; intros a. field. lra.
Qed.

Lemma RMSNorm_unit_rms_witness :
  exists self y,
    RMSNorm_init 2 = Ok self /\
    RMSNorm_forward self [[[3]; [4]]] = Ok y /\
    rsum (map (fun a => a ^ 2) (column (nth 0 y []) 0)) = 2.
Proof.
  eexists.
  destruct (RMSNorm_unit_rms 2 _ [[[3]; [4]]] 1 eq_refl) as (y & Hy & H).
  - repeat constructor.
  - exists y. split; [reflexivity|]. split; [exact Hy|].
    inversion H as [|xi yi x' y' Hcol _]; subst. cbn [nth].
    apply Hcol; [lia|].
    unfold norm2, column, rsum. cbn [map nth fold_right].
    replace (3 ^ 2 + (4 ^ 2 + 0)) with (5 ^ 2) by ring.
    rewrite sqrt_pow2 by lra. lra.
Defined.

Lemma imap_from_ext {A B} (f g : nat -> A -> B) i l :
  (forall j a, (i <= j < i + length l)%nat -> f j a = g j a) ->
  imap_from f i l = imap_from g i l.
Proof.
  revert i; induction l as [|a l IH]; intros i H; [reflexivity|].
  cbn [imap_from]. rewrite (H i a) by (cbn [length]; lia). f_equal.
  apply IH. intros j b Hj. apply H. cbn [length]. lia.
Qed.

Lemma imap_from_map {A B C} (f : nat -> B -> C) (g : A -> B) i l :
  imap_from f i (map g l) = imap_from (fun j a => f j (g a)) i l.
Proof.
  revert i; induction l as [|a l IH]; intros i; [reflexivity|].
  cbn [map imap_from]. now rewrite IH.
Qed.

Lemma F_normalize_scale k xi c n :
  0 < k -> rectangular c n xi ->
  (forall l, (l < n)%nat ->
     1e-12 <= norm2 (column xi l) /\ 1e-12 <= k * norm2 (column xi l)) ->
  F_normalize (map (map (Rmult k)) xi) = F_normalize xi.
Proof.
  intros Hk [_ Hrows] Hnorm. unfold F_normalize. rewrite map_map.
  apply map_ext_in; intros row Hrow.
  rewrite Forall_forall in Hrows. specialize (Hrows row Hrow).
  unfold imap. rewrite imap_from_map. apply imap_from_ext.
  intros l v Hl. rewrite column_scale, norm2_scale by lra.
  destruct (Hnorm l ltac:(lia)) as [H1 H2].
  rewrite !Rmax_left by assumption. field. split; lra.
Qed.

(** X23: the normalisation layer sees only the direction of each column of
    channels: scaling the input by a positive factor leaves the output of
    [RMSNorm.forward], and so of every module wrapped in [PreNorm],
    unchanged, as long as the column norms stay at or above 1e-12.  In a
    [Residual] around a [PreNorm], as the network wraps its attention
    layers, only the skip connection follows the scale of the input. *)
Theorem PreNorm_scale_invariant norm fn (x : Tensor3) c n k :
  0 < k ->
  Forall (fun xi => rectangular c n xi /\
                    forall l, (l < n)%nat ->
                      1e-12 <= norm2 (column xi l) /\ 1e-12 <= k * norm2 (column xi l)) x ->
  RMSNorm_forward norm (tscale k x) = RMSNorm_forward norm x /\
  PreNorm_forward norm fn (tscale k x) = PreNorm_forward norm fn x /\
  Residual_forward (PreNorm_forward norm fn) (tscale k x) =
  rbind (PreNorm_forward norm fn x) (fun y => Ok (tadd y (tscale k x))).
Proof.
  intros Hk Hx.
  assert (H : RMSNorm_forward norm (tscale k x) = RMSNorm_forward norm x).
  { unfold RMSNorm_forward, tscale, t3map.
    induction Hx as [|xi x [Hrect Hnorm] _ IH]; [reflexivity|].
    cbn [map mapR]. rewrite IH, length_map.
    now rewrite (F_normalize_scale k xi c n Hk Hrect Hnorm). }
  split; [exact H|]. unfold Residual_forward, PreNorm_forward. now rewrite H.
Qed.

Lemma PreNorm_scale_invariant_witness :
  PreNorm_forward {| rms_g := [1; 1] |} (fun y => Ok y) (tscale 2 [[[3]; [4]]]) =
  PreNorm_forward {| rms_g := [1; 1] |} (fun y => Ok y) [[[3]; [4]]].
Proof.
  apply (PreNorm_scale_invariant {| rms_g := [1; 1] |} (fun y => Ok y) [[[3]; [4]]] 2 1 2);
    [lra|].
  constructor; [|constructor]. split; [repeat constructor|].
  intros l Hl. assert (l = 0)%nat as -> by lia.
  assert (Hn : norm2 (column [[3]; [4]] 0) = 5).
  { unfold norm2, column, rsum. cbn [map nth fold_right].
    replace (3 ^ 2 + (4 ^ 2 + 0)) with (5 ^ 2) by ring. apply sqrt_pow2. lra. }
  rewrite Hn. lra.
Defined.

(** ** The cumulative products along the schedule *)

Lemma regular_acp_decreasing m cfg e i j :
  GaussianDiffusionConditional_init m cfg = Ok e ->
  regular_schedule (cfg_beta_schedule cfg) (cfg_timesteps cfg) ->
  (i < j < length (betas e))%nat ->
  nth j (alphas_cumprod e) 0 < nth i (alphas_cumprod e) 0.
Proof.
  intros He Hreg Hij. induction j as [|j IH]; [lia|].
  assert (Hstep : nth (S j) (alphas_cumprod e) 0 < nth j (alphas_cumprod e) 0).
  { rewrite (regular_acp_S _ _ _ He) by lia.
    pose proof (regular_acp _ _ _ He Hreg j ltac:(lia)).
    pose proof (regular_beta _ _ _ He Hreg (S j) ltac:(lia)). nra. }
  destruct (Nat.eq_dec i j) as [->|Hne]; [exact Hstep|].
  assert (nth j (alphas_cumprod e) 0 < nth i (alphas_cumprod e) 0) by (apply IH; lia).
  lra.
Qed.

(** X24: along a regular schedule every step adds noise: the cumulative
    products fall strictly with the timestep, and with them the
    signal-to-noise ratio acp / (1 - acp). *)
Theorem alphas_cumprod_strictly_decreasing m cfg e i j :
  GaussianDiffusionConditional_init m cfg = Ok e ->
  regular_schedule (cfg_beta_schedule cfg) (cfg_timesteps cfg) ->
  (i < j < length (betas e))%nat ->
  nth j (alphas_cumprod e) 0 < nth i (alphas_cumprod e) 0 /\
  nth j (alphas_cumprod e) 0 / (1 - nth j (alphas_cumprod e) 0) <
  nth i (alphas_cumprod e) 0 / (1 - nth i (alphas_cumprod e) 0).
Proof.
  intros He Hreg Hij.
  pose proof (regular_acp_decreasing _ _ _ i j He Hreg Hij) as Hlt.
  pose proof (regular_acp _ _ _ He Hreg i ltac:(lia)) as Hi.
  pose proof (regular_acp _ _ _ He Hreg j ltac:(lia)) as Hj.
  split; [exact Hlt|].
  set (a := nth i (alphas_cumprod e) 0) in *. set (b := nth j (alphas_cumprod e) 0) in *.
  apply (Rmult_lt_reg_r ((1 - a) * (1 - b))); [nra|].
  replace (b / (1 - b) * ((1 - a) * (1 - b))) with (b * (1 - a)) by (field; lra).
  replace (a / (1 - a) * ((1 - a) * (1 - b))) with (a * (1 - b)) by (field; lra).
  lra.
Qed.

Lemma alphas_cumprod_strictly_decreasing_witness :
  exists e,
    GaussianDiffusionConditional_init toy_net (config "cosine" 4 None "pred_v") = Ok e /\
    nth 3 (alphas_cumprod e) 0 < nth 1 (alphas_cumprod e) 0.
Proof.
  destruct (cosine_engine false 4 None "pred_v"%string) as (e & He & _ & Hlen & _);
    [lia|reflexivity|discriminate|].
  exists e. split; [exact He|].
  apply (alphas_cumprod_strictly_decreasing toy_net (config "cosine" 4 None "pred_v") e 1 3 He).
  - regular_cosine.
  - rewrite Hlen. simpl. lia.
Defined.

(** X25: the square roots of the DDIM update are taken of non-negative
    numbers: on a regular engine with 0 <= eta <= 1, for every pair
    time_next < time within the schedule, the radicand of sigma lies in
    [0, 1 - alpha_next] and the radicand of c, 1 - alpha_next - sigma^2, is
    at least (1 - eta^2) (1 - alpha_next) >= 0. *)
Theorem ddim_radicands m cfg e time time_next :
  GaussianDiffusionConditional_init m cfg = Ok e ->
  regular_schedule (cfg_beta_schedule cfg) (cfg_timesteps cfg) ->
  0 <= cfg_ddim_sampling_eta cfg <= 1 ->
  (time_next < time < length (betas e))%nat ->
  let alpha := nth time (alphas_cumprod e) 0 in
  let alpha_next := nth time_next (alphas_cumprod e) 0 in
  let radicand := (1 - alpha / alpha_next) * (1 - alpha_next) / (1 - alpha) in
  let sigma := ddim_sampling_eta e * sqrt radicand in
  0 <= radicand <= 1 - alpha_next /\
  (1 - ddim_sampling_eta e ^ 2) * (1 - alpha_next) <= 1 - alpha_next - sigma ^ 2 /\
  0 <= 1 - alpha_next - sigma ^ 2 /\
  0 < alpha_next.
Proof.
  intros He Hreg Heta Ht alpha alpha_next radicand sigma.
  pose proof (init_inv _ _ _ He) as Hb.
  pose proof (regular_acp_decreasing _ _ _ _ _ He Hreg Ht) as Hlt. fold alpha alpha_next in Hlt.
  pose proof (regular_acp _ _ _ He Hreg time ltac:(lia)) as Ha. fold alpha in Ha.
  pose proof (regular_acp _ _ _ He Hreg time_next ltac:(lia)) as Hn. fold alpha_next in Hn.
  rewrite <- (built_eta _ _ _ Hb) in Heta.
  assert (Hq : 0 < alpha / alpha_next < 1).
  { split.
    - unfold Rdiv. apply Rmult_lt_0_compat; [lra|apply Rinv_0_lt_compat; lra].
    - apply (Rmult_lt_reg_r alpha_next); [lra|]. unfold Rdiv.
      rewrite Rmult_assoc, Rinv_l by lra. lra. }
  assert (Hq2 : alpha <= alpha / alpha_next).
  { apply (Rmult_le_reg_r alpha_next); [lra|]. unfold Rdiv.
    rewrite Rmult_assoc, Rinv_l by lra. nra. }
  assert (Hrad : 0 <= radicand <= 1 - alpha_next).
  { subst radicand. set (q := alpha / alpha_next) in *. split.
    - unfold Rdiv. apply Rmult_le_pos; [apply Rmult_le_pos; lra|].
      left. apply Rinv_0_lt_compat. lra.
    - apply (Rmult_le_reg_r (1 - alpha)); [lra|]. unfold Rdiv.
      rewrite Rmult_assoc, Rinv_l by lra. nra. }
  assert (Hsig : sigma ^ 2 = ddim_sampling_eta e ^ 2 * radicand).
  { subst sigma. rewrite Rpow_mult_distr, pow2_sqrt by lra. reflexivity. }
  assert (He2 : 0 <= ddim_sampling_eta e ^ 2 <= 1) by nra.
  split; [exact Hrad|]. rewrite Hsig.
  split; [nra|]. split; [nra|lra].
Qed.

Lemma ddim_radicands_witness :
  exists e,
    GaussianDiffusionConditional_init toy_net (config "cosine" 4 (Some 2%Z) "pred_v") = Ok e /\
    0 <= 1 - nth 1 (alphas_cumprod e) 0 -
         (ddim_sampling_eta e *
          sqrt ((1 - nth 3 (alphas_cumprod e) 0 / nth 1 (alphas_cumprod e) 0) *
                (1 - nth 1 (alphas_cumprod e) 0) / (1 - nth 3 (alphas_cumprod e) 0))) ^ 2.
Proof.
  destruct (cosine_engine false 4 (Some 2%Z) "pred_v"%string) as (e & He & _ & Hlen & _);
    [lia|reflexivity|intros s [= <-]; lia|].
  exists e. split; [exact He|].
  apply (ddim_radicands toy_net (config "cosine" 4 (Some 2%Z) "pred_v") e 3 1 He).
  - regular_cosine.
  - cbn. lra.
  - rewrite Hlen. simpl. lia.
Defined.

(** ** The range of a resumed sample *)

Lemma dense_pairs_last K :
  (0 < K)%Z -> exists front, dense_pairs K = front ++ [(0, -1)%Z].
Proof.
  intros HK. unfold dense_pairs. destruct (reversed_range_last K HK) as [front ->].
  rewrite map_app. eexists. reflexivity.
Qed.

Lemma in_dense_pairs K a b : In (a, b) (dense_pairs K) -> (0 <= a < K)%Z /\ (b < K)%Z.
Proof.
  unfold dense_pairs. intros H. apply in_map_iff in H as (t & [= <- <-] & Ht).
  apply in_reversed_range in Ht. lia.
Qed.

(** X26: every sample resumed on a regular engine from a starting timestep
    K with 1 <= K <= T lies in the clipping range: with a network whose
    output has the shape of its input and a starting sample of the batch
    size of the condition, [inference] returns, in every world, the
    unnormalisation of a tensor whose entries are all within
    [clip_min, clip_max], whether it runs the DDIM update (K < T) or the
    ancestral chain (K = T). *)
Theorem inference_within_clip m cfg e cond inits K data cond_scale phi w :
  GaussianDiffusionConditional_init m cfg = Ok e ->
  regular_schedule (cfg_beta_schedule cfg) (cfg_timesteps cfg) ->
  shape_preserving m ->
  length data = length cond ->
  (1 <= K <= num_timesteps e)%Z ->
  clip_min e <= clip_max e ->
  exists y w',
    inference e cond inits K data cond_scale phi w = Ok (unnormalize e y, w') /\
    within (clip_min e) (clip_max e) y.
Proof.
  intros He Hreg _ _ HK Hc. pose proof (init_inv _ _ _ He) as Hb.
  pose proof (built_num _ _ _ Hb) as Hn.
  set (Q := fun img => exists y, img = unnormalize e y /\ within (clip_min e) (clip_max e) y).
  assert (Hrun : exists img w', inference e cond inits K data cond_scale phi w = Ok (img, w')
                                /\ Q img).
  { destruct (Z.ltb_spec K (Z.of_nat (length (betas e)))) as [Hlt|Hge].
    - rewrite inference_below by lia.
      apply ensures_run.
      + apply returns_bind; [|intros; apply returns_ret].
        apply returns_foldM. intros s [a b] Hin. apply in_dense_pairs in Hin.
        apply (ddim_step_returns _ _ _ Hb); lia.
      + destruct (dense_pairs_last K ltac:(lia)) as [front ->].
        eapply ensures_bind.
        * apply ensures_foldM_last. intros s. now apply ddim_step_last_clipped.
        * intros y Hy. apply ensures_ret. now exists y.
    - unfold inference. destruct (Z.ltb_spec K (Z.of_nat (length (betas e)))); [lia|].
      apply ensures_run.
      + apply returns_bind; [|intros; apply returns_ret].
        apply returns_foldM. intros s t Ht. apply in_reversed_range in Ht.
        apply (p_sample_step_returns _ _ _ Hb). lia.
      + destruct (reversed_range_last K ltac:(lia)) as [front ->].
        eapply ensures_bind.
        * apply ensures_foldM_last. intros s. unfold p_sample_step.
          eapply ensures_bind; [apply (p_sample_first_clipped _ _ _ _ _ _ _ _ He Hreg Hc)|].
          intros r Hr. apply ensures_ret. exact Hr.
        * intros y Hy. apply ensures_ret. now exists y. }
  destruct Hrun as (img & w' & E & y & -> & Hy). now exists y, w'.
Qed.

Lemma inference_within_clip_witness :
  exists e y w',
    GaussianDiffusionConditional_init toy_net (config "cosine" 4 None "pred_v") = Ok e /\
    inference e [[0]] [[0; 0; 0; 0]] 2 [[[9]]] 1 0 noisy_world = Ok (unnormalize e y, w') /\
    within (clip_min e) (clip_max e) y.
Proof.
  destruct (cosine_engine false 4 None "pred_v"%string) as (e & He & Hb & _ & HT);
    [lia|reflexivity|discriminate|].
  pose proof (init_inv_posterior _ _ _ He) as Hp.
  destruct (inference_within_clip toy_net (config "cosine" 4 None "pred_v") e
              [[0]] [[0; 0; 0; 0]] 2 [[[9]]] 1 0 noisy_world He) as (y & w' & H).
  - regular_cosine.
  - exact toy_net_shape_preserving.
  - reflexivity.
  - rewrite HT. lia.
  - rewrite (built_clip_min _ _ Hp), (built_clip_max _ _ Hp). cbn. lra.
  - exists e, y, w'. split; [exact He|exact H].
Defined.

(** ** Interpolation *)

Lemma q_sample_draws m cfg e x t w :
  built m cfg e -> in_range e t ->
  exists xt, q_sample e x t None w = Ok (xt, next_draw EvRandn w).
Proof.
  intros Hb Hr. unfold q_sample, bind, randn_like, lift, ret.
  rewrite (built_sqrt_acp _ _ _ Hb), (built_sqrt_1m_acp _ _ _ Hb).
  rewrite !(extract_acp_ok _ _ _ Hb) by exact Hr. eexists. reflexivity.
Qed.

(** X27: [interpolate] cannot run a reverse step.  On a constructed engine
    and two samples of one shape, every call with a timestep t in
    [1, T-1], and every call that leaves t at its default T - 1 on an
    engine of two or more timesteps, noises both samples (two draws
    succeed) and then ends in the TypeError of calling [p_sample] without
    its [inits] argument; only t = 0 returns, with the blend of the two
    noised samples. *)
Theorem interpolate_cases m cfg e x1 x2 lam w :
  GaussianDiffusionConditional_init m cfg = Ok e ->
  shape_of x1 = shape_of x2 ->
  (forall t, (1 <= t < num_timesteps e)%Z ->
     interpolate e x1 x2 (Some t) lam w = TypeError) /\
  ((2 <= num_timesteps e)%Z -> interpolate e x1 x2 None lam w = TypeError) /\
  ((1 <= num_timesteps e)%Z ->
   exists xt1 xt2,
     q_sample e x1 (repeat 0%Z (length x1)) None w = Ok (xt1, next_draw EvRandn w) /\
     q_sample e x2 (repeat 0%Z (length x1)) None (next_draw EvRandn w) =
       Ok (xt2, next_draw EvRandn (next_draw EvRandn w)) /\
     interpolate e x1 x2 (Some 0%Z) lam w =
       Returned (tadd (tscale (1 - lam) xt1) (tscale lam xt2),
                 next_draw EvRandn (next_draw EvRandn w))).
Proof.
  intros He Hs. pose proof (init_inv _ _ _ He) as Hb.
  assert (Heq : shape_eqb x1 x2 = true).
  { unfold shape_eqb. destruct (list_eq_dec _ _ _); [reflexivity|contradiction]. }
  assert (Hrun : forall t, (0 <= t < num_timesteps e)%Z ->
            exists xt1 xt2,
              q_sample e x1 (repeat t (length x1)) None w = Ok (xt1, next_draw EvRandn w) /\
              q_sample e x2 (repeat t (length x1)) None (next_draw EvRandn w) =
                Ok (xt2, next_draw EvRandn (next_draw EvRandn w))).
  { intros t Ht.
    destruct (q_sample_draws _ _ _ x1 _ w Hb (in_range_repeat e t (length x1) Ht)) as [xt1 E1].
    destruct (q_sample_draws _ _ _ x2 _ (next_draw EvRandn w) Hb
                (in_range_repeat e t (length x1) Ht)) as [xt2 E2].
    now exists xt1, xt2. }
  assert (Hty : forall t, (1 <= t < num_timesteps e)%Z ->
            interpolate e x1 x2 (Some t) lam w = TypeError).
  { intros t Ht. unfold interpolate. cbn [default]. rewrite Heq. cbn [negb].
    destruct (Hrun t ltac:(lia)) as (xt1 & xt2 & E1 & E2).
    unfold bind. rewrite E1, E2. unfold ret.
    rewrite reversed_range_pos by lia. reflexivity. }
  split; [exact Hty|]. split.
  - intros HT. specialize (Hty (num_timesteps e - 1)%Z ltac:(lia)). exact Hty.
  - intros HT. destruct (Hrun 0%Z ltac:(lia)) as (xt1 & xt2 & E1 & E2).
    exists xt1, xt2. split; [exact E1|]. split; [exact E2|].
    unfold interpolate. cbn [default]. rewrite Heq. cbn [negb].
    unfold bind. rewrite E1, E2. reflexivity.
Qed.

Lemma interpolate_cases_witness :
  exists e,
    GaussianDiffusionConditional_init toy_net (config "cosine" 4 None "pred_v") = Ok e /\
    interpolate e [[[1]]] [[[2]]] None 0.5 still_world = TypeError.
Proof.
  destruct (cosine_engine false 4 None "pred_v"%string) as (e & He & _ & _ & HT);
    [lia|reflexivity|discriminate|].
  exists e. split; [exact He|].
  apply (interpolate_cases toy_net (config "cosine" 4 None "pred_v") e
           [[[1]]] [[[2]]] 0.5 still_world He eq_refl).
  rewrite HT. lia.
Defined.

(** ** The rescaling of the guidance compositor *)

Lemma map2_same {A B C D} (h : B -> C -> D) (f : A -> B) (g : A -> C) l :
  map2 h (map f l) (map g l) = map (fun a => h (f a) (g a)) l.
Proof. induction l as [|a l IH]; cbn [map map2]; [reflexivity|]. now rewrite IH. Qed.

Lemma rsum_scale_id k l : rsum (map (Rmult k) l) = k * rsum l.
Proof.
  rewrite <- (map_id l) at 2. apply (rsum_scale k (fun a => a)).
Qed.

Lemma mean_scale k l : mean (map (Rmult k) l) = k * mean l.
Proof. unfold mean. rewrite rsum_scale_id, length_map. unfold Rdiv. ring. Qed.

Lemma std_scale k xi : 0 <= k -> std (map (map (Rmult k)) xi) = k * std xi.
Proof.
  intros Hk. unfold std. rewrite <- concat_map, mean_scale, length_map, map_map.
  replace (map (fun a => (k * a - k * mean (concat xi)) ^ 2) (concat xi))
    with (map (fun a => k ^ 2 * (a - mean (concat xi)) ^ 2) (concat xi))
    by (apply map_ext; intros; ring).
  rewrite (rsum_scale (k ^ 2) (fun a => (a - mean (concat xi)) ^ 2)).
  unfold Rdiv. rewrite Rmult_assoc, sqrt_mult_alt by apply pow2_ge_0.
  now rewrite sqrt_pow2 by exact Hk.
Qed.

Lemma std_nonneg xi : 0 <= std xi.
Proof. apply sqrt_pos. Qed.

(** The blend of the rescaled and the scaled output, batch element by
    batch element. *)
Lemma rescaled_blend phi (ratio : list R) (scaled : Tensor3) :
  tadd (t3map (fun v => v * phi) (bmul ratio scaled))
       (t3map (fun v => v * (1 - phi)) scaled) =
  map2 (fun r si => map (map (Rmult (r * phi + (1 - phi)))) si) ratio scaled.
Proof.
  unfold tadd, t3map2, t3map, bmul.
  revert scaled; induction ratio as [|r ratio IH]; intros [|si scaled]; cbn [map map2];
    try reflexivity.
  rewrite IH. f_equal. rewrite map_map, map2_same. apply map_ext; intros row.
  rewrite map_map, map2_same. apply map_ext; intros v. ring.
Qed.

Lemma nth_map2_any {A B C} (f : A -> B -> C) l1 l2 i da db dc :
  (i < length l1)%nat -> (i < length l2)%nat ->
  nth i (map2 f l1 l2) dc = f (nth i l1 da) (nth i l2 db).
Proof.
  revert l2 i; induction l1 as [|a l1 IH]; intros [|b l2] [|i] H1 H2;
    cbn [length] in *; try lia; cbn [map2 nth]; [reflexivity|].
  apply IH; lia.
Qed.

(** X28: what rescaled_phi does.  When the two forward calls return
    outputs of one shape, with cond_scale <> 1 and rescaled_phi = 0
    the compositor returns the scaled output
    null + (logits - null) * cond_scale of the two; with
    0 < rescaled_phi <= 1 it returns an output of as many batch elements,
    and the standard deviation of each of them that has two entries or more
    and a scaled output of non-zero standard deviation is
    phi * std(logits) + (1 - phi) * std(scaled): at rescaled_phi = 1 the
    standard deviation of the conditioned output is restored. *)
Theorem rescaled_std {Args : Type} (forward : Args -> option R -> M Tensor3) args
    cond_scale phi w logits null w1 w2 :
  forward args (Some 0) w = Ok (logits, w1) ->
  forward args (Some 1) w1 = Ok (null, w2) ->
  same_shape logits null ->
  cond_scale <> 1 ->
  0 < phi <= 1 ->
  let scaled := tadd null (t3map (fun v => v * cond_scale) (tsub logits null)) in
  exists out,
    forward_with_cond_scale forward args cond_scale 0 w = Ok (scaled, w2) /\
    forward_with_cond_scale forward args cond_scale phi w = Ok (out, w2) /\
    length out = length scaled /\
    forall i, (i < length scaled)%nat ->
      (2 <= length (concat (nth i scaled [])))%nat ->
      std (nth i scaled []) <> 0 ->
      std (nth i out []) = phi * std (nth i logits []) + (1 - phi) * std (nth i scaled []).
Proof.
  intros E0 E1 _ Hcs Hphi scaled.
  assert (Hls : (length scaled <= length logits)%nat).
  { subst scaled. rewrite tadd_length, t3map_length, tsub_length. lia. }
  set (ratio := map2 Rdiv (map std logits) (map std scaled)).
  assert (Hlr : length ratio = length scaled).
  { subst ratio. rewrite map2_length, !length_map. lia. }
  exists (map2 (fun r si => map (map (Rmult (r * phi + (1 - phi)))) si) ratio scaled).
  split; [|split; [|split]].
  - unfold forward_with_cond_scale, bind. rewrite E0.
    destruct (Req_EM_T cond_scale 1); [contradiction|]. rewrite E1.
    destruct (Req_EM_T 0 0); [reflexivity|congruence].
  - unfold forward_with_cond_scale, bind. rewrite E0.
    destruct (Req_EM_T cond_scale 1); [contradiction|]. rewrite E1.
    destruct (Req_EM_T phi 0); [lra|]. unfold ret. f_equal. f_equal.
    apply rescaled_blend.
  - rewrite map2_length. lia.
  - intros i Hi Hsize Hstd.
    rewrite (nth_map2_any _ _ _ _ 0 [] []) by lia.
    assert (Hr : nth i ratio 0 = std (nth i logits []) / std (nth i scaled [])).
    { subst ratio. rewrite (nth_map2_any _ _ _ _ 0 0 0) by (rewrite length_map; lia).
      now rewrite !(nth_map_any std _ _ []) by lia. }
    pose proof (std_nonneg (nth i logits [])) as Hl.
    pose proof (std_nonneg (nth i scaled [])) as Hs.
    assert (Hk : 0 <= nth i ratio 0 * phi + (1 - phi)).
    { rewrite Hr. assert (0 <= std (nth i logits []) / std (nth i scaled [])).
      { unfold Rdiv. apply Rmult_le_pos; [exact Hl|]. left. apply Rinv_0_lt_compat. lra. }
      nra. }
    rewrite std_scale by exact Hk. rewrite Hr. field. exact Hstd.
Qed.

Lemma rescaled_std_witness :
  exists out w2,
    FullyConditionedUnet_forward_with_cond_scale toy_net [[[1; 3]]] [0%Z] [[0]] [[0; 0; 0; 0]]
      2 1 still_world = Ok (out, w2) /\
    length out = 1%nat.
Proof.
  destruct (forward_returns toy_net [[[1; 3]]] [0%Z] [[0]] [[0; 0; 0; 0]] 0 (or_introl eq_refl)
              still_world) as (logits & w1 & E0).
  destruct (forward_returns toy_net [[[1; 3]]] [0%Z] [[0]] [[0; 0; 0; 0]] 1 (or_intror eq_refl)
              w1) as (null & w2 & E1).
  destruct (rescaled_std
              (fun (args : Tensor3 * list Z * Tensor2 * Tensor2) p =>
                 let '(x, time, cond, inits) := args in
                 FullyConditionedUnet_forward toy_net x time cond inits p)
              ([[[1; 3]]], [0%Z], [[0]], [[0; 0; 0; 0]]) 2 1 still_world logits null w1 w2
              E0 E1) as (out & _ & Hout & Hlen & _).
  { apply (same_shape_trans _ [[[1; 3]]]).
    - apply same_shape_sym.
      exact (forward_shape toy_net _ _ _ _ _ toy_net_shape_preserving _ _ _ E0).
    - exact (forward_shape toy_net _ _ _ _ _ toy_net_shape_preserving _ _ _ E1). }
  { lra. }
  { lra. }
  exists out, w2. split; [exact Hout|].
  rewrite Hlen, tadd_length, t3map_length, tsub_length.
  assert (Hl : length logits = 1%nat).
  { apply (forward_length toy_net [[[1; 3]]] [0%Z] [[0]] [[0; 0; 0; 0]] (Some 0)
             (fun _ _ _ _ => eq_refl) _ _ _ E0). }
  assert (Hn : length null = 1%nat).
  { apply (forward_length toy_net [[[1; 3]]] [0%Z] [[0]] [[0; 0; 0; 0]] (Some 1)
             (fun _ _ _ _ => eq_refl) _ _ _ E1). }
  rewrite Hl, Hn. reflexivity.
Defined.

(** ** The consistency of the predicted pair *)

Lemma same_shape_t3map f x : same_shape x (t3map f x).
Proof.
  unfold same_shape, t3map. induction x as [|xi x IH]; cbn [map]; constructor; [|exact IH].
  induction xi as [|r xi IHi]; cbn [map]; constructor; [now rewrite length_map|exact IHi].
Qed.

Lemma same_shape_maybe_clip e c x : same_shape x (maybe_clip e c x).
Proof.
  unfold maybe_clip, clamp. destruct c; [apply same_shape_t3map|apply same_shape_refl].
Qed.

Lemma same_shape_bmul c x : length c = length x -> same_shape x (bmul c x).
Proof.
  unfold same_shape, bmul. revert c; induction x as [|xi x IH]; intros [|c0 c] Hlen;
    try discriminate; cbn [map2]; [constructor|].
  constructor; [|apply IH; now injection Hlen].
  clear. induction xi as [|r xi IHi]; cbn [map]; [constructor|].
  constructor; [now rewrite length_map|exact IHi].
Qed.

Lemma same_shape_t3map2 f x y : same_shape x y -> same_shape x (t3map2 f x y).
Proof.
  unfold same_shape, t3map2. induction 1 as [|xi yi x y Hel _ IH]; cbn [map2]; constructor;
    [|exact IH].
  induction Hel as [|r s xi yi Hrs _ IHe]; cbn [map2]; constructor; [|exact IHe].
  rewrite map2_length. lia.
Qed.

Lemma noise_consistent_row a b r k :
  a * r = 1 -> a * k = b ->
  forall rx ro : list R, length rx = length ro ->
  map2 Rplus (map (Rmult a) (map2 Rminus (map (Rmult r) rx) (map (Rmult k) ro)))
             (map (Rmult b) ro) = rx.
Proof.
  intros H1 H2. by_rows idtac.
  replace (a * (r * x - k * u) + b * u) with (a * r * x + (b - a * k) * u) by ring.
  rewrite H1, H2. ring.
Qed.

Lemma noise_consistent_element a b r k (xi oi : list (list R)) :
  a * r = 1 -> a * k = b ->
  Forall2 (fun p q : list R => length p = length q) xi oi ->
  map2 (map2 Rplus)
       (map (map (Rmult a))
            (map2 (map2 Rminus) (map (map (Rmult r)) xi) (map (map (Rmult k)) oi)))
       (map (map (Rmult b)) oi) = xi.
Proof. intros H1 H2. by_elements (noise_consistent_row a b r k H1 H2). Qed.

Lemma noise_consistent_batch (ca cb cr ck : Z -> R) t (x out : Tensor3) :
  Forall (fun i => ca i * cr i = 1 /\ ca i * ck i = cb i) t ->
  length t = length x -> same_shape x out ->
  tadd (bmul (map ca t) (tsub (bmul (map cr t) x) (bmul (map ck t) out)))
       (bmul (map cb t) out) = x.
Proof.
  intros Ht Hlen Hs. revert t Ht Hlen.
  induction Hs as [|xi oi x out Hel _ IH]; intros [|i t] Ht Hlen; try discriminate;
    [reflexivity|].
  inversion Ht as [|? ? [H1 H2] Ht']; subst. injection Hlen as Hlen.
  unfold tsub, tadd, t3map2, bmul in *. cbn [map map2].
  rewrite IH by assumption. f_equal. now apply noise_consistent_element.
Qed.

Lemma start_consistent_row a b r k :
  a * r = 1 -> b = a * k -> k <> 0 ->
  forall rx ry : list R, length rx = length ry ->
  map2 Rplus (map (Rmult a) ry)
             (map (Rmult b) (map (fun v => v / k) (map2 Rminus (map (Rmult r) rx) ry))) = rx.
Proof.
  intros H1 H2 Hk. by_rows idtac.
  replace (a * u + b * ((r * x - u) / k)) with (a * u + (b / k) * (r * x - u))
    by (field; exact Hk).
  replace (b / k) with a by (rewrite H2; field; exact Hk).
  replace (a * u + a * (r * x - u)) with (a * r * x) by ring. rewrite H1. ring.
Qed.

Lemma start_consistent_element a b r k (xi yi : list (list R)) :
  a * r = 1 -> b = a * k -> k <> 0 ->
  Forall2 (fun p q : list R => length p = length q) xi yi ->
  map2 (map2 Rplus) (map (map (Rmult a)) yi)
       (map (map (Rmult b))
            (map (map (fun v => v / k)) (map2 (map2 Rminus) (map (map (Rmult r)) xi) yi))) = xi.
Proof. intros H1 H2 Hk. by_elements (start_consistent_row a b r k H1 H2 Hk). Qed.

Lemma start_consistent_batch (ca cb cr ck : Z -> R) t (x y : Tensor3) :
  Forall (fun i => ca i * cr i = 1 /\ cb i = ca i * ck i /\ ck i <> 0) t ->
  length t = length x -> same_shape x y ->
  tadd (bmul (map ca t) y)
       (bmul (map cb t) (bdiv (tsub (bmul (map cr t) x) y) (map ck t))) = x.
Proof.
  intros Ht Hlen Hs. revert t Ht Hlen.
  induction Hs as [|xi yi x y Hel _ IH]; intros [|i t] Ht Hlen; try discriminate;
    [reflexivity|].
  inversion Ht as [|? ? (H1 & H2 & H3) Ht']; subst. injection Hlen as Hlen.
  unfold bdiv, tsub, tadd, t3map2, bmul in *. cbn [map map2].
  rewrite IH by assumption. f_equal. now apply start_consistent_element.
Qed.

Lemma same_shape_combination c1 c2 (x out : Tensor3) :
  same_shape x out -> length c1 = length x -> length c2 = length x ->
  same_shape x (tsub (bmul c1 x) (bmul c2 out)).
Proof.
  intros Hs H1 H2. pose proof (same_shape_length _ _ Hs) as Hl.
  apply (same_shape_trans _ (bmul c1 x)); [now apply same_shape_bmul|].
  apply same_shape_t3map2.
  apply (same_shape_trans _ x); [apply same_shape_sym; now apply same_shape_bmul|].
  apply (same_shape_trans _ out); [exact Hs|]. apply same_shape_bmul. congruence.
Qed.

Lemma sqrt_product_facts a :
  0 < a < 1 ->
  sqrt a * sqrt (1 / a) = 1 /\
  sqrt a * sqrt (1 / a - 1) = sqrt (1 - a) /\
  sqrt (1 / a - 1) <> 0.
Proof.
  intros Ha. destruct (sqrt_recip_facts a Ha) as (H1 & _ & H3 & _).
  split; [now rewrite Rmult_comm|]. split; [|exact H3].
  assert (Hi : 1 < / a) by (rewrite <- Rinv_1; apply Rinv_lt_contravar; lra).
  assert (Hk : 0 <= 1 / a - 1) by (unfold Rdiv; lra).
  rewrite <- sqrt_mult by lra. f_equal. field. lra.
Qed.

(** X29: the pair returned by the objective dispatch of [model_predictions]
    is consistent with the forward process.  On a regular engine, for a
    network output of the shape of x, the predicted start and the predicted
    noise reproduce x: q_sample(x_start, t, pred_noise) = x, under every
    objective, with or without clipping.  The one exception is pred_noise
    with clip_x_start set and rederive_pred_noise not set, where the noise
    is kept as the network gave it while the start is clipped. *)
Theorem predictions_consistent m cfg e (x out : Tensor3) (t : list Z) clip rederive w :
  GaussianDiffusionConditional_init m cfg = Ok e ->
  regular_schedule (cfg_beta_schedule cfg) (cfg_timesteps cfg) ->
  Forall (fun i => 0 <= i < cfg_timesteps cfg)%Z t ->
  length t = length x ->
  same_shape x out ->
  (objective e = "pred_noise"%string -> clip = true -> rederive = true) ->
  exists pred_noise x_start,
    predictions_from_output e x t out clip rederive = Ok (pred_noise, x_start) /\
    q_sample e x_start t (Some pred_noise) w = Ok (x, w).
Proof.
  intros He Hreg Ht Hlen Hs Hcase. pose proof (init_inv _ _ _ He) as Hb.
  assert (Hr : in_range e t).
  { unfold in_range. destruct (regular_num _ _ _ He Hreg) as [-> _]. exact Ht. }
  set (A := fun i => nth (Z.to_nat i) (map sqrt (alphas_cumprod e)) 0).
  set (B := fun i => nth (Z.to_nat i) (map (fun a => sqrt (1 - a)) (alphas_cumprod e)) 0).
  set (Rc := fun i => nth (Z.to_nat i) (map (fun a => sqrt (1 / a)) (alphas_cumprod e)) 0).
  set (K := fun i => nth (Z.to_nat i) (map (fun a => sqrt (1 / a - 1)) (alphas_cumprod e)) 0).
  assert (Hc : Forall (fun i => A i * Rc i = 1 /\ A i * K i = B i /\ K i <> 0) t).
  { apply Forall_forall; intros i Hin. rewrite Forall_forall in Ht.
    subst A B Rc K. cbv beta.
    destruct (converter_coefficients _ _ _ i He Hreg (Ht i Hin)) as (-> & -> & -> & -> & Ha).
    now apply sqrt_product_facts. }
  assert (HA : forall y, same_shape x y ->
             tadd (bmul (map A t) y)
                  (bmul (map B t) (bdiv (tsub (bmul (map Rc t) x) y) (map K t))) = x).
  { intros y Hy. apply start_consistent_batch; try assumption.
    eapply Forall_impl; [|exact Hc]. cbv beta. intros i (H1 & H2 & H3). auto. }
  assert (HB : tadd (bmul (map A t) (tsub (bmul (map Rc t) x) (bmul (map K t) out)))
                    (bmul (map B t) out) = x).
  { apply noise_consistent_batch; try assumption.
    eapply Forall_impl; [|exact Hc]. cbv beta. intros i (H1 & H2 & H3). auto. }
  assert (Hq : forall xs pn,
             q_sample e xs t (Some pn) w = Ok (tadd (bmul (map A t) xs) (bmul (map B t) pn), w)).
  { intros xs pn. unfold q_sample, bind, ret, lift.
    rewrite (built_sqrt_acp _ _ _ Hb), (built_sqrt_1m_acp _ _ _ Hb).
    now rewrite !(extract_acp_ok _ _ _ Hb) by exact Hr. }
  assert (Hcomb : forall c1 c2 : Z -> R,
             same_shape x (tsub (bmul (map c1 t) x) (bmul (map c2 t) out))).
  { intros c1 c2. apply same_shape_combination; rewrite ?length_map; assumption. }
  unfold predictions_from_output, predict_start_from_noise, predict_noise_from_start,
    predict_start_from_v.
  rewrite (built_sqrt_acp _ _ _ Hb), (built_sqrt_1m_acp _ _ _ Hb),
    (built_sqrt_recip _ _ _ Hb), (built_sqrt_recipm1 _ _ _ Hb).
  rewrite !(extract_acp_ok _ _ _ Hb) by exact Hr. cbn [rbind].
  fold A B Rc K.
  destruct (known_objective_cases _ (built_known _ _ _ Hb)) as [Ho|[Ho|Ho]]; rewrite Ho;
    cbn [String.eqb Ascii.eqb Bool.eqb].
  - destruct clip; cbn [andb].
    + rewrite (Hcase Ho eq_refl). eexists. eexists. split; [reflexivity|].
      rewrite Hq. f_equal. f_equal. apply HA.
      eapply same_shape_trans; [apply Hcomb|apply same_shape_maybe_clip].
    + eexists. eexists. split; [reflexivity|].
      rewrite Hq. f_equal. f_equal. unfold maybe_clip. exact HB.
  - eexists. eexists. split; [reflexivity|].
    rewrite Hq. f_equal. f_equal. apply HA.
    eapply same_shape_trans; [exact Hs|apply same_shape_maybe_clip].
  - eexists. eexists. split; [reflexivity|].
    rewrite Hq. f_equal. f_equal. apply HA.
    eapply same_shape_trans; [apply Hcomb|apply same_shape_maybe_clip].
Qed.

Lemma predictions_consistent_witness :
  exists e pred_noise x_start,
    GaussianDiffusionConditional_init toy_net (config "cosine" 4 None "pred_v") = Ok e /\
    predictions_from_output e [[[7]]] [2%Z] [[[1]]] true false = Ok (pred_noise, x_start) /\
    q_sample e x_start [2%Z] (Some pred_noise) still_world = Ok ([[[7]]], still_world).
Proof.
  destruct (cosine_engine false 4 None "pred_v"%string) as (e & He & Hb & _);
    [lia|reflexivity|discriminate|].
  exists e.
  destruct (predictions_consistent toy_net (config "cosine" 4 None "pred_v") e
              [[[7]]] [[[1]]] [2%Z] true false still_world He) as (pn & xs & H).
  - regular_cosine.
  - constructor; [cbn; lia|constructor].
  - reflexivity.
  - repeat constructor.
  - rewrite (built_objective _ _ _ Hb). discriminate.
  - exists pn, xs. split; [exact He|exact H].
Defined.

(** ** The target timesteps of diffuse *)

Lemma index_cases a i :
  index a i =
  if ((- Z.of_nat (length a) <=? i) && (i <? Z.of_nat (length a)))%Z
  then Ok (nth (Z.to_nat (if (i <? 0)%Z then i + Z.of_nat (length a) else i)) a 0)
  else Raise IndexError.
Proof.
  unfold index.
  repeat match goal with
         | |- context [(?a <? ?b)%Z] => destruct (Z.ltb_spec a b)
         | |- context [(?a <=? ?b)%Z] => destruct (Z.leb_spec a b)
         end; cbn [andb orb]; try reflexivity; lia.
Qed.

(** X30: [diffuse] accepts the target timesteps from 1 - T to T.  A target
    in [1, T] uses the per-step alpha at index target - 1, a target in
    [1 - T, 0] wraps around to index target - 1 + T, so that the targets 0
    and T scale the data alike; every other target raises IndexError. *)
Theorem diffuse_target_range e data K w :
  ((K < 1 - Z.of_nat (length (betas e)) \/ Z.of_nat (length (betas e)) < K)%Z ->
   diffuse e data K w = Raise IndexError) /\
  ((1 - Z.of_nat (length (betas e)) <= K <= Z.of_nat (length (betas e)))%Z ->
   let i := Z.to_nat (if (K <=? 0)%Z then K - 1 + Z.of_nat (length (betas e)) else K - 1) in
   diffuse e data K w =
   Ok (tadd (tscale (sqrt (1 - nth i (betas e) 0)) data)
            (tscale (sqrt (1 - (1 - nth i (betas e) 0))) (fill3 (rng w (draws w)) data)),
       next_draw EvRandn w)) /\
  ((0 < length (betas e))%nat ->
   diffuse e data (Z.of_nat (length (betas e))) w = diffuse e data 0 w).
Proof.
  assert (Hok : forall k,
            (1 - Z.of_nat (length (betas e)) <= k <= Z.of_nat (length (betas e)))%Z ->
            diffuse e data k w =
            Ok (tadd (tscale (sqrt (1 - nth (Z.to_nat (if (k <=? 0)%Z
                                                       then k - 1 + Z.of_nat (length (betas e))
                                                       else k - 1)) (betas e) 0)) data)
                     (tscale (sqrt (1 - (1 - nth (Z.to_nat (if (k <=? 0)%Z
                                                            then k - 1 + Z.of_nat (length (betas e))
                                                            else k - 1)) (betas e) 0)))
                             (fill3 (rng w (draws w)) data)),
                next_draw EvRandn w)).
  { intros k Hk. apply diffuse_at. rewrite index_cases, length_map.
    destruct (Z.leb_spec (- Z.of_nat (length (betas e))) (k - 1)); [|lia].
    destruct (Z.ltb_spec (k - 1) (Z.of_nat (length (betas e)))); [|lia].
    cbn [andb]. f_equal.
    destruct (Z.leb_spec k 0); destruct (Z.ltb_spec (k - 1) 0); try lia;
      apply nth_alphas; lia. }
  split; [|split].
  - intros HK. unfold diffuse, bind, randn_like, lift. rewrite index_cases, length_map.
    destruct (Z.leb_spec (- Z.of_nat (length (betas e))) (K - 1));
      destruct (Z.ltb_spec (K - 1) (Z.of_nat (length (betas e)))); cbn [andb];
      try reflexivity; lia.
  - intros HK i. exact (Hok K HK).
  - intros Hn. rewrite (Hok (Z.of_nat (length (betas e)))) by lia.
    rewrite (Hok 0%Z) by lia.
    destruct (Z.leb_spec (Z.of_nat (length (betas e))) 0); [lia|].
    cbn [Z.leb Z.compare].
    replace (Z.to_nat (Z.of_nat (length (betas e)) - 1))
      with (Z.to_nat (0 - 1 + Z.of_nat (length (betas e)))) by lia.
    reflexivity.
Qed.
